(** * Exam-paper extraction pipeline: a shallow embedding

    The parsers of [exam_parser.py] ([ExamPDFParser]) and [case_parser.py]
    ([CaseStudyParser]) are translated function by function.  Python [str]
    values are lists of Unicode code points, [re] patterns are terms of a small
    regular-expression syntax run by a backtracking matcher that follows the
    priorities of Python's [re] module, dictionaries keyed by question number
    are finite maps, and Python exceptions are the [Raise] outcome of an error
    monad. *)

From stdpp Require Import gmap list strings.
From Stdlib Require Import NArith ZArith Lia.

Set Default Proof Using "Type".

(** ** Text: sequences of code points *)

(** Decoding of the UTF-8 bytes of a literal into code points; [need] is the
    number of continuation bytes still expected. *)
Fixpoint utf8_from (need : nat) (acc : N) (s : string) : list N :=
  match s with
  | EmptyString => []
  | String a s' =>
      let b := Ascii.N_of_ascii a in
      match need with
      | O =>
          if (b <? 128)%N then b :: utf8_from 0 0 s'
          else if (b <? 224)%N then utf8_from 1 (b - 192) s'
          else if (b <? 240)%N then utf8_from 2 (b - 224) s'
          else utf8_from 3 (b - 240) s'
      | S n =>
          let acc' := (acc * 64 + (b - 128))%N in
          match n with
          | O => acc' :: utf8_from 0 0 s'
          | S _ => utf8_from n acc' s'
          end
      end
  end.

Definition utf8 (s : string) : list N := utf8_from 0 0 s.

(** The code point of a one-character literal. *)
Definition ch (s : string) : N := default 0%N (head (utf8 s)).

(** Line feed, the ['\n'] of the source. *)
Definition nl : N := 10%N.

(** A document given line by line: the lines joined by ['\n']. *)
Fixpoint unlines (ls : list string) : list N :=
  match ls with
  | [] => []
  | [l] => utf8 l
  | l :: ls' => utf8 l ++ nl :: unlines ls'
  end.

(** The character tables of the Python runtime that the source relies on:
    [\d] and [int] (decimal digits and their values), [\s] and [str.strip]
    (white space), [\b] (alphanumeric characters). *)
Class Unicode := {
  uni_decimal : N → option N;
  uni_isspace : N → bool;
  uni_isalnum : N → bool
}.

Definition is_digit `{Unicode} (c : N) : bool := bool_decide (is_Some (uni_decimal c)).
Definition is_word `{Unicode} (c : N) : bool := uni_isalnum c || (c =? ch "_")%N.

(** ** Exceptions *)

Inductive exn := ValueError | KeyError | TypeError | AttributeError | IndexError.

Inductive res (A : Type) := Ok (a : A) | Raise (e : exn).
Arguments Ok {A} a.
Arguments Raise {A} e.

Definition res_bind {A B} (x : res A) (f : A → res B) : res B :=
  match x with
  | Ok a => f a
  | Raise e => Raise e
  end.

Notation "'let*' x ':=' e 'in' f" := (res_bind e (λ x, f))
  (at level 10, x pattern, e at level 100, f at level 200).

(** [for x in xs: body] over an accumulator, stopping at the first exception. *)
Fixpoint for_each {A S} (xs : list A) (body : A → S → res S) (s : S) : res S :=
  match xs with
  | [] => Ok s
  | x :: xs' => let* s' := body x s in for_each xs' body s'
  end.

(** ** Python string operations *)

(** [sys.get_int_max_str_digits()]: the longest string of digits that [int]
    converts, 4300 unless the interpreter is told otherwise. *)
Definition int_max_str_digits : nat := 4300.

Section PyStr.
Context `{Unicode}.

Fixpoint lstrip (s : list N) : list N :=
  match s with
  | c :: s' => if uni_isspace c then lstrip s' else s
  | [] => []
  end.

Definition rstrip (s : list N) : list N := reverse (lstrip (reverse s)).

(** [s.strip()] *)
Definition strip (s : list N) : list N := rstrip (lstrip s).

(** [s[a:b]] for [0 <= a], [0 <= b] *)
Definition slice (s : list N) (a b : nat) : list N := take (b - a) (drop a s).

Fixpoint starts_with (p s : list N) : bool :=
  match p, s with
  | [], _ => true
  | a :: p', b :: s' => (a =? b)%N && starts_with p' s'
  | _ :: _, [] => false
  end.

(** [needle in hay] *)
Fixpoint contains (needle hay : list N) : bool :=
  starts_with needle hay ||
  match hay with
  | [] => false
  | _ :: hay' => contains needle hay'
  end.

(** [s.replace(c, new)] for a one-character [c] *)
Definition replace_char (c : N) (new : list N) (s : list N) : list N :=
  flat_map (λ x, if (x =? c)%N then new else [x]) s.

(** [s.split('\n')]; [cur] is the current line, reversed. *)
Fixpoint split_lines_from (cur : list N) (s : list N) : list (list N) :=
  match s with
  | [] => [reverse cur]
  | c :: s' => if (c =? nl)%N then reverse cur :: split_lines_from [] s'
               else split_lines_from (c :: cur) s'
  end.

Definition split_lines (s : list N) : list (list N) := split_lines_from [] s.

(** ['\n'.join(ls)] *)
Fixpoint join_lines (ls : list (list N)) : list N :=
  match ls with
  | [] => []
  | [l] => l
  | l :: ls' => l ++ nl :: join_lines ls'
  end.

(** Value of a string of decimal digits, most significant first. *)
Fixpoint digits_value (acc : Z) (s : list N) : option Z :=
  match s with
  | [] => Some acc
  | c :: s' =>
      match uni_decimal c with
      | Some d => digits_value (10 * acc + Z.of_N d) s'
      | None => None
      end
  end.

(** [int(s)] on a string of digits: a [ValueError] when the string has more
    than [int_max_str_digits] characters, its value otherwise.  Anything
    else than digits is a [ValueError] here (the source only converts what
    [\d+] captured). *)
Definition int (s : list N) : res Z :=
  match s with
  | [] => Raise ValueError
  | _ =>
      if (length s <=? int_max_str_digits)%nat then
        match digits_value 0 s with
        | Some z => Ok z
        | None => Raise ValueError
        end
      else Raise ValueError
  end.
End PyStr.

(** ** Regular expressions, as Python's [re] runs them *)

Module Re.

(** One item of a bracketed set [[...]]. *)
Inductive citem :=
| One (c : N)
| Range (lo hi : N)
| CSpace
| CDigit.

Inductive re :=
| Eps
| Lit (c : N)
| Cls (neg : bool) (items : list citem)
| Dot
| Digit
| Space
| WordB
| Bol
| Eol
| Seq (a b : re)
| Alt (a b : re)
| Rep (greedy : bool) (lo : nat) (hi : option nat) (a : re)
| Grp (n : nat) (a : re)
| Look (positive : bool) (a : re).

(** The flags that change matching.  [re.IGNORECASE] is not listed: every
    pattern the source compiles with it is made of caseless characters. *)
Record flags := { DOTALL : bool; MULTILINE : bool }.

Definition no_flags : flags := {| DOTALL := false; MULTILINE := false |}.
Definition dotall : flags := {| DOTALL := true; MULTILINE := false |}.
Definition multiline : flags := {| DOTALL := false; MULTILINE := true |}.
Definition multiline_dotall : flags := {| DOTALL := true; MULTILINE := true |}.

(** Matcher state: the position, the character before it, the text from it
    on, and the groups captured so far (latest first). *)
Record mstate := {
  pos : nat;
  prev : option N;
  rest : list N;
  caps : list (nat * list N)
}.

Definition set_cap (n : nat) (s : list N) (st : mstate) : mstate :=
  {| pos := pos st; prev := prev st; rest := rest st; caps := (n, s) :: caps st |}.

Definition with_caps (cs : list (nat * list N)) (st : mstate) : mstate :=
  {| pos := pos st; prev := prev st; rest := rest st; caps := cs |}.

Fixpoint assoc (n : nat) (cs : list (nat * list N)) : option (list N) :=
  match cs with
  | [] => None
  | (k, s) :: cs' => if (k =? n)%nat then Some s else assoc n cs'
  end.

(** Syntax helpers, so that a pattern reads like its source string. *)
Fixpoint seq (rs : list re) : re :=
  match rs with
  | [] => Eps
  | [r] => r
  | r :: rs' => Seq r (seq rs')
  end.

Fixpoint alt (rs : list re) : re :=
  match rs with
  | [] => Cls false []
  | [r] => r
  | r :: rs' => Alt r (alt rs')
  end.

Definition lit (s : string) : re := seq (map Lit (utf8 s)).
Definition oneof (s : string) : list citem := map One (utf8 s).
Definition rng (a b : string) : citem := Range (ch a) (ch b).
Definition star (r : re) : re := Rep true 0 None r.
Definition plus (r : re) : re := Rep true 1 None r.
Definition opt (r : re) : re := Rep true 0 (Some 1) r.
Definition lazy_star (r : re) : re := Rep false 0 None r.
Definition at_least (n : nat) (r : re) : re := Rep true n None r.

(** Number of capture groups of a pattern ([re.compile(p).groups]). *)
Fixpoint ngroups (r : re) : nat :=
  match r with
  | Seq a b | Alt a b => ngroups a `max` ngroups b
  | Rep _ _ _ a | Look _ a => ngroups a
  | Grp n a => n `max` ngroups a
  | _ => 0
  end.

Section Matcher.
Context `{Unicode} (fl : flags).

Definition citem_test (c : N) (i : citem) : bool :=
  match i with
  | One d => (c =? d)%N
  | Range lo hi => (lo <=? c)%N && (c <=? hi)%N
  | CSpace => uni_isspace c
  | CDigit => is_digit c
  end.

Definition in_class (neg : bool) (items : list citem) (c : N) : bool :=
  xorb neg (existsb (citem_test c) items).

Definition dot_ok (c : N) : bool := DOTALL fl || negb (c =? nl)%N.

(** Consume one character satisfying [p]. *)
Definition eat (p : N → bool) (st : mstate) (k : mstate → option mstate) : option mstate :=
  match rest st with
  | c :: s =>
      if p c then k {| pos := S (pos st); prev := Some c; rest := s; caps := caps st |}
      else None
  | [] => None
  end.

Definition opt_word (o : option N) : bool :=
  match o with Some c => is_word c | None => false end.

(** [^]: start of the text, and after each line feed under [MULTILINE]. *)
Definition at_bol (st : mstate) : bool :=
  match prev st with
  | None => true
  | Some c => MULTILINE fl && (c =? nl)%N
  end.

(** [$]: end of the text or before its final line feed; before every line
    feed under [MULTILINE]. *)
Definition at_eol (st : mstate) : bool :=
  match rest st with
  | [] => true
  | c :: s => (c =? nl)%N && (MULTILINE fl || bool_decide (s = []))
  end.

Definition at_wordb (st : mstate) : bool :=
  xorb (opt_word (prev st)) (opt_word (head (rest st))).

Definition below (hi : option nat) (cnt : nat) : bool :=
  match hi with Some h => (cnt <? h)%nat | None => true end.

(** The repetition [a{lo,hi}] ([hi = None]: unbounded), [body] matching one
    [a].  A greedy repetition tries one more iteration before what follows,
    a lazy one tries what follows first; an optional iteration that consumed
    nothing is abandoned.  [fuel] bounds the number of iterations. *)
Fixpoint rep_loop (body : mstate → (mstate → option mstate) → option mstate)
    (greedy : bool) (lo : nat) (hi : option nat) (k : mstate → option mstate)
    (fuel cnt : nat) (st : mstate) {struct fuel} : option mstate :=
  match fuel with
  | O => None
  | S fuel' =>
      if (cnt <? lo)%nat then body st (λ st', rep_loop body greedy lo hi k fuel' (S cnt) st')
      else if negb (below hi cnt) then k st
      else
        let again :=
          λ _ : unit,
            body st (λ st',
              if (pos st <? pos st')%nat then rep_loop body greedy lo hi k fuel' (S cnt) st'
              else None) in
        if greedy then
          match again () with
          | Some out => Some out
          | None => k st
          end
        else
          match k st with
          | Some out => Some out
          | None => again ()
          end
  end.

(** The backtracking matcher, in continuation-passing style: [k] is what
    remains to be matched after [r], and the first success wins. *)
Fixpoint run (r : re) (st : mstate) (k : mstate → option mstate) {struct r} : option mstate :=
  match r with
  | Eps => k st
  | Lit c => eat (λ d, (d =? c)%N) st k
  | Cls neg items => eat (in_class neg items) st k
  | Dot => eat dot_ok st k
  | Digit => eat is_digit st k
  | Space => eat uni_isspace st k
  | WordB => if at_wordb st then k st else None
  | Bol => if at_bol st then k st else None
  | Eol => if at_eol st then k st else None
  | Seq a b => run a st (λ st', run b st' k)
  | Alt a b =>
      match run a st k with
      | Some out => Some out
      | None => run b st k
      end
  | Rep greedy lo hi a =>
      rep_loop (run a) greedy lo hi k (S (lo + length (rest st))) 0 st
  | Grp n a =>
      run a st (λ st', k (set_cap n (take (pos st' - pos st) (rest st)) st'))
  | Look positive a =>
      match run a st Some with
      | Some st' => if positive then k (with_caps (caps st') st) else None
      | None => if positive then None else k st
      end
  end.
End Matcher.

(** A match object: [m.start()], [m.end()], [m.group(0)] and the groups. *)
Record rmatch := {
  m_start : nat;
  m_end : nat;
  m_text : list N;
  m_caps : list (nat * list N)
}.

(** [m.group(i)]; [None] when group [i] took no part in the match. *)
Definition group (m : rmatch) (i : nat) : option (list N) :=
  match i with
  | O => Some (m_text m)
  | _ => assoc i (m_caps m)
  end.

Section Scan.
Context `{Unicode} (fl : flags).

(** One attempt at position [p]; under [must_advance] (the previous match
    of a scan was empty and ended here) an empty match is refused. *)
Definition try_at (r : re) (must_advance : bool) (p : nat) (pv : option N) (s : list N)
  : option (rmatch * mstate) :=
  match run fl r {| pos := p; prev := pv; rest := s; caps := [] |}
          (λ st', if must_advance && (pos st' =? p)%nat then None else Some st') with
  | Some st' =>
      Some ({| m_start := p; m_end := pos st'; m_text := take (pos st' - p) s;
               m_caps := caps st' |}, st')
  | None => None
  end.

(** Leftmost match at or after position [p]. *)
Fixpoint scan (r : re) (must_advance : bool) (p : nat) (pv : option N) (s : list N)
  : option (rmatch * mstate) :=
  match try_at r must_advance p pv s with
  | Some out => Some out
  | None =>
      match s with
      | [] => None
      | c :: s' => scan r false (S p) (Some c) s'
      end
  end.

(** [re.match(r, s)] *)
Definition match_ (r : re) (s : list N) : option rmatch :=
  fst <$> try_at r false 0 None s.

(** [re.search(r, s)] *)
Definition search (r : re) (s : list N) : option rmatch :=
  fst <$> scan r false 0 None s.

Fixpoint finditer_from (fuel : nat) (r : re) (must_advance : bool)
    (p : nat) (pv : option N) (s : list N) : list rmatch :=
  match fuel with
  | O => []
  | S fuel' =>
      match scan r must_advance p pv s with
      | None => []
      | Some (m, st') =>
          m :: finditer_from fuel' r (m_end m =? m_start m)%nat (pos st') (prev st') (rest st')
      end
  end.

(** [list(re.finditer(r, s))]: the successive non-overlapping matches. *)
Definition finditer (r : re) (s : list N) : list rmatch :=
  finditer_from (2 * length s + 2) r false 0 None s.

(** The text between the matches: before the first one, between
    consecutive ones, after the last one. *)
Fixpoint pieces (s : list N) (last : nat) (ms : list rmatch) : list (list N) :=
  match ms with
  | [] => [drop last s]
  | m :: ms' => slice s last (m_start m) :: pieces s (m_end m) ms'
  end.

(** [re.split(r, s)]: the pieces, each match contributing its groups
    [1..ngroups] in between ([None] for a group that took no part). *)
Fixpoint split_parts (n : nat) (s : list N) (last : nat) (ms : list rmatch)
  : list (option (list N)) :=
  match ms with
  | [] => [Some (drop last s)]
  | m :: ms' =>
      Some (slice s last (m_start m)) :: map (group m) (List.seq 1 n)
        ++ split_parts n s (m_end m) ms'
  end.

Definition split (r : re) (s : list N) : list (option (list N)) :=
  split_parts (ngroups r) s 0 (finditer r s).

(** [re.sub(r, repl, s)] for a replacement without group references. *)
Fixpoint join_with (repl : list N) (ps : list (list N)) : list N :=
  match ps with
  | [] => []
  | [p] => p
  | p :: ps' => p ++ repl ++ join_with repl ps'
  end.

Definition sub (r : re) (repl : list N) (s : list N) : list N :=
  join_with repl (pieces s 0 (finditer r s)).

(** [re.findall(r, s)] for a pattern with two groups: pairs of strings, the
    empty string standing for a group that took no part. *)
Definition findall2 (r : re) (s : list N) : list (list N * list N) :=
  map (λ m, (default [] (group m 1), default [] (group m 2))) (finditer r s).

(** [re.findall(r, s)] for a pattern without group: the matched texts. *)
Definition findall0 (r : re) (s : list N) : list (list N) :=
  map m_text (finditer r s).
End Scan.

(** *** What a successful match implies

    [reach r st st']: the matcher may leave [r], entered in state [st], in
    state [st'].  It forgets priorities and is only used to derive facts
    that hold of every match. *)
Section Semantics.
Context `{Unicode} (fl : flags).

Definition step (p : N → bool) (st st' : mstate) : Prop :=
  ∃ c s, rest st = c :: s ∧ p c = true ∧
         st' = {| pos := S (pos st); prev := Some c; rest := s; caps := caps st |}.

Fixpoint iter (n : nat) (P : mstate → mstate → Prop) (st st' : mstate) : Prop :=
  match n with
  | O => st' = st
  | S n' => ∃ mid, P st mid ∧ iter n' P mid st'
  end.

Fixpoint reach (r : re) (st st' : mstate) : Prop :=
  match r with
  | Eps => st' = st
  | Lit c => step (λ d, (d =? c)%N) st st'
  | Cls neg items => step (in_class neg items) st st'
  | Dot => step (dot_ok fl) st st'
  | Digit => step is_digit st st'
  | Space => step uni_isspace st st'
  | WordB => at_wordb st = true ∧ st' = st
  | Bol => at_bol fl st = true ∧ st' = st
  | Eol => at_eol fl st = true ∧ st' = st
  | Seq a b => ∃ mid, reach a st mid ∧ reach b mid st'
  | Alt a b => reach a st st' ∨ reach b st st'
  | Rep _ lo _ a => ∃ n, lo ≤ n ∧ iter n (reach a) st st'
  | Grp n a =>
      ∃ mid, reach a st mid ∧ st' = set_cap n (take (pos mid - pos st) (rest st)) mid
  | Look positive a =>
      if positive then ∃ mid, reach a st mid ∧ st' = with_caps (caps mid) st
      else st' = st
  end.

(** [after st st']: [st'] is further in the same text as [st]. *)
Definition after (st st' : mstate) : Prop :=
  pos st ≤ pos st' ∧ pos st' + length (rest st') = pos st + length (rest st).

(** The matches that [r] produces: the captures of an end state reached
    from a state without capture. *)
Definition match_of (r : re) (m : rmatch) : Prop :=
  ∃ st0 st', caps st0 = [] ∧ reach r st0 st' ∧ m_caps m = caps st'.

(** A string [int] accepts: one or more decimal digits. *)
Definition numeric (s : list N) : Prop :=
  s ≠ [] ∧ Forall (λ c, is_digit c = true) s.

(** Group 1, when captured, is numeric. *)
Definition digit_caps (cs : list (nat * list N)) : Prop :=
  ∀ s, assoc 1 cs = Some s → numeric s.
End Semantics.

(** [sets g r]: every match of [r] goes through group [g]. *)
Fixpoint sets (g : nat) (r : re) : bool :=
  match r with
  | Seq a b => sets g a || sets g b
  | Alt a b => sets g a && sets g b
  | Rep _ lo _ a => (0 <? lo)%nat && sets g a
  | Grp n a => (n =? g)%nat || sets g a
  | Look positive a => positive && sets g a
  | _ => false
  end.

(** [digit_groups r]: wherever group 1 occurs in [r], it is a run of one or
    more [\d]. *)
Fixpoint digit_groups (r : re) : bool :=
  match r with
  | Seq a b | Alt a b => digit_groups a && digit_groups b
  | Rep _ _ _ a | Look _ a => digit_groups a
  | Grp n a =>
      if (n =? 1)%nat then
        match a with
        | Rep _ (S _) _ Digit => true
        | _ => false
        end
      else digit_groups a
  | _ => true
  end.

(** A pattern whose matches all carry a number in group 1. *)
Definition numbered (r : re) : bool := sets 1 r && digit_groups r.

End Re.

Import Re.

(** [x] when a Python value is a string, exception [e] when it is [None]. *)
Definition need {A} (e : exn) (o : option A) : res A :=
  match o with
  | Some a => Ok a
  | None => Raise e
  end.

(** ** Insertion-ordered dictionaries with few keys *)

Section ODict.
Context {K V : Type} `{EqDecision K}.

(** [d[k] = v] *)
Fixpoint od_set (k : K) (v : V) (d : list (K * V)) : list (K * V) :=
  match d with
  | [] => [(k, v)]
  | (k', v') :: d' => if decide (k' = k) then (k, v) :: d' else (k', v') :: od_set k v d'
  end.

(** [d.get(k)] *)
Fixpoint od_get (k : K) (d : list (K * V)) : option V :=
  match d with
  | [] => None
  | (k', v') :: d' => if decide (k' = k) then Some v' else od_get k d'
  end.
End ODict.

(** ** exam_parser.py *)

(** The three values of [ExamQuestion.type]: ['单选题'], ['多选题'], ['案例题']. *)
Inductive qtype := SingleChoice | MultiChoice | CaseType.

#[global] Instance qtype_eq_dec : EqDecision qtype.
Proof. solve_decision. Defined.

Record ExamQuestion := {
  q_number : option Z;
  q_type : option qtype;
  q_question : option (list N);
  q_options : list (list N * list N);
  q_answer : option (list N);
  q_analysis : option (list N);
  q_knowledge_points : list (list N);
  q_difficulty : option (list N)
}.

(** [ExamQuestion()] *)
Definition new_question : ExamQuestion :=
  {| q_number := None; q_type := None; q_question := None; q_options := [];
     q_answer := None; q_analysis := None; q_knowledge_points := [];
     q_difficulty := None |}.

Definition set_number (n : Z) (q : ExamQuestion) : ExamQuestion :=
  {| q_number := Some n; q_type := q_type q; q_question := q_question q;
     q_options := q_options q; q_answer := q_answer q; q_analysis := q_analysis q;
     q_knowledge_points := q_knowledge_points q; q_difficulty := q_difficulty q |}.

Definition set_type (t : qtype) (q : ExamQuestion) : ExamQuestion :=
  {| q_number := q_number q; q_type := Some t; q_question := q_question q;
     q_options := q_options q; q_answer := q_answer q; q_analysis := q_analysis q;
     q_knowledge_points := q_knowledge_points q; q_difficulty := q_difficulty q |}.

Definition set_question (s : list N) (q : ExamQuestion) : ExamQuestion :=
  {| q_number := q_number q; q_type := q_type q; q_question := Some s;
     q_options := q_options q; q_answer := q_answer q; q_analysis := q_analysis q;
     q_knowledge_points := q_knowledge_points q; q_difficulty := q_difficulty q |}.

Definition set_option (letter s : list N) (q : ExamQuestion) : ExamQuestion :=
  {| q_number := q_number q; q_type := q_type q; q_question := q_question q;
     q_options := od_set letter s (q_options q); q_answer := q_answer q;
     q_analysis := q_analysis q; q_knowledge_points := q_knowledge_points q;
     q_difficulty := q_difficulty q |}.

Definition set_analysis (s : list N) (q : ExamQuestion) : ExamQuestion :=
  {| q_number := q_number q; q_type := q_type q; q_question := q_question q;
     q_options := q_options q; q_answer := q_answer q; q_analysis := Some s;
     q_knowledge_points := q_knowledge_points q; q_difficulty := q_difficulty q |}.

(** *** Patterns of [_detect_question_type_ranges] *)

(** [一、\s*单.*?选.*?题.*?共\s*(\d+)\s*题] *)
Definition single_header : re :=
  seq [lit "一、"; star Space; lit "单"; lazy_star Dot; lit "选"; lazy_star Dot;
       lit "题"; lazy_star Dot; lit "共"; star Space; Grp 1 (plus Digit);
       star Space; lit "题"].

(** [二、\s*多.*?选.*?题.*?共\s*(\d+)\s*题] *)
Definition multi_header : re :=
  seq [lit "二、"; star Space; lit "多"; lazy_star Dot; lit "选"; lazy_star Dot;
       lit "题"; lazy_star Dot; lit "共"; star Space; Grp 1 (plus Digit);
       star Space; lit "题"].

(** [三、\s*案例.*?题.*?共\s*(\d+)\s*题] *)
Definition case_header : re :=
  seq [lit "三、"; star Space; lit "案例"; lazy_star Dot; lit "题"; lazy_star Dot;
       lit "共"; star Space; Grp 1 (plus Digit); star Space; lit "题"].

(** *** Patterns of [_parse_questions] *)

(** [三、\s*案例.*?题.*?(?=参考答案|$)] *)
Definition case_section_re : re :=
  seq [lit "三、"; star Space; lit "案例"; lazy_star Dot; lit "题"; lazy_star Dot;
       Look true (alt [lit "参考答案"; Eol])].

(** [参考答案] *)
Definition reference_answer_re : re := lit "参考答案".

(** [[（(][一二三四五][）)]] *)
Definition case_answer_re : re :=
  seq [Cls false (oneof "（("); Cls false (oneof "一二三四五"); Cls false (oneof "）)")].

(** [(?:^|\n)(\d+)[.、．]\s*] *)
Definition question_pattern : re :=
  seq [alt [Bol; Lit nl]; Grp 1 (plus Digit); Cls false (oneof ".、．"); star Space].

(** [(?:^|\n)(\d+)(?=[一-龥])] *)
Definition question_pattern_nopunct : re :=
  seq [alt [Bol; Lit nl]; Grp 1 (plus Digit); Look true (Cls false [rng "一" "龥"])].

(** *** Patterns of the field extractors *)

(** [答案[：:]\s*([A-E]+)] *)
Definition answer_colon_re : re :=
  seq [lit "答案"; Cls false (oneof "：:"); star Space; Grp 1 (plus (Cls false [rng "A" "E"]))].

(** [[（【](?:单选题|多选题|案例题)[）】]] *)
Definition type_tag_re : re :=
  seq [Cls false (oneof "（【"); alt [lit "单选题"; lit "多选题"; lit "案例题"];
       Cls false (oneof "）】")].

(** [\n\s*([A-E])[.、．]] *)
Definition option_pattern : re :=
  seq [Lit nl; star Space; Grp 1 (Cls false [rng "A" "E"]); Cls false (oneof ".、．")].

(** [答案[：:]|解析[：:]|【答案】|【解析】] *)
Definition option_cut_re : re :=
  alt [seq [lit "答案"; Cls false (oneof "：:")]; seq [lit "解析"; Cls false (oneof "：:")];
       lit "【答案】"; lit "【解析】"].

(** The list [patterns] of [_extract_answer]:
    [答案[：:]\s*([A-E]+)], [【答案】\s*([A-E]+)], [正确答案[：:]\s*([A-E]+)],
    [\n\s*([A-E]+)\s*(?:正确|√)] *)
Definition inline_answer_patterns : list re :=
  [ answer_colon_re;
    seq [lit "【答案】"; star Space; Grp 1 (plus (Cls false [rng "A" "E"]))];
    seq [lit "正确答案"; Cls false (oneof "：:"); star Space;
         Grp 1 (plus (Cls false [rng "A" "E"]))];
    seq [Lit nl; star Space; Grp 1 (plus (Cls false [rng "A" "E"])); star Space;
         alt [lit "正确"; lit "√"]] ].

(** [(?=\n\d+[.、．]|$)] *)
Definition until_next_question : re :=
  Look true (alt [seq [Lit nl; plus Digit; Cls false (oneof ".、．")]; Eol]).

(** The list [patterns] of [_extract_analysis]:
    [解析[：:](.*?)(?=\n\d+[.、．]|$)], [【解析】(.*?)(?=\n\d+[.、．]|$)],
    [答案解析[：:](.*?)(?=\n\d+[.、．]|$)] *)
Definition inline_analysis_patterns : list re :=
  [ seq [lit "解析"; Cls false (oneof "：:"); Grp 1 (lazy_star Dot); until_next_question];
    seq [lit "【解析】"; Grp 1 (lazy_star Dot); until_next_question];
    seq [lit "答案解析"; Cls false (oneof "：:"); Grp 1 (lazy_star Dot); until_next_question] ].

Section ExamParser.
Context `{Unicode}.

(** The count announced by a section header: [int(m.group(1))]. *)
Definition declared_count (m : rmatch) : res Z :=
  let* g := need TypeError (group m 1) in int g.

(** [type_ranges.get(k, (0, 0))[1]] *)
Definition range_end (k : qtype) (type_ranges : list (qtype * (Z * Z))) : Z :=
  snd (default (0, 0)%Z (od_get k type_ranges)).

Definition _detect_question_type_ranges (text : list N) : res (list (qtype * (Z * Z))) :=
  let type_ranges := [] in
  let* type_ranges :=
    match search no_flags single_header text with
    | Some single_match =>
        let* single_count := declared_count single_match in
        Ok (od_set SingleChoice (1, single_count)%Z type_ranges)
    | None => Ok type_ranges
    end in
  let* type_ranges :=
    match search no_flags multi_header text with
    | Some multi_match =>
        let* multi_count := declared_count multi_match in
        let single_end := range_end SingleChoice type_ranges in
        Ok (od_set MultiChoice (single_end + 1, single_end + multi_count)%Z type_ranges)
    | None => Ok type_ranges
    end in
  match search no_flags case_header text with
  | Some case_match =>
      let* case_count := declared_count case_match in
      let multi_end := range_end MultiChoice type_ranges in
      let multi_end :=
        if (multi_end =? 0)%Z then range_end SingleChoice type_ranges else multi_end in
      Ok (od_set CaseType (multi_end + 1, multi_end + case_count)%Z type_ranges)
  | None => Ok type_ranges
  end.

Definition _is_multi_choice (text : list N) : res bool :=
  match search no_flags answer_colon_re text with
  | Some answer_match =>
      let* answer := need TypeError (group answer_match 1) in
      Ok (bool_decide (1 < length answer))
  | None => Ok false
  end.

(** The [for i, match in enumerate(option_matches)] loop: each option runs
    from the end of its marker to the start of the next one, or to the end
    of the text.  The letter is group 1 of [option_pattern], which takes part
    in every match. *)
Fixpoint options_loop (text : list N) (ms : list rmatch) (q : ExamQuestion)
  : res ExamQuestion :=
  match ms with
  | [] => Ok q
  | m :: ms' =>
      let* option_letter := need TypeError (group m 1) in
      let start := m_end m in
      let end_ := match ms' with m' :: _ => m_start m' | [] => length text end in
      let option_text := strip (slice text start end_) in
      let* first := need IndexError (head (split no_flags option_cut_re option_text)) in
      let* first := need AttributeError first in
      options_loop text ms' (set_option option_letter (strip first) q)
  end.

Definition _extract_question_and_options (q : ExamQuestion) (text : list N)
  : res ExamQuestion :=
  let text := sub no_flags type_tag_re [] text in
  let option_matches := finditer no_flags option_pattern text in
  match option_matches with
  | first :: _ =>
      options_loop text option_matches
        (set_question (strip (take (m_start first) text)) q)
  | [] => Ok (set_question (strip text) q)
  end.

(** [for pattern in patterns: match = re.search(pattern, text); if match:
    ...; break]: the match of the first pattern that has one. *)
Fixpoint first_match (fl : flags) (patterns : list re) (text : list N) : option rmatch :=
  match patterns with
  | [] => None
  | p :: ps =>
      match search fl p text with
      | Some m => Some m
      | None => first_match fl ps text
      end
  end.

Definition _extract_answer (q : ExamQuestion) (text : list N) : ExamQuestion :=
  match first_match no_flags inline_answer_patterns text with
  | Some m =>
      {| q_number := q_number q; q_type := q_type q; q_question := q_question q;
         q_options := q_options q; q_answer := group m 1; q_analysis := q_analysis q;
         q_knowledge_points := q_knowledge_points q; q_difficulty := q_difficulty q |}
  | None => q
  end.

Definition _extract_analysis (q : ExamQuestion) (text : list N) : res ExamQuestion :=
  match first_match dotall inline_analysis_patterns text with
  | Some m =>
      let* g := need AttributeError (group m 1) in
      Ok (set_analysis (strip g) q)
  | None => Ok q
  end.

(** [for qtype, (start, end) in type_ranges.items(): if start <= number <= end:
    ...; break] *)
Fixpoint type_by_range (number : Z) (type_ranges : list (qtype * (Z * Z))) : option qtype :=
  match type_ranges with
  | [] => None
  | (qtype, (start, end_)) :: rs =>
      if (start <=? number)%Z && (number <=? end_)%Z then Some qtype
      else type_by_range number rs
  end.

Definition _parse_single_question (num : option (list N)) (text : option (list N))
    (type_ranges : list (qtype * (Z * Z))) : res (option ExamQuestion) :=
  let* num := need TypeError num in
  let* number := int num in
  let* text := need TypeError text in
  let question := set_number number new_question in
  let* qtype :=
    match type_by_range number type_ranges with
    | Some t => Ok t
    | None =>
        let* multi :=
          if contains (utf8 "（多选题）") text || contains (utf8 "【多选题】") text then Ok true
          else _is_multi_choice text in
        if multi then Ok MultiChoice
        else if contains (utf8 "（案例题）") text || contains (utf8 "【案例题】") text
                || contains (utf8 "背景资料") text
        then Ok CaseType
        else Ok SingleChoice
    end in
  let question := set_type qtype question in
  let* question := _extract_question_and_options question text in
  let question := _extract_answer question text in
  let* question := _extract_analysis question text in
  match q_question question with
  | Some (_ :: _) => Ok (Some question)
  | _ => Ok None
  end.

(** The text in which choice questions are looked for: the document without
    its case section, followed by the answer appendix up to its first case
    answer. *)
Definition main_text_of (text : list N) : list N :=
  match search dotall case_section_re text with
  | Some case_section_match =>
      let main_text := take (m_start case_section_match) text in
      match search no_flags reference_answer_re text with
      | Some answer_start =>
          let answer_text := drop (m_start answer_start) text in
          match search no_flags case_answer_re answer_text with
          | Some case_answer_match =>
              main_text ++ take (m_start case_answer_match) answer_text
          | None => main_text ++ answer_text
          end
      | None => main_text
      end
  | None => text
  end.

(** The segmentation step of [_parse_questions]: the standard split, replaced
    by the split without punctuation when it has fewer than 10 parts. *)
Definition question_parts (main_text : list N) : list (option (list N)) :=
  let parts := split no_flags question_pattern main_text in
  if (length parts <? 10)%nat then split no_flags question_pattern_nopunct main_text
  else parts.

(** [for i in range(1, len(parts), 2): if i + 1 < len(parts): ...], on the
    parts from index 1 on. *)
Fixpoint questions_loop (parts : list (option (list N)))
    (type_ranges : list (qtype * (Z * Z))) (questions : list ExamQuestion)
  : res (list ExamQuestion) :=
  match parts with
  | question_num :: question_text :: parts' =>
      let* question := _parse_single_question question_num question_text type_ranges in
      questions_loop parts' type_ranges
        (match question with Some q => questions ++ [q] | None => questions end)
  | _ => Ok questions
  end.

Definition _parse_questions (text : list N) : res (list ExamQuestion) :=
  let* type_ranges := _detect_question_type_ranges text in
  let main_text := main_text_of text in
  let parts := question_parts main_text in
  questions_loop (drop 1 parts) type_ranges [].
End ExamParser.

(** *** The answer appendix *)

(** One entry of the answer map: the inner dictionary with the keys
    ['answer'] and ['analysis']. *)
Record answer_info := {
  ai_answer : option (list N);
  ai_analysis : option (list N)
}.

(** [{}] *)
Definition empty_info : answer_info := {| ai_answer := None; ai_analysis := None |}.

(** The list [answer_markers]:
    [参考答案及解析], [参考答案], [答案及解析], [答案解析], [一、单项选择题.*?答案] *)
Definition answer_markers : list re :=
  [ lit "参考答案及解析"; lit "参考答案"; lit "答案及解析"; lit "答案解析";
    seq [lit "一、单项选择题"; lazy_star Dot; lit "答案"] ].

(** [一、\s*单项选择题.*?\n(.*?)(?=二、|三、|$)] *)
Definition single_region_re : re :=
  seq [lit "一、"; star Space; lit "单项选择题"; lazy_star Dot; Lit nl;
       Grp 1 (lazy_star Dot); Look true (alt [lit "二、"; lit "三、"; Eol])].

(** [二、\s*多项选择题.*?\n(.*?)(?=三、|$)] *)
Definition multi_region_re : re :=
  seq [lit "二、"; star Space; lit "多项选择题"; lazy_star Dot; Lit nl;
       Grp 1 (lazy_star Dot); Look true (alt [lit "三、"; Eol])].

(** [(\d+)\s+([A-E])\b] *)
Definition single_pair_re : re :=
  seq [Grp 1 (plus Digit); plus Space; Grp 2 (Cls false [rng "A" "E"]); WordB].

(** [(\d+)\s+([A-E]{2,})\b] *)
Definition multi_pair_re : re :=
  seq [Grp 1 (plus Digit); plus Space; Grp 2 (at_least 2 (Cls false [rng "A" "E"])); WordB].

(** [[A-E,，]+] *)
Definition letters_commas : re := plus (Cls false (rng "A" "E" :: oneof ",，")).

(** [[A-E]+] *)
Definition letters : re := plus (Cls false [rng "A" "E"]).

(** The list [patterns] of [_extract_answers_section], in its order:
    [(\d+)[.、．]\s*【答案】\s*([A-E,，]+)],
    [(\d+)[.、．]\s*答案[：:]\s*([A-E,，]+)],
    [(\d+)\s*参考答案[：:]\s*([A-E,，\s]+)],
    [【(\d+)】\s*答案[：:]\s*([A-E,，]+)],
    [(\d+)[.、．]\s*\[答案\]\s*([A-E,，]+)],
    [(?:^|\n)(\d+)\s+([A-E]+)(?=\s+\d+\s+[A-E]+|\s*\n)],
    [(\d+)[.、．]\s*([A-E]+)\s*(?:\n|【解析】)] *)
Definition answer_patterns : list re :=
  [ seq [Grp 1 (plus Digit); Cls false (oneof ".、．"); star Space; lit "【答案】";
         star Space; Grp 2 letters_commas];
    seq [Grp 1 (plus Digit); Cls false (oneof ".、．"); star Space; lit "答案";
         Cls false (oneof "：:"); star Space; Grp 2 letters_commas];
    seq [Grp 1 (plus Digit); star Space; lit "参考答案"; Cls false (oneof "：:"); star Space;
         Grp 2 (plus (Cls false (rng "A" "E" :: oneof ",，" ++ [CSpace])))];
    seq [lit "【"; Grp 1 (plus Digit); lit "】"; star Space; lit "答案";
         Cls false (oneof "：:"); star Space; Grp 2 letters_commas];
    seq [Grp 1 (plus Digit); Cls false (oneof ".、．"); star Space; lit "[答案]";
         star Space; Grp 2 letters_commas];
    seq [alt [Bol; Lit nl]; Grp 1 (plus Digit); plus Space; Grp 2 letters;
         Look true (alt [seq [plus Space; plus Digit; plus Space; letters];
                         seq [star Space; Lit nl]])];
    seq [Grp 1 (plus Digit); Cls false (oneof ".、．"); star Space; Grp 2 letters;
         star Space; alt [Lit nl; lit "【解析】"]] ].

(** The list [analysis_patterns]:
    [(\d+)[.、．]\s*【解析】(.*?)(?=\d+[.、．]|$)],
    [【解析】(.*?)(?=\d+[.、．]|【答案】|$)] *)
Definition analysis_patterns : list re :=
  [ seq [Grp 1 (plus Digit); Cls false (oneof ".、．"); star Space; lit "【解析】";
         Grp 2 (lazy_star Dot);
         Look true (alt [seq [plus Digit; Cls false (oneof ".、．")]; Eol])];
    seq [lit "【解析】"; Grp 1 (lazy_star Dot);
         Look true (alt [seq [plus Digit; Cls false (oneof ".、．")]; lit "【答案】"; Eol])] ].

(** [\s+] *)
Definition blanks : re := plus Space.

Section AnswerSection.
Context `{Unicode}.

(** [answers[num]['answer'] = answer] *)
Definition store_answer (num : Z) (answer : list N) (answers : gmap Z answer_info)
  : res (gmap Z answer_info) :=
  let* info := need KeyError (answers !! num) in
  Ok (<[num := {| ai_answer := Some answer; ai_analysis := ai_analysis info |}]> answers).

(** [answers[num]['analysis'] = analysis] *)
Definition store_analysis (num : Z) (analysis : list N) (answers : gmap Z answer_info)
  : res (gmap Z answer_info) :=
  let* info := need KeyError (answers !! num) in
  Ok (<[num := {| ai_answer := ai_answer info; ai_analysis := Some analysis |}]> answers).

(** [if num not in answers: answers[num] = {}; total_found += 1] followed by
    [answers[num]['answer'] = answer], on the pair (answers, total_found). *)
Definition record_answer (num : Z) (answer : list N) (st : gmap Z answer_info * nat)
  : res (gmap Z answer_info * nat) :=
  let '(answers, total_found) := st in
  let '(answers, total_found) :=
    match answers !! num with
    | None => (<[num := empty_info]> answers, S total_found)
    | Some _ => (answers, total_found)
    end in
  let* answers := store_answer num answer answers in
  Ok (answers, total_found).

(** [answers[num].get('answer') and len(answers[num]['answer']) == 1] *)
Definition one_letter (info : answer_info) : bool :=
  match ai_answer info with
  | Some [_] => true
  | _ => false
  end.

(** The loop computing [max_single] over [answers.keys()]. *)
Definition max_single (answers : gmap Z answer_info) : Z :=
  map_fold (λ num info acc, if one_letter info then Z.max acc num else acc) 0%Z answers.

(** The (number, letters) pairs of one sub-region: the region is group 1 of
    [region_re], the pairs are what [re.findall(pair_re, ...)] gives in it;
    no region, no pairs. *)
Definition region_pairs (region_re pair_re : re) (answer_section : list N)
  : res (list (list N * list N)) :=
  match search dotall region_re answer_section with
  | Some region_match =>
      let* region_text := need TypeError (group region_match 1) in
      Ok (findall2 no_flags pair_re region_text)
  | None => Ok []
  end.

(** The single-choice half of [_try_extract_spaced_answers]. *)
Definition single_pass (answer_section : list N) (st : gmap Z answer_info * nat)
  : res (gmap Z answer_info * nat) :=
  let* matches := region_pairs single_region_re single_pair_re answer_section in
  for_each matches
    (λ '(num_str, answer) st, let* num := int num_str in record_answer num answer st)
    st.

(** The multi-choice half: the numbers are shifted by [max_single], computed
    once from the answers present when the half starts. *)
Definition multi_pass (answer_section : list N) (st : gmap Z answer_info * nat)
  : res (gmap Z answer_info * nat) :=
  let* matches := region_pairs multi_region_re multi_pair_re answer_section in
  let max_single := max_single (fst st) in
  for_each matches
    (λ '(num_str, answer) st,
       let* num := int num_str in
       let actual_num := (max_single + num)%Z in
       record_answer actual_num answer st)
    st.

(** [_try_extract_spaced_answers]: the updated [answers] and the returned
    boolean. *)
Definition _try_extract_spaced_answers (answer_section : list N)
    (answers : gmap Z answer_info) : res (gmap Z answer_info * bool) :=
  let total_found := 0 in
  let* st := single_pass answer_section (answers, total_found) in
  let* (answers, total_found) := multi_pass answer_section st in
  Ok (answers, bool_decide (0 < total_found)).

(** The text from the first matching marker on, [[]] when no marker matches. *)
Definition marked_section (text : list N) : list N :=
  match first_match no_flags answer_markers text with
  | Some m => drop (m_start m) text
  | None => []
  end.

(** Step 1 of [_extract_answers_section]: the answer region. *)
Definition answer_region (text : list N) : list N :=
  match marked_section text with
  | [] =>
      let split_point := (length text * 3) `div` 5 in
      drop split_point text
  | answer_section => answer_section
  end.

(** The cleaning of a captured answer: commas, blanks and line feeds
    removed, then only the letters A to E kept. *)
Definition clean_answer (answer : list N) : list N :=
  let answer := replace_char (ch ",") [] answer in
  let answer := replace_char (ch "，") [] answer in
  let answer := replace_char (ch " ") [] answer in
  let answer := replace_char nl [] answer in
  filter (λ c, c ∈ utf8 "ABCDE") answer.

(** The body of the loop over the matches of one answer pattern. *)
Definition answer_step (m : rmatch) (st : gmap Z answer_info * nat)
  : res (gmap Z answer_info * nat) :=
  let '(answers, total_found) := st in
  let* g1 := need TypeError (group m 1) in
  let* num := int g1 in
  let* g2 := need AttributeError (group m 2) in
  let answer := clean_answer (strip g2) in
  let '(answers, total_found) :=
    match answers !! num, answer with
    | None, _ :: _ => (<[num := empty_info]> answers, S total_found)
    | _, _ => (answers, total_found)
    end in
  match answer with
  | _ :: _ => let* answers := store_answer num answer answers in Ok (answers, total_found)
  | [] => Ok (answers, total_found)
  end.

(** The body of the loop over the matches of one analysis pattern. *)
Definition analysis_step (pattern : re) (m : rmatch) (answers : gmap Z answer_info)
  : res (gmap Z answer_info) :=
  if (ngroups pattern =? 2)%nat then
    let* g1 := need TypeError (group m 1) in
    let* num := int g1 in
    let* g2 := need AttributeError (group m 2) in
    let analysis := strip g2 in
    match answers !! num with
    | Some _ =>
        let analysis := sub no_flags blanks (utf8 " ") analysis in
        store_analysis num (take 500 analysis) answers
    | None => Ok answers
    end
  else Ok answers.

(** The two loops that follow the spaced layout: every answer pattern in
    turn, then every analysis pattern. *)
Definition pattern_cascade (answer_section : list N) (answers : gmap Z answer_info)
  : res (gmap Z answer_info) :=
  let* (answers, _) :=
    for_each answer_patterns
      (λ pattern st, for_each (finditer multiline pattern answer_section) answer_step st)
      (answers, 0) in
  for_each analysis_patterns
    (λ pattern answers,
       for_each (finditer multiline_dotall pattern answer_section)
         (analysis_step pattern) answers)
    answers.

Definition _extract_answers_section (text : list N) : res (gmap Z answer_info) :=
  let answers := ∅ in
  let answer_section := answer_region text in
  let* (answers, found) := _try_extract_spaced_answers answer_section answers in
  if found then Ok answers
  else pattern_cascade answer_section answers.

(** [_parse_questions_with_separate_answers]: the questions, then the
    appendix answers attached by number. *)
Definition attach_answer (answers_dict : gmap Z answer_info) (q : ExamQuestion)
  : ExamQuestion :=
  match q_number q with
  | Some n =>
      match answers_dict !! n with
      | Some answer_info =>
          {| q_number := q_number q; q_type := q_type q; q_question := q_question q;
             q_options := q_options q; q_answer := ai_answer answer_info;
             q_analysis := ai_analysis answer_info;
             q_knowledge_points := q_knowledge_points q;
             q_difficulty := q_difficulty q |}
      | None => q
      end
  | None => q
  end.

Definition _parse_questions_with_separate_answers (text : list N)
  : res (list ExamQuestion) :=
  let* questions := _parse_questions text in
  let* answers_dict := _extract_answers_section text in
  Ok (map (attach_answer answers_dict) questions).
End AnswerSection.

(** ** case_parser.py *)

Record SubQuestion := {
  sub_number : Z;
  sq_question : list N;
  sq_answer : option (list N);
  sq_analysis : option (list N)
}.

Record CaseStudy := {
  case_number : Z;
  year : Z;
  subject : list N;
  title : list N;
  background : list N;
  sub_questions : list SubQuestion;
  score : option Z
}.

(** [self.chinese_to_arabic] *)
Definition chinese_to_arabic : list (list N * Z) :=
  [ (utf8 "一", 1); (utf8 "二", 2); (utf8 "三", 3); (utf8 "四", 4); (utf8 "五", 5);
    (utf8 "六", 6); (utf8 "七", 7); (utf8 "八", 8); (utf8 "九", 9); (utf8 "十", 10) ]%Z.

(** [[一二三四五六七八九十]] *)
Definition numeral : re := Cls false (oneof "一二三四五六七八九十").

(** [三、\s*(?:实务操作和)?案例.*?题.*?(?=参考答案|$)] *)
Definition case_study_section_re : re :=
  seq [lit "三、"; star Space; opt (lit "实务操作和"); lit "案例"; lazy_star Dot; lit "题";
       lazy_star Dot; Look true (alt [lit "参考答案"; Eol])].

(** [参考答案|答案.*?解析|【答案】] *)
Definition case_answer_start_re : re :=
  alt [lit "参考答案"; seq [lit "答案"; lazy_star Dot; lit "解析"]; lit "【答案】"].

(** [案例[（(]?([一二三四五六七八九十])[）)]?] *)
Definition case_pattern1 : re :=
  seq [lit "案例"; opt (Cls false (oneof "（(")); Grp 1 numeral; opt (Cls false (oneof "）)"))].

(** [\s*\n|背景] *)
Definition marker_lookahead_re : re := alt [seq [star Space; Lit nl]; lit "背景"].

(** [\n[（(]([一二三四五六七八九十])[）)]\s*\n(?:背景资料|问题)] *)
Definition case_pattern2 : re :=
  seq [Lit nl; Cls false (oneof "（("); Grp 1 numeral; Cls false (oneof "）)"); star Space;
       Lit nl; alt [lit "背景资料"; lit "问题"]].

(** [【案例([一二三四五六七八九十])】] *)
Definition case_pattern3 : re := seq [lit "【案例"; Grp 1 numeral; lit "】"].

(** [\n[（(]([一二三四五六七八九十])[）)]\s*\n(?![、，])] *)
Definition case_pattern4 : re :=
  seq [Lit nl; Cls false (oneof "（("); Grp 1 numeral; Cls false (oneof "）)"); star Space;
       Lit nl; Look false (Cls false (oneof "、，"))].

(** [[（(]([一二三四五六七八九十、]+)[）)].*?各?\s*(\d+)\s*分] *)
Definition score_pattern : re :=
  seq [Cls false (oneof "（("); Grp 1 (plus (Cls false (oneof "一二三四五六七八九十、")));
       Cls false (oneof "）)"); lazy_star Dot; opt (lit "各"); star Space;
       Grp 2 (plus Digit); star Space; lit "分"].

(** [问\s*题] *)
Definition problem_re : re := seq [lit "问"; star Space; lit "题"].

(** [背景资料[：:]\s*(.*?)(?=问\s*题|$)] *)
Definition background_re : re :=
  seq [lit "背景资料"; Cls false (oneof "：:"); star Space; Grp 1 (lazy_star Dot);
       Look true (alt [problem_re; Eol])].

(** [\d+[.、．]] *)
Definition numbered_re : re := seq [plus Digit; Cls false (oneof ".、．")].

(** [问\s*题[：:]?\s*(.*?)$] *)
Definition problem_section_re : re :=
  seq [lit "问"; star Space; lit "题"; opt (Cls false (oneof "：:")); star Space;
       Grp 1 (lazy_star Dot); Eol].

(** [[^\n]+] *)
Definition line_text : re := plus (Cls true [One nl]).

(** "(\d+)[.、．]\s*([^\n]+(?:\n(?!\d+[.、．])[^\n]+)*" ")" *)
Definition sub_pattern1 : re :=
  seq [Grp 1 (plus Digit); Cls false (oneof ".、．"); star Space;
       Grp 2 (seq [line_text; star (seq [Lit nl; Look false numbered_re; line_text])])].

(** "(\d+)\s*([^\n]+(?:\n(?!\d+\s*[^\n])[^\n]+)*" ")" *)
Definition sub_pattern2 : re :=
  seq [Grp 1 (plus Digit); star Space;
       Grp 2 (seq [line_text;
                   star (seq [Lit nl;
                              Look false (seq [plus Digit; star Space; Cls true [One nl]]);
                              line_text])])].

Section CaseParser.
Context `{Unicode}.

(** The loop of [_extract_score_info] over the numerals of one statement:
    [num = self.chinese_to_arabic.get(cn); if num: score_info[num] = score_val]. *)
Definition score_numerals (score_val : Z) (case_nums : list (list N))
    (score_info : gmap Z Z) : gmap Z Z :=
  foldl (λ score_info cn,
           match od_get cn chinese_to_arabic with
           | Some num => if (num =? 0)%Z then score_info else <[num := score_val]> score_info
           | None => score_info
           end) score_info case_nums.

Definition _extract_score_info (case_section : list N) : res (gmap Z Z) :=
  for_each (findall2 no_flags score_pattern case_section)
    (λ '(case_nums_str, score) score_info,
       let* score_val := int score in
       let case_nums := findall0 no_flags numeral case_nums_str in
       Ok (score_numerals score_val case_nums score_info))
    ∅.

(** Method 3 of [_extract_background]: the lines before the first one that
    starts, once stripped, with a number and a separator. *)
Fixpoint leading_lines (lines : list (list N)) : list (list N) :=
  match lines with
  | [] => []
  | line :: lines' =>
      match match_ no_flags numbered_re (strip line) with
      | Some _ => []
      | None => line :: leading_lines lines'
      end
  end.

(** The three methods of [_extract_background], each on its own. *)
Definition background_labelled (case_content : list N) : option rmatch :=
  search dotall background_re case_content.

Definition background_before_problem (case_content : list N) : option (list N) :=
  match search no_flags problem_re case_content with
  | Some problem_match => Some (strip (take (m_start problem_match) case_content))
  | None => None
  end.

Definition background_leading (case_content : list N) : list N :=
  strip (join_lines (leading_lines (split_lines case_content))).

Definition _extract_background (case_content : list N) : res (option (list N)) :=
  match background_labelled case_content with
  | Some background_match =>
      let* g := need AttributeError (group background_match 1) in
      Ok (Some (strip g))
  | None =>
      let by_problem :=
        match background_before_problem case_content with
        | Some background => if bool_decide (50 < length background) then Some background else None
        | None => None
        end in
      match by_problem with
      | Some background => Ok (Some background)
      | None =>
          let background := background_leading case_content in
          Ok (if bool_decide (50 < length background) then Some background else None)
      end
  end.

(** The loop of [_extract_sub_questions] over the (number, text) pairs. *)
Definition sub_question_step (p : list N * list N) (sub_questions : list SubQuestion)
  : res (list SubQuestion) :=
  let '(sub_num_str, sub_text) := p in
  let* sub_num := int sub_num_str in
  let question_text := strip sub_text in
  let question_text := sub no_flags blanks (utf8 " ") question_text in
  if bool_decide (5 < length question_text) then
    Ok (sub_questions ++ [{| sub_number := sub_num; sq_question := question_text;
                             sq_answer := None; sq_analysis := None |}])
  else Ok sub_questions.

Definition _extract_sub_questions (case_content : list N) : res (list SubQuestion) :=
  let* problem_section :=
    match search dotall problem_section_re case_content with
    | None => Ok case_content
    | Some problem_match => need TypeError (group problem_match 1)
    end in
  let sub_matches := findall2 no_flags sub_pattern1 problem_section in
  let sub_matches :=
    match sub_matches with
    | [] => findall2 no_flags sub_pattern2 problem_section
    | _ => sub_matches
    end in
  for_each sub_matches sub_question_step [].

(** [str(x)] of a string or [None], as an f-string formats it. *)
Definition fmt (o : option (list N)) : list N := default (utf8 "None") o.

Definition _parse_single_case (case_num : Z) (case_num_chinese : option (list N))
    (case_content : list N) (year : Z) (subject : list N) (score : option Z)
  : res (option CaseStudy) :=
  let* background := _extract_background case_content in
  match background with
  | None | Some [] => Ok None
  | Some background =>
      let* sub_questions := _extract_sub_questions case_content in
      match sub_questions with
      | [] => Ok None
      | _ =>
          Ok (Some {| case_number := case_num; year := year; subject := subject;
                      title := utf8 "案例（" ++ fmt case_num_chinese ++ utf8 "）";
                      background := background; sub_questions := sub_questions;
                      score := score |})
      end
  end.

(** The look-ahead filter on a [case_pattern1] match: the 20 characters after
    it must begin like [marker_lookahead_re]. *)
Definition marker_confirmed (case_section : list N) (m : rmatch) : bool :=
  let next_chars := slice case_section (m_end m) (m_end m + 20) in
  bool_decide (is_Some (match_ no_flags marker_lookahead_re next_chars)).

(** The case markers of a case section: the cascade of the four formats. *)
Definition case_markers (case_section : list N) : list rmatch :=
  let case_matches := finditer no_flags case_pattern1 case_section in
  let filtered_matches := filter (λ m, marker_confirmed case_section m) case_matches in
  let case_matches :=
    match filtered_matches with [] => case_matches | _ => filtered_matches end in
  let case_matches :=
    match case_matches with [] => finditer no_flags case_pattern2 case_section | _ => case_matches end in
  let case_matches :=
    match case_matches with [] => finditer no_flags case_pattern3 case_section | _ => case_matches end in
  match case_matches with [] => finditer no_flags case_pattern4 case_section | _ => case_matches end.

(** The case section with its answer part removed. *)
Definition case_questions_part (case_section : list N) : list N :=
  match search no_flags case_answer_start_re case_section with
  | Some answer_start => take (m_start answer_start) case_section
  | None => case_section
  end.

(** [for i, match in enumerate(case_matches)], [i] being the index. *)
Fixpoint cases_loop (case_section : list N) (year : Z) (subject : list N)
    (score_info : gmap Z Z) (i : Z) (ms : list rmatch) (case_studies : list CaseStudy)
  : res (list CaseStudy) :=
  match ms with
  | [] => Ok case_studies
  | m :: ms' =>
      let case_num_chinese := group m 1 in
      let case_num :=
        default (i + 1)%Z (case_num_chinese ≫= λ k, od_get k chinese_to_arabic) in
      let start := m_end m in
      let end_ := match ms' with m' :: _ => m_start m' | [] => length case_section end in
      let case_content := slice case_section start end_ in
      if bool_decide (length (strip case_content) < 50) then
        cases_loop case_section year subject score_info (i + 1)%Z ms' case_studies
      else
        let* case_study :=
          _parse_single_case case_num case_num_chinese case_content year subject
            (score_info !! case_num) in
        cases_loop case_section year subject score_info (i + 1)%Z ms'
          (match case_study with Some c => case_studies ++ [c] | None => case_studies end)
  end.

Definition _parse_case_studies (text : list N) (year : Z) (subject : list N)
  : res (list CaseStudy) :=
  match search dotall case_study_section_re text with
  | None => Ok []
  | Some case_section_match =>
      let case_section := case_questions_part (m_text case_section_match) in
      let* score_info := _extract_score_info case_section in
      cases_loop case_section year subject score_info 0 (case_markers case_section) []
  end.
End CaseParser.

(** Character tables for the scripts of the exam papers: ASCII, the CJK
    ideographs and punctuation, the full-width forms. *)
Definition exam_decimal (c : N) : option N :=
  if (48 <=? c)%N && (c <=? 57)%N then Some (c - 48)%N
  else if (65296 <=? c)%N && (c <=? 65305)%N then Some (c - 65296)%N
  else None.

Definition exam_isspace (c : N) : bool :=
  (9 <=? c)%N && (c <=? 13)%N || (28 <=? c)%N && (c <=? 32)%N
  || bool_decide (c ∈ [133; 160; 5760; 8232; 8233; 8239; 8287; 12288]%N)
  || (8192 <=? c)%N && (c <=? 8202)%N.

Definition exam_isalnum (c : N) : bool :=
  (48 <=? c)%N && (c <=? 57)%N || (65 <=? c)%N && (c <=? 90)%N
  || (97 <=? c)%N && (c <=? 122)%N
  || (19968 <=? c)%N && (c <=? 40959)%N
  || (65296 <=? c)%N && (c <=? 65305)%N
  || (65313 <=? c)%N && (c <=? 65338)%N || (65345 <=? c)%N && (c <=? 65370)%N.

Definition exam_unicode : Unicode :=
  {| uni_decimal := exam_decimal; uni_isspace := exam_isspace; uni_isalnum := exam_isalnum |}.



(** ** The answer map, declaratively *)

(** The letters stored for question [n]. *)
Definition letters_of (n : Z) (answers : gmap Z answer_info) : option (list N) :=
  answers !! n ≫= ai_answer.

(** The letters of the last entry numbered [n] in a list of (number, letters)
    entries. *)
Definition last_capture (n : Z) (entries : list (Z * list N)) : option (list N) :=
  snd <$> last (filter (λ e, e.1 = n) entries).

(** [answers[num]['answer'] = answer], the entry being created when absent. *)
Definition put_answer (num : Z) (answer : list N) (answers : gmap Z answer_info)
  : gmap Z answer_info :=
  <[num := {| ai_answer := Some answer; ai_analysis := answers !! num ≫= ai_analysis |}]>
    answers.

(** The entries stored one after the other. *)
Definition absorb (entries : list (Z * list N)) (answers : gmap Z answer_info)
  : gmap Z answer_info :=
  foldl (λ a e, put_answer e.1 e.2 a) answers entries.

(** Two answer maps with the same numbers and the same letters. *)
Definition same_answers (a a' : gmap Z answer_info) : Prop :=
  dom a' = dom a ∧ ∀ n, letters_of n a' = letters_of n a.

(** The number a captured string stands for (0 when [int] does not convert
    it). *)
Definition number_of `{Unicode} (s : list N) : Z :=
  match int s with
  | Ok n => n
  | Raise _ => 0%Z
  end.

(** The (number, letters) pair that a match of an answer pattern captures,
    the letters cleaned. *)
Definition capture_of `{Unicode} (m : rmatch) : Z * list N :=
  (number_of (default [] (group m 1)), clean_answer (strip (default [] (group m 2)))).

(** All the captures of the answer patterns in a region with letters left
    after cleaning: pattern after pattern in the order of the list, and for
    each pattern match after match. *)
Definition cascade_captures `{Unicode} (answer_section : list N) : list (Z * list N) :=
  filter (λ e, e.2 ≠ [])
    (flat_map (λ pattern, capture_of <$> finditer multiline pattern answer_section)
       answer_patterns).

(** ** Documents used as examples *)

(** The two-question document of the concrete scenario. *)
Definition two_questions : list N :=
  unlines ["1.What is X?"; "A. a"; "B. b"; "答案:B"; "2.What is Y?"; "A. c"; "B. d"; "答案:A"].

(** The same layout with five questions. *)
Definition five_questions : list N :=
  unlines ["1.What is X?"; "A. a"; "B. b"; "答案:B"; "2.What is Y?"; "A. c"; "B. d"; "答案:A";
           "3.What is Z?"; "A. e"; "B. f"; "答案:A"; "4.What is U?"; "A. g"; "B. h"; "答案:B";
           "5.What is V?"; "A. i"; "B. j"; "答案:A"].


(** A text without any answer marker. *)
Definition no_marker_text : list N := utf8 "abcdefghij".

(** A case paper whose only case label is followed by running text. *)
Definition unconfirmed_case_paper : list N :=
  unlines ["三、案例分析题（共5题）";
           "案例一 某机电安装公司承建一栋高层建筑的机电安装工程，合同约定的工期为十二个月，开工后因为设计变更导致现场停工两个月。";
           "问题";
           "1. 请指出该工程施工中的主要问题并说明理由。";
           "2. 安装公司应当如何处理该质量事故并说明依据。"].

(** A case section with a case label inside a sentence and a real case
    heading. *)
Definition mixed_case_section : list N :=
  unlines ["三、案例分析题"; "本大题的评分参照案例一的评分办法。"; "案例二"; "背景资料：某工程"].

(** The match of [case_pattern1] on the label inside the sentence of
    [mixed_case_section], and the one on its heading. *)
Definition label_in_sentence : rmatch :=
  {| m_start := 16; m_end := 19; m_text := utf8 "案例一"; m_caps := [(1, utf8 "一")] |}.

Definition label_as_heading : rmatch :=
  {| m_start := 26; m_end := 29; m_text := utf8 "案例二"; m_caps := [(1, utf8 "二")] |}.

(** A case span with a labelled background of nine characters. *)
Definition short_background_case : list N :=
  unlines ["背景资料：甲公司承建某工程。";
           "问题";
           "1. 请指出该工程施工中的主要问题并说明理由。";
           "2. 甲公司应当如何处理该质量事故并说明依据是什么。"].

(** A paper whose case section holds that span. *)
Definition short_background_paper : list N :=
  unlines ["三、案例分析题"; "案例一"] ++ [nl] ++ short_background_case.

(** The first two questions that the concrete scenario expects. *)
Definition expected_q1 : ExamQuestion :=
  {| q_number := Some 1%Z; q_type := Some SingleChoice; q_question := Some (utf8 "What is X?");
     q_options := [(utf8 "A", utf8 "a"); (utf8 "B", utf8 "b")]; q_answer := Some (utf8 "B");
     q_analysis := None; q_knowledge_points := []; q_difficulty := None |}.

Definition expected_q2 : ExamQuestion :=
  {| q_number := Some 2%Z; q_type := Some SingleChoice; q_question := Some (utf8 "What is Y?");
     q_options := [(utf8 "A", utf8 "c"); (utf8 "B", utf8 "d")]; q_answer := Some (utf8 "A");
     q_analysis := None; q_knowledge_points := []; q_difficulty := None |}.

(** An appendix in the spaced layout: 20 single-choice answers numbered 1 to
    20, then 10 multi-choice answers numbered 1 to 10. *)
Definition spaced_appendix : list N :=
  unlines ["参考答案";
           "一、单项选择题(共20题，每题1分)";
           "1 D 2 B 3 A 4 D 5 C"; "6 A 7 A 8 C 9 C 10 B";
           "11 D 12 B 13 A 14 D 15 C"; "16 A 17 A 18 C 19 C 20 B";
           "二、多项选择题(共10题，每题2分)";
           "1 ABCE 2 ACE 3 ABCD 4 AB 5 CD"; "6 BCE 7 ADE 8 ABD 9 AC 10 DE"].

(** An appendix where two answer patterns capture question 1. *)
Definition twice_answered : list N :=
  unlines ["参考答案"; "1.【答案】A"; "1. 答案：B"; "2.C"; "3.【答案】D"].

(** A text in which no answer pattern matches. *)
Definition no_answer_text : list N := utf8 "hello world".

(** The segmentation rule in the words of the specification: the punctuated
    recognizer when it matches 10 times or more, the fallback otherwise. *)
Definition segmentation_as_specified `{Unicode} (main_text : list N)
  : list (option (list N)) :=
  if (10 <=? length (finditer no_flags question_pattern main_text))%nat
  then split no_flags question_pattern main_text
  else split no_flags question_pattern_nopunct main_text.

(** The fallback answer region in the words of the specification: the last
    three-fifths of the text. *)
Definition last_three_fifths (text : list N) : list N :=
  drop (length text - (length text * 3) `div` 5) text.

(** [start <= n <= end] for an entry of the type ranges. *)
Definition covers (n : Z) (entry : qtype * (Z * Z)) : bool :=
  (entry.2.1 <=? n)%Z && (n <=? entry.2.2)%Z.

(** ** Shapes of groups *)

#[global] Instance citem_eq_dec : EqDecision citem.
Proof. solve_decision. Defined.

#[global] Instance re_eq_dec : EqDecision re.
Proof. solve_decision. Defined.

(** The test a one-character pattern makes on the character it consumes. *)
Definition unit_pred `{Unicode} (fl : flags) (u : re) : option (N → bool) :=
  match u with
  | Lit c => Some (λ d, (d =? c)%N)
  | Cls neg items => Some (in_class neg items)
  | Dot => Some (dot_ok fl)
  | Digit => Some is_digit
  | Space => Some uni_isspace
  | _ => None
  end.

(** [a] is [u] or [u] repeated at least once. *)
Definition run_of (u a : re) : bool :=
  bool_decide (a = u) ||
  match a with
  | Rep _ (S _) _ b => bool_decide (b = u)
  | _ => false
  end.

(** [group_shape g shape r]: wherever group [g] occurs in [r], its body
    satisfies [shape]. *)
Fixpoint group_shape (g : nat) (shape : re → bool) (r : re) : bool :=
  match r with
  | Seq a b | Alt a b => group_shape g shape a && group_shape g shape b
  | Rep _ _ _ a | Look _ a => group_shape g shape a
  | Grp n a => if (n =? g)%nat then shape a else group_shape g shape a
  | _ => true
  end.

(** ** What the parsers guarantee of their results *)

(** A non-empty string of the letters A to E. *)
Definition letters_A_E (s : list N) : Prop :=
  s ≠ [] ∧ Forall (λ c, c ∈ utf8 "ABCDE") s.

(** One of the letters A to E. *)
Definition option_key (k : list N) : Prop := ∃ c, k = [c] ∧ c ∈ utf8 "ABCDE".

(** [q] and [q'] differ at most by their answer and analysis. *)
Definition same_question (q q' : ExamQuestion) : Prop :=
  q_number q' = q_number q ∧ q_type q' = q_type q ∧ q_question q' = q_question q ∧
  q_options q' = q_options q ∧ q_knowledge_points q' = q_knowledge_points q ∧
  q_difficulty q' = q_difficulty q.

(** What holds of every question that [_parse_single_question] returns. *)
Definition well_formed_question (q : ExamQuestion) : Prop :=
  (∃ n, q_number q = Some n ∧ (0 ≤ n)%Z) ∧ is_Some (q_type q) ∧
  (∃ c s, q_question q = Some (c :: s)) ∧
  Forall option_key (q_options q).*1 ∧ NoDup (q_options q).*1 ∧
  (∀ a, q_answer q = Some a → letters_A_E a) ∧
  q_knowledge_points q = [] ∧ q_difficulty q = None.

(** The type of [q] is the one of the first range that holds its number, when
    there is one. *)
Definition typed_by_range (type_ranges : list (qtype * (Z * Z))) (q : ExamQuestion) : Prop :=
  ∀ n t, q_number q = Some n → type_by_range n type_ranges = Some t → q_type q = Some t.

(** What holds of every entry of the answer map: a number that is not
    negative, letters A to E, an analysis of at most 500 characters. *)
Definition well_formed_answers (answers : gmap Z answer_info) : Prop :=
  ∀ n info, answers !! n = Some info →
    (0 ≤ n)%Z ∧ (∃ a, ai_answer info = Some a ∧ letters_A_E a) ∧
    (∀ an, ai_analysis info = Some an → length an ≤ 500).

(** How a question [q'] returned by the two-stage parser relates to the
    question [q] it comes from: the appendix entry of its number, when there is
    one, gives both answer and analysis. *)
Definition answered_from (answers : gmap Z answer_info) (q q' : ExamQuestion) : Prop :=
  same_question q q' ∧
  match q_number q ≫= λ n, answers !! n with
  | Some info => q_answer q' = ai_answer info ∧ q_analysis q' = ai_analysis info
  | None => q_answer q' = q_answer q ∧ q_analysis q' = q_analysis q
  end.

(** What holds of every sub-question that [_extract_sub_questions] returns. *)
Definition well_formed_sub (sq : SubQuestion) : Prop :=
  (0 ≤ sub_number sq)%Z ∧ 5 < length (sq_question sq) ∧
  sq_answer sq = None ∧ sq_analysis sq = None.

(** What holds of every case study that [_parse_case_studies] returns for
    [year] and [subject]. *)
Definition well_formed_case (y : Z) (subj : list N) (cs : CaseStudy) : Prop :=
  (1 ≤ case_number cs ≤ 10)%Z ∧ year cs = y ∧ subject cs = subj ∧
  (∃ c, od_get [c] chinese_to_arabic = Some (case_number cs) ∧
        title cs = utf8 "案例（" ++ [c] ++ utf8 "）") ∧
  background cs ≠ [] ∧ sub_questions cs ≠ [] ∧
  Forall well_formed_sub (sub_questions cs) ∧
  (∀ sc, score cs = Some sc → (0 ≤ sc)%Z).

(** The four formats of case markers, in the order they are tried. *)
Definition case_patterns : list re := [case_pattern1; case_pattern2; case_pattern3; case_pattern4].

(** ** The entry points *)

(** [ExamQuestion.answer], assigned. *)
Definition set_answer (s : list N) (q : ExamQuestion) : ExamQuestion :=
  {| q_number := q_number q; q_type := q_type q; q_question := q_question q;
     q_options := q_options q; q_answer := Some s; q_analysis := q_analysis q;
     q_knowledge_points := q_knowledge_points q; q_difficulty := q_difficulty q |}.

(** The two tables of [_parse_2010_jidian_with_image_answers]. *)
Definition single_choice_answers : list (Z * list N) := [].

Definition multi_choice_answers : list (Z * list N) :=
  [ (21, utf8 "BDE"); (22, utf8 "BCD"); (23, utf8 "BCE"); (24, utf8 "ACD"); (25, utf8 "BCE");
    (26, utf8 "ABC"); (27, utf8 "BCDE"); (28, utf8 "ACD"); (29, utf8 "BCD"); (30, utf8 "BDE") ]%Z.

(** [{**single_choice_answers, **multi_choice_answers}] *)
Definition all_answers : list (Z * list N) :=
  foldl (λ d kv, od_set kv.1 kv.2 d) single_choice_answers multi_choice_answers.

(** [if question.number in all_answers: question.answer = all_answers[question.number]] *)
Definition image_answer (q : ExamQuestion) : ExamQuestion :=
  match q_number q ≫= λ n, od_get n all_answers with
  | Some a => set_answer a q
  | None => q
  end.

(** [q.answer] as a condition: neither [None] nor the empty string. *)
Definition has_answer (q : ExamQuestion) : bool :=
  match q_answer q with
  | Some (_ :: _) => true
  | _ => false
  end.

(** [with_answer = sum(1 for q in questions if q.answer)] *)
Definition with_answer (questions : list ExamQuestion) : Z :=
  Z.of_nat (length (List.filter has_answer questions)).

(** [(with_answer * 100 // len(questions)) if questions else 0] *)
Definition answer_rate (questions : list ExamQuestion) : Z :=
  match questions with
  | [] => 0
  | _ => (with_answer questions * 100) / Z.of_nat (length questions)
  end%Z.

(** The text of a PDF as [ExamPDFParser.parse_pdf] collects it, from what
    [page.extract_text()] gives for each page, a string or [None]:
    [if text: full_text += text + "\n"]. *)
Definition full_text_of (pages : list (option (list N))) : list N :=
  foldl (λ full_text page,
           match page with
           | Some (c :: text) => full_text ++ (c :: text) ++ [nl]
           | _ => full_text
           end) [] pages.

Module ExamPDFParser.
Section ExamPDFParser.
Context `{Unicode}.

Definition _parse_2010_jidian_with_image_answers (text : list N) : res (list ExamQuestion) :=
  let* questions := _parse_questions text in
  Ok (map image_answer questions).

(** [parse_pdf]: [name] is [Path(pdf_path).name], and [pdf] what opening the
    file and extracting the text of its pages gives, the page texts or an
    exception.  Every exception is caught and answered by the empty list.
    The printed progress and statistics are left out. *)
Definition parse_pdf (name : list N) (pdf : res (list (option (list N))))
  : list ExamQuestion :=
  let attempt :=
    let* pages := pdf in
    let full_text := full_text_of pages in
    if contains (utf8 "2010年") name && contains (utf8 "机电") name then
      _parse_2010_jidian_with_image_answers full_text
    else if contains (utf8 "答案解析集中在最后") name || contains (utf8 "解析在最后") name then
      _parse_questions_with_separate_answers full_text
    else _parse_questions full_text in
  match attempt with
  | Ok questions => questions
  | Raise _ => []
  end.
End ExamPDFParser.
End ExamPDFParser.

Module CaseStudyParser.
(** [_extract_text]: [text += page.extract_text() + "\n"] for every page; a
    page for which [extract_text] gives [None] makes the sum a [TypeError]. *)
Definition _extract_text (pages : list (option (list N))) : res (list N) :=
  for_each pages
    (λ page text, let* page_text := need TypeError page in Ok (text ++ page_text ++ [nl]))
    [].

(** [parse_pdf], from the page texts of the opened file. *)
Definition parse_pdf `{Unicode} (pages : list (option (list N))) (year : Z)
    (subject : list N) : res (list CaseStudy) :=
  let* text := _extract_text pages in
  _parse_case_studies text year subject.
End CaseStudyParser.

(** The questions of a paper whose answers are in a table of images: those
    of [q], with the answer of the table when the number of [q] is in it. *)
Definition answered_by_table (q q' : ExamQuestion) : Prop :=
  same_question q q' ∧ q_analysis q' = q_analysis q ∧
  match q_number q ≫= λ n, od_get n multi_choice_answers with
  | Some a => q_answer q' = Some a
  | None => q_answer q' = q_answer q
  end.

(** The page texts that are there and not empty. *)
Definition page_texts (pages : list (option (list N))) : list (list N) :=
  List.filter (λ t, negb (bool_decide (t = []))) (omap id pages).

(** One segment of a paper: a stem, four options, an inline answer and an
    inline analysis. *)
Definition one_question_piece : list N :=
  utf8 "下列设备中，属于通用机械设备的是（ ）。
A. 压缩机
B. 锅炉
C. 电梯
D. 汽轮机
答案：A
解析：压缩机属于通用机械设备。".

(** ** Numbers that convert, results that are returned *)

(** [s] is a piece of [t]: consecutive characters of it. *)
Definition segment (s t : list N) : Prop := ∃ pre post, t = pre ++ s ++ post.

(** The length of the longest run of consecutive digits of a text, [cur]
    being the length of the run that ends where [s] starts and [best] the
    longest run seen before. *)
Fixpoint longest_digit_run_from `{Unicode} (cur best : nat) (s : list N) : nat :=
  match s with
  | [] => cur `max` best
  | c :: s' =>
      if is_digit c then longest_digit_run_from (S cur) best s'
      else longest_digit_run_from 0 (cur `max` best) s'
  end.

Definition longest_digit_run `{Unicode} (s : list N) : nat := longest_digit_run_from 0 0 s.

(** No number written in the text is too long for [int]. *)
Definition short_numbers `{Unicode} (s : list N) : Prop :=
  longest_digit_run s ≤ int_max_str_digits.

(** [returns H x P]: the computation [x] returns a value that satisfies [P],
    or raises the [ValueError] of a conversion, which does not happen
    under [H]. *)
Definition returns {A} (H : Prop) (x : res A) (P : A → Prop) : Prop :=
  match x with
  | Ok a => P a
  | Raise e => e = ValueError ∧ ¬ H
  end.

(** Every group of the match [m], group 0 included, is a piece of [t]. *)
Definition groups_within (t : list N) (m : rmatch) : Prop :=
  ∀ g s, group m g = Some s → segment s t.

(** The matcher state [st] is that of a match in [t]: the text left is the
    end of [t] and every capture is a piece of [t]. *)
Definition inside (t : list N) (st : mstate) : Prop :=
  (∃ pre, t = pre ++ rest st) ∧ ∀ g s, assoc g (caps st) = Some s → segment s t.

(** The count that a section header announces in a text, 0 without the
    header. *)
Definition announced `{Unicode} (header : re) (text : list N) : res Z :=
  match search no_flags header text with
  | Some m => declared_count m
  | None => Ok 0%Z
  end.

(** The range of a type when its header is found in the text, nothing
    otherwise. *)
Definition range_if_found `{Unicode} (header : re) (text : list N)
    (entry : qtype * (Z * Z)) : list (qtype * (Z * Z)) :=
  match search no_flags header text with
  | Some _ => [entry]
  | None => []
  end.

(** A document whose answer appendix gives question 1 a number of 4301
    digits. *)
Definition long_number : list N := repeat (ch "1") 4301.

Definition long_number_appendix : list N :=
  utf8 "参考答案" ++ [nl] ++ long_number ++ utf8 ".【答案】A".

(** * Properties *)

(** ** The matcher *)

Section MatcherFacts.
Context `{Unicode} (fl : flags).

Lemma res_bind_ok {A B} (x : res A) (f : A → res B) (b : B) :
  res_bind x f = Ok b → ∃ a, x = Ok a ∧ f a = Ok b.
Proof. destruct x as [a|e]; simpl; [eauto | discriminate]. Qed.

Lemma eat_reach p st k out :
  eat p st k = Some out → ∃ st', step p st st' ∧ k st' = Some out.
Proof.
  unfold eat, step. destruct (rest st) as [|c s] eqn:E; [discriminate|].
  destruct (p c) eqn:Ep; [|discriminate]. intros Hk.
  eexists. split; [|exact Hk]. eauto.
Qed.

Lemma rep_loop_reach (P : mstate → mstate → Prop) body greedy lo hi k :
  (∀ st k' out, body st k' = Some out → ∃ st', P st st' ∧ k' st' = Some out) →
  ∀ fuel cnt st out,
    rep_loop body greedy lo hi k fuel cnt st = Some out →
    ∃ n st', iter n P st st' ∧ lo ≤ cnt + n ∧ k st' = Some out.
Proof.
  intros Hbody. induction fuel as [|fuel IH]; intros cnt st out; simpl; [discriminate|].
  assert (Hmore : ∀ k',
    (∀ st1, k' st1 = Some out → rep_loop body greedy lo hi k fuel (S cnt) st1 = Some out) →
    body st k' = Some out → ∃ n st', iter n P st st' ∧ lo ≤ cnt + n ∧ k st' = Some out).
  { intros k' Hk' Hb. destruct (Hbody _ _ _ Hb) as (st1 & HP & Hk1).
    destruct (IH _ _ _ (Hk' _ Hk1)) as (n & st' & Hit & Hlo & Hk).
    exists (S n), st'. split; [simpl; eauto|]. split; [lia | done]. }
  assert (Hstop : (cnt <? lo)%nat = false → k st = Some out →
    ∃ n st', iter n P st st' ∧ lo ≤ cnt + n ∧ k st' = Some out).
  { intros Hc Hk. apply Nat.ltb_ge in Hc. exists 0, st. simpl. split; [done|]. split; [lia|done]. }
  destruct (cnt <? lo)%nat eqn:Hc.
  { apply Hmore. auto. }
  destruct (negb (below hi cnt)); [auto|].
  assert (Hagain : body st (λ st',
      if (pos st <? pos st')%nat then rep_loop body greedy lo hi k fuel (S cnt) st' else None)
      = Some out → ∃ n st', iter n P st st' ∧ lo ≤ cnt + n ∧ k st' = Some out).
  { apply Hmore. intros st1. destruct (pos st <? pos st1)%nat; [auto | discriminate]. }
  destruct greedy.
  - destruct (body st _) as [o|] eqn:Hb; [|auto].
    intros [= ->]. auto.
  - destruct (k st) as [o|] eqn:Hk; [|auto].
    intros [= ->]. auto.
Qed.

Lemma after_refl st : after st st.
Proof. by split. Qed.

Lemma after_trans st1 st2 st3 : after st1 st2 → after st2 st3 → after st1 st3.
Proof. unfold after. lia. Qed.

Lemma after_eat st c s :
  rest st = c :: s →
  after st {| pos := S (pos st); prev := Some c; rest := s; caps := caps st |}.
Proof. unfold after. simpl. intros ->. simpl. lia. Qed.

Lemma eat_ext p st k1 k2 :
  (∀ st', after st st' → k1 st' = k2 st') → eat p st k1 = eat p st k2.
Proof.
  intros Hk. unfold eat. destruct (rest st) as [|c s] eqn:E; [done|].
  destruct (p c); [|done]. by apply Hk, after_eat.
Qed.

Lemma rep_loop_ext body greedy lo hi :
  (∀ st k1 k2, (∀ st', after st st' → k1 st' = k2 st') → body st k1 = body st k2) →
  ∀ fuel cnt st k1 k2,
    (∀ st', after st st' → k1 st' = k2 st') →
    rep_loop body greedy lo hi k1 fuel cnt st = rep_loop body greedy lo hi k2 fuel cnt st.
Proof.
  intros Hbody. induction fuel as [|fuel IH]; intros cnt st k1 k2 Hk; simpl; [done|].
  assert (Hst : k1 st = k2 st) by apply Hk, after_refl.
  assert (Hnext : ∀ st', after st st' →
    rep_loop body greedy lo hi k1 fuel (S cnt) st' = rep_loop body greedy lo hi k2 fuel (S cnt) st').
  { intros st' Hafter. apply IH. intros st'' Hafter'. eapply Hk, after_trans; eauto. }
  destruct (cnt <? lo)%nat; [by apply Hbody|].
  destruct (negb (below hi cnt)); [done|].
  assert (Hagain :
    body st (λ st', if (pos st <? pos st')%nat
                    then rep_loop body greedy lo hi k1 fuel (S cnt) st' else None)
    = body st (λ st', if (pos st <? pos st')%nat
                      then rep_loop body greedy lo hi k2 fuel (S cnt) st' else None)).
  { apply Hbody. intros st' Hafter. destruct (pos st <? pos st')%nat; [auto | done]. }
  rewrite Hagain, Hst. done.
Qed.

(** More fuel than the iterations left changes nothing. *)
Lemma rep_loop_fuel body greedy lo hi k :
  (∀ st k1 k2, (∀ st', after st st' → k1 st' = k2 st') → body st k1 = body st k2) →
  ∀ fuel1 fuel2 cnt st,
    lo - cnt + length (rest st) < fuel1 → lo - cnt + length (rest st) < fuel2 →
    rep_loop body greedy lo hi k fuel1 cnt st = rep_loop body greedy lo hi k fuel2 cnt st.
Proof.
  intros Hbody. induction fuel1 as [|fuel1 IH]; intros fuel2 cnt st H1 H2; [lia|].
  destruct fuel2 as [|fuel2]; [lia|]. simpl.
  destruct (Nat.ltb_spec cnt lo) as [Hc|Hc].
  { apply Hbody. intros st' [Hpos Hlen]. apply IH; lia. }
  destruct (negb (below hi cnt)); [done|].
  assert (Hagain :
    body st (λ st', if (pos st <? pos st')%nat
                    then rep_loop body greedy lo hi k fuel1 (S cnt) st' else None)
    = body st (λ st', if (pos st <? pos st')%nat
                      then rep_loop body greedy lo hi k fuel2 (S cnt) st' else None)).
  { apply Hbody. intros st' [Hpos Hlen].
    destruct (Nat.ltb_spec (pos st) (pos st')); [|done]. apply IH; lia. }
  by rewrite Hagain.
Qed.

#[local] Arguments rep_loop : simpl never.

(** Soundness of the matcher: a success of [run] goes through a state that
    [reach] allows. *)
Lemma run_reach r :
  ∀ st k out, run fl r st k = Some out → ∃ st', reach fl r st st' ∧ k st' = Some out.
Proof.
  induction r as [| c | neg items | | | | | | | a IHa b IHb | a IHa b IHb
                  | greedy lo hi a IHa | n a IHa | positive a IHa];
    intros st k out; simpl; try (apply eat_reach).
  - eauto.
  - destruct (at_wordb st) eqn:E; [eauto | discriminate].
  - destruct (at_bol fl st) eqn:E; [eauto | discriminate].
  - destruct (at_eol fl st) eqn:E; [eauto | discriminate].
  - intros Hr. destruct (IHa _ _ _ Hr) as (mid & Ha & Hb).
    destruct (IHb _ _ _ Hb) as (st' & Hb' & Hk). eauto.
  - destruct (run fl a st k) as [o|] eqn:Ea.
    + intros [= ->]. destruct (IHa _ _ _ Ea) as (st' & ? & ?). eauto.
    + intros Hb. destruct (IHb _ _ _ Hb) as (st' & ? & ?). eauto.
  - intros Hr.
    destruct (rep_loop_reach (reach fl a) _ _ _ _ _ IHa _ _ _ _ Hr) as (n & st' & Hit & Hlo & Hk).
    exists st'. split; [|done]. exists n. split; [lia | done].
  - intros Hr. destruct (IHa _ _ _ Hr) as (mid & Ha & Hk). eauto.
  - destruct (run fl a st Some) as [mid|] eqn:Ea.
    + destruct positive; [|discriminate]. intros Hk.
      destruct (IHa _ _ _ Ea) as (mid' & Ha & [= ->]). eauto.
    + destruct positive; [discriminate|]. eauto.
Qed.

(** What the matcher does depends on its continuation only at the states
    further in the text. *)
Lemma run_ext r :
  ∀ st k1 k2, (∀ st', after st st' → k1 st' = k2 st') → run fl r st k1 = run fl r st k2.
Proof.
  induction r as [| c | neg items | | | | | | | a IHa b IHb | a IHa b IHb
                  | greedy lo hi a IHa | n a IHa | positive a IHa];
    intros st k1 k2 Hk; simpl; try (by apply eat_ext).
  - apply Hk, after_refl.
  - destruct (at_wordb st); [apply Hk, after_refl | done].
  - destruct (at_bol fl st); [apply Hk, after_refl | done].
  - destruct (at_eol fl st); [apply Hk, after_refl | done].
  - apply IHa. intros st' Hafter. apply IHb. intros st'' Hafter'.
    eapply Hk, after_trans; eauto.
  - by rewrite (IHa st k1 k2 Hk), (IHb st k1 k2 Hk).
  - by apply rep_loop_ext.
  - apply IHa. intros st' [Hpos Hlen]. apply Hk. by split.
  - destruct (run fl a st Some) as [st'|]; destruct positive; try done.
    + apply Hk. by split.
    + apply Hk, after_refl.
Qed.

(** The fuel given to a repetition is enough. *)
Lemma rep_fuel_enough greedy lo hi a st k fuel :
  lo + length (rest st) < fuel →
  rep_loop (run fl a) greedy lo hi k fuel 0 st = run fl (Rep greedy lo hi a) st k.
Proof.
  intros Hfuel. simpl. apply rep_loop_fuel; [apply run_ext | lia | lia].
Qed.

Lemma iter_preserves (Q : mstate → Prop) (P : mstate → mstate → Prop) n :
  (∀ st st', P st st' → Q st → Q st') →
  ∀ st st', iter n P st st' → Q st → Q st'.
Proof.
  intros HP. induction n as [|n IH]; simpl; intros st st'.
  - intros ->. done.
  - intros (mid & Hm & Hit) HQ. eauto.
Qed.

Lemma iter_step p n :
  ∀ st st', iter n (step p) st st' →
    ∃ ds, length ds = n ∧ Forall (λ c, p c = true) ds ∧ rest st = ds ++ rest st' ∧
          pos st' = pos st + n ∧ caps st' = caps st.
Proof.
  induction n as [|n IH]; simpl; intros st st'.
  - intros ->. exists []. split_and!; auto.
  - intros (mid & (c & s & Hrest & Hp & ->) & Hit).
    destruct (IH _ _ Hit) as (ds & Hlen & Hall & Hr & Hpos & Hcaps). simpl in *.
    exists (c :: ds). split_and!; simpl; auto.
    + by rewrite Hrest, Hr.
    + lia.
Qed.

Lemma step_caps p st st' : step p st st' → caps st' = caps st.
Proof. by intros (c & s & _ & _ & ->). Qed.

(** A group that is set stays set. *)
Lemma reach_keeps g r :
  ∀ st st', reach fl r st st' → is_Some (assoc g (caps st)) → is_Some (assoc g (caps st')).
Proof.
  induction r as [| c | neg items | | | | | | | a IHa b IHb | a IHa b IHb
                  | greedy lo hi a IHa | n a IHa | positive a IHa];
    intros st st'; simpl;
    try (intros Hs; by rewrite (step_caps _ _ _ Hs));
    try (by intros [_ ->]).
  - by intros ->.
  - intros (mid & Ha & Hb) Hg. eauto.
  - intros [Ha|Hb]; eauto.
  - intros (n & _ & Hit) Hg.
    eapply (iter_preserves (λ st, is_Some (assoc g (caps st)))); eauto.
  - intros (mid & Ha & ->) Hg. simpl. destruct (n =? g)%nat; eauto.
  - destruct positive.
    + intros (mid & Ha & ->) Hg. simpl. eauto.
    + by intros ->.
Qed.

(** A group that every match goes through is set at the end. *)
Lemma reach_sets g r :
  sets g r = true →
  ∀ st st', reach fl r st st' → is_Some (assoc g (caps st')).
Proof.
  induction r as [| c | neg items | | | | | | | a IHa b IHb | a IHa b IHb
                  | greedy lo hi a IHa | n a IHa | positive a IHa];
    simpl; try discriminate; intros Hs st st'.
  - intros (mid & Ha & Hb). apply orb_true_iff in Hs as [Hs|Hs].
    + eapply reach_keeps; eauto.
    + eauto.
  - apply andb_true_iff in Hs as [Hsa Hsb]. intros [Ha|Hb]; eauto.
  - apply andb_true_iff in Hs as [Hlo Hsa]. apply Nat.ltb_lt in Hlo.
    intros (n & Hn & Hit). destruct n as [|n]; [lia|].
    destruct Hit as (mid & Ha & Hit).
    eapply (iter_preserves (λ st, is_Some (assoc g (caps st)))); eauto using reach_keeps.
  - intros (mid & Ha & ->). simpl. destruct (n =? g)%nat eqn:E; [eauto|].
    simpl in Hs. eauto.
  - destruct positive; [|discriminate]. simpl in Hs.
    intros (mid & Ha & ->). simpl. eauto.
Qed.

Lemma reach_digits r :
  digit_groups r = true →
  ∀ st st', reach fl r st st' → digit_caps (caps st) → digit_caps (caps st').
Proof.
  induction r as [| c | neg items | | | | | | | a IHa b IHb | a IHa b IHb
                  | greedy lo hi a IHa | n a IHa | positive a IHa];
    simpl; intros Hd st st';
    try (intros Hs; by rewrite (step_caps _ _ _ Hs));
    try (by intros [_ ->]).
  - by intros ->.
  - apply andb_true_iff in Hd as [Hda Hdb]. intros (mid & Ha & Hb) Hg. eauto.
  - apply andb_true_iff in Hd as [Hda Hdb]. intros [Ha|Hb]; eauto.
  - intros (n & _ & Hit) Hg.
    eapply (iter_preserves (λ st, digit_caps (caps st))); eauto.
  - intros (mid & Ha & ->) Hg s. simpl. destruct (n =? 1)%nat eqn:E;
      [|intros Hs; exact (IHa Hd st mid Ha Hg s Hs)].
    intros [= <-].
    destruct a as [| | | | | | | | | | | g' [|lo'] hi' [] | |]; try discriminate.
    simpl in Ha. destruct Ha as (k & Hk & Hit).
    destruct (iter_step _ _ _ _ Hit) as (ds & Hlen & Hall & Hr & Hpos & _).
    rewrite Hr, Hpos.
    replace (pos st + k - pos st) with (length ds) by lia.
    rewrite take_app_length. split; [|done].
    destruct ds; simpl in *; [lia | done].
  - destruct positive.
    + intros (mid & Ha & ->) Hg. simpl. eauto.
    + by intros ->.
Qed.

Lemma digits_value_numeric s :
  Forall (λ c, is_digit c = true) s →
  ∀ acc, (0 ≤ acc)%Z → ∃ n, digits_value acc s = Some n ∧ (0 ≤ n)%Z.
Proof.
  induction 1 as [|c s Hc _ IH]; intros acc Hacc; simpl; [eauto|].
  unfold is_digit in Hc. apply bool_decide_eq_true in Hc as [d Hd]. rewrite Hd.
  apply IH. lia.
Qed.

(** [int] succeeds on a numeric string within the limit, with a natural
    number. *)
Lemma int_numeric s :
  numeric s → length s ≤ int_max_str_digits → ∃ n, int s = Ok n ∧ (0 ≤ n)%Z.
Proof.
  intros [Hne Hall] Hlen.
  destruct (digits_value_numeric s Hall 0%Z) as (n & Hn & Hpos); [lia|].
  exists n. unfold int. destruct s; [done|].
  apply Nat.leb_le in Hlen. by rewrite Hlen, Hn.
Qed.

(** Beyond the limit it raises. *)
Lemma int_too_long s : int_max_str_digits < length s → int s = Raise ValueError.
Proof.
  intros Hlen. unfold int. destruct s as [|c s]; [done|].
  apply Nat.leb_gt in Hlen. by rewrite Hlen.
Qed.

Lemma digits_value_nonneg s :
  ∀ acc n, (0 ≤ acc)%Z → digits_value acc s = Some n → (0 ≤ n)%Z.
Proof.
  induction s as [|c s IH]; intros acc n Hacc; simpl.
  - by intros [= <-].
  - destruct (uni_decimal c) as [d|]; [|discriminate]. apply IH. lia.
Qed.

(** What [int] returns is never negative. *)
Lemma int_nonneg s n : int s = Ok n → (0 ≤ n)%Z.
Proof.
  unfold int. destruct s as [|c s]; [discriminate|].
  destruct (_ <=? _)%nat; [|discriminate].
  destruct (digits_value 0 (c :: s)) as [z|] eqn:E; [|discriminate].
  intros [= <-]. eapply digits_value_nonneg, E. lia.
Qed.

(** What [int] raises is a [ValueError]. *)
Lemma int_raises s e : int s = Raise e → e = ValueError.
Proof.
  unfold int. destruct s as [|c s]; [congruence|].
  destruct (_ <=? _)%nat; [|congruence].
  destruct (digits_value 0 (c :: s)); [discriminate | congruence].
Qed.

Lemma try_at_match_of r adv p pv s m st' :
  try_at fl r adv p pv s = Some (m, st') →
  match_of fl r m ∧ m_start m = p ∧ m_end m = pos st' ∧ m_text m = take (pos st' - p) s.
Proof.
  unfold try_at. destruct (run fl r _ _) as [out|] eqn:E; [|discriminate].
  intros [= <- <-]. apply run_reach in E as (st' & Hr & Hk).
  destruct (adv && _); [discriminate|]. injection Hk as ->.
  split; [|done]. eexists _, _. split; [|split; [exact Hr | done]]. done.
Qed.

Lemma scan_match_of r :
  ∀ s adv p pv m st', scan fl r adv p pv s = Some (m, st') → match_of fl r m.
Proof.
  induction s as [|c s IH]; intros adv p pv m st'; simpl.
  - destruct (try_at fl r adv p pv []) as [[m0 st0]|] eqn:E; [|discriminate].
    intros [= <- <-]. by apply try_at_match_of in E as [? _].
  - destruct (try_at fl r adv p pv (c :: s)) as [[m0 st0]|] eqn:E.
    + intros [= <- <-]. by apply try_at_match_of in E as [? _].
    + apply IH.
Qed.

Lemma search_match_of r s m : search fl r s = Some m → match_of fl r m.
Proof.
  unfold search. destruct (scan fl r false 0 None s) as [[m0 st0]|] eqn:E; [|discriminate].
  intros [= <-]. eapply scan_match_of, E.
Qed.

Lemma match_match_of r s m : match_ fl r s = Some m → match_of fl r m.
Proof.
  unfold match_. destruct (try_at fl r false 0 None s) as [[m0 st0]|] eqn:E; [|discriminate].
  intros [= <-]. by apply try_at_match_of in E as [? _].
Qed.

Lemma finditer_from_match_of r fuel :
  ∀ adv p pv s m, m ∈ finditer_from fl fuel r adv p pv s → match_of fl r m.
Proof.
  induction fuel as [|fuel IH]; intros adv p pv s m; simpl; [by intros ?%elem_of_nil|].
  destruct (scan fl r adv p pv s) as [[m0 st0]|] eqn:E; [|by intros ?%elem_of_nil].
  intros [->|Hin]%elem_of_cons; [eapply scan_match_of, E | eapply IH, Hin].
Qed.

Lemma finditer_match_of r s m : m ∈ finditer fl r s → match_of fl r m.
Proof. apply finditer_from_match_of. Qed.

Lemma iter_after n (P : mstate → mstate → Prop) :
  (∀ st st', P st st' → after st st') →
  ∀ st st', iter n P st st' → after st st'.
Proof.
  intros HP. induction n as [|n IH]; simpl; intros st st'.
  - intros ->. apply after_refl.
  - intros (mid & Hm & Hit). eapply after_trans; eauto.
Qed.

(** A match only moves forward in the text. *)
Lemma reach_after r : ∀ st st', reach fl r st st' → after st st'.
Proof.
  induction r as [| c | neg items | | | | | | | a IHa b IHb | a IHa b IHb
                  | greedy lo hi a IHa | n a IHa | positive a IHa];
    intros st st'; simpl;
    try (intros (c' & s & Hrest & _ & ->); by apply after_eat);
    try (intros [_ ->]; apply after_refl).
  - intros ->. apply after_refl.
  - intros (mid & Ha & Hb). eapply after_trans; eauto.
  - intros [Ha|Hb]; eauto.
  - intros (n & _ & Hit). eapply iter_after; eauto.
  - intros (mid & Ha & ->). apply IHa in Ha as [? ?]. by split.
  - destruct positive.
    + intros (mid & _ & ->). by split.
    + intros ->. apply after_refl.
Qed.

Lemma try_at_span r adv p pv s m st' :
  try_at fl r adv p pv s = Some (m, st') →
  m_start m = p ∧ m_end m = pos st' ∧ p ≤ pos st' ∧
  pos st' + length (rest st') = p + length s ∧ (adv = true → pos st' ≠ p).
Proof.
  unfold try_at. destruct (run fl r _ _) as [out|] eqn:E; [|discriminate].
  intros [= <- <-]. apply run_reach in E as (st' & Hr & Hk).
  apply reach_after in Hr as [Hpos Hlen]. simpl in *.
  destruct adv; simpl in Hk.
  - destruct (Nat.eqb_spec (pos st') p); [discriminate|]. injection Hk as ->. done.
  - injection Hk as ->. done.
Qed.

Lemma scan_span r :
  ∀ s adv p pv m st',
    scan fl r adv p pv s = Some (m, st') →
    p ≤ m_start m ∧ m_start m ≤ m_end m ∧ m_end m = pos st' ∧
    pos st' + length (rest st') = p + length s ∧ (adv = true → m_end m ≠ p).
Proof.
  induction s as [|c s IH]; intros adv p pv m st'; simpl.
  - destruct (try_at fl r adv p pv []) as [[m0 st0]|] eqn:E; [|discriminate].
    intros [= <- <-]. apply try_at_span in E as (-> & -> & ? & ? & ?). simpl in *.
    split_and!; auto; lia.
  - destruct (try_at fl r adv p pv (c :: s)) as [[m0 st0]|] eqn:E.
    + intros [= <- <-]. apply try_at_span in E as (-> & -> & ? & ? & ?). simpl in *.
      split_and!; auto; lia.
    + intros Hs. apply IH in Hs as (? & ? & ? & ? & _). simpl. split_and!; try lia.
Qed.

(** More fuel than twice the text left changes nothing to the list of
    matches: a match either ends further than the scan started, or is empty
    and forces the next one to advance. *)
Lemma finditer_from_fuel r :
  ∀ fuel1 fuel2 adv p pv s,
    2 * length s + (if adv : bool then 0 else 1) < fuel1 →
    2 * length s + (if adv : bool then 0 else 1) < fuel2 →
    finditer_from fl fuel1 r adv p pv s = finditer_from fl fuel2 r adv p pv s.
Proof.
  induction fuel1 as [|fuel1 IH]; intros fuel2 adv p pv s H1 H2; [lia|].
  destruct fuel2 as [|fuel2]; [lia|]. simpl.
  destruct (scan fl r adv p pv s) as [[m st']|] eqn:E; [|done].
  f_equal. apply scan_span in E as (Hp & Hse & He & Hlen & Hadv).
  destruct (Nat.eqb_spec (m_end m) (m_start m)) as [Heq|Hne].
  - apply IH.
    + destruct adv; [specialize (Hadv eq_refl)|]; lia.
    + destruct adv; [specialize (Hadv eq_refl)|]; lia.
  - apply IH; destruct adv; lia.
Qed.

(** The fuel given to [finditer] is enough. *)
Lemma finditer_fuel_enough r s fuel :
  2 * length s + 1 < fuel → finditer_from fl fuel r false 0 None s = finditer fl r s.
Proof. intros Hfuel. unfold finditer. apply finditer_from_fuel; simpl; lia. Qed.

(** Group [g] of a match is a string, not [None], when every match goes
    through it. *)
Lemma match_of_group r g m :
  sets g r = true → match_of fl r m → g ≠ 0 → is_Some (group m g).
Proof.
  intros Hs (st0 & st' & _ & Hr & Hc) Hg. destruct g as [|g]; [done|].
  simpl. rewrite Hc. eapply reach_sets; eauto.
Qed.

(** Group 1 of a match of a numbered pattern is a string of digits. *)
Lemma match_of_number r m :
  numbered r = true → match_of fl r m → ∃ ds, group m 1 = Some ds ∧ numeric ds.
Proof.
  intros [Hs Hd]%andb_true_iff Hm.
  destruct (match_of_group r 1 m Hs Hm) as [ds Hds]; [done|].
  destruct Hm as (st0 & st' & H0 & Hr & Hc).
  exists ds. split; [done|].
  eapply (reach_digits r Hd st0 st' Hr).
  - intros s. by rewrite H0.
  - simpl in Hds. by rewrite <- Hc.
Qed.

(** *** Pieces of a text *)

Lemma segment_refl (t : list N) : segment t t.
Proof. exists [], []. by rewrite app_nil_r. Qed.

Lemma segment_trans (s t u : list N) : segment s t → segment t u → segment s u.
Proof.
  intros (p1 & q1 & ->) (p2 & q2 & ->). exists (p2 ++ p1), (q1 ++ q2).
  by rewrite <- !app_assoc.
Qed.

Lemma segment_take n (t : list N) : segment (take n t) t.
Proof. exists [], (drop n t). simpl. by rewrite take_drop. Qed.

Lemma segment_drop n (t : list N) : segment (drop n t) t.
Proof. exists (take n t), []. by rewrite app_nil_r, take_drop. Qed.

Lemma segment_slice a b (t : list N) : segment (slice t a b) t.
Proof.
  unfold slice. eapply segment_trans; [apply segment_take | apply segment_drop].
Qed.

Lemma longest_digit_run_from_ge s :
  ∀ cur best, cur `max` best ≤ longest_digit_run_from cur best s.
Proof.
  induction s as [|c s IH]; intros cur best; simpl; [done|].
  destruct (is_digit c).
  - specialize (IH (S cur) best). lia.
  - specialize (IH 0 (cur `max` best)). lia.
Qed.

Lemma longest_digit_run_from_digits ds post :
  Forall (λ c, is_digit c = true) ds →
  ∀ cur best, cur + length ds ≤ longest_digit_run_from cur best (ds ++ post).
Proof.
  induction 1 as [|c ds Hc _ IH]; intros cur best; simpl.
  - pose proof (longest_digit_run_from_ge post cur best). lia.
  - rewrite Hc. specialize (IH (S cur) best). lia.
Qed.

(** A run of digits of a text is not longer than its longest run. *)
Lemma digit_run_bound ds t :
  segment ds t → Forall (λ c, is_digit c = true) ds → length ds ≤ longest_digit_run t.
Proof.
  intros (pre & post & ->) Hds. unfold longest_digit_run.
  generalize 0 at 1 as cur. generalize 0 as best.
  induction pre as [|c pre IH]; intros best cur; simpl.
  - pose proof (longest_digit_run_from_digits ds post Hds cur best). lia.
  - destruct (is_digit c); apply IH.
Qed.

(** A number written in a text whose numbers are short converts. *)
Lemma int_segment ds t :
  numeric ds → segment ds t → short_numbers t → ∃ n, int ds = Ok n ∧ (0 ≤ n)%Z.
Proof.
  intros Hnum Hseg Hshort. apply int_numeric; [done|].
  destruct Hnum as [_ Hds]. pose proof (digit_run_bound ds t Hseg Hds).
  unfold short_numbers in Hshort. lia.
Qed.

(** *** Results that are returned *)

Lemma returns_ok {A} (Hyp : Prop) (a : A) (P : A → Prop) : P a → returns Hyp (Ok a) P.
Proof. done. Qed.

Lemma returns_bind {A B} (Hyp : Prop) (x : res A) (f : A → res B)
    (P : A → Prop) (Q : B → Prop) :
  returns Hyp x P → (∀ a, x = Ok a → P a → returns Hyp (f a) Q) →
  returns Hyp (res_bind x f) Q.
Proof. destruct x as [a|e]; simpl; [|done]. intros Ha Hf. by apply Hf. Qed.

Lemma returns_mono {A} (Hyp Hyp' : Prop) (x : res A) (P Q : A → Prop) :
  (Hyp' → Hyp) → (∀ a, x = Ok a → P a → Q a) → returns Hyp x P → returns Hyp' x Q.
Proof.
  intros HH HPQ. destruct x as [a|e]; simpl; [by apply HPQ|].
  intros [-> Hn]. split; [done|]. intros Hh. by apply Hn, HH.
Qed.

(** A loop whose body keeps an invariant. *)
Lemma returns_for_each {A S} (Hyp : Prop) (I : S → Prop) (xs : list A)
    (body : A → S → res S) :
  (∀ x s, x ∈ xs → I s → returns Hyp (body x s) I) →
  ∀ s, I s → returns Hyp (for_each xs body s) I.
Proof.
  induction xs as [|x xs IH]; intros Hbody s Hs; simpl; [done|].
  eapply returns_bind.
  - apply Hbody; [apply list_elem_of_here | done].
  - intros s' _ Hs'. apply IH; [|done].
    intros y t Hy. apply Hbody. by apply list_elem_of_further.
Qed.

(** What [returns] says, spelled out. *)
Lemma returns_spec {A} (Hyp : Prop) (x : res A) (P : A → Prop) :
  returns Hyp x P →
  (Hyp → ∃ a, x = Ok a ∧ P a) ∧ (∀ a, x = Ok a → P a) ∧
  (∀ e, x = Raise e → e = ValueError ∧ ¬ Hyp).
Proof.
  destruct x as [a|e]; simpl.
  - intros Ha. split_and!; [eauto | by intros ? [= <-] | discriminate].
  - intros [-> Hn]. split_and!; [done | discriminate | by intros ? [= <-]].
Qed.

Lemma returns_cases {A} (Hyp : Prop) (x : res A) (P : A → Prop) :
  returns Hyp x P →
  (Hyp → ∃ a, x = Ok a) ∧ (∀ a, x = Ok a → P a) ∧
  (∀ e, x = Raise e → e = ValueError ∧ ¬ Hyp).
Proof.
  intros (Hok & Hval & Hraise)%returns_spec. split_and!; [|done|done].
  intros Hh. destruct (Hok Hh) as (a & Ha & _). eauto.
Qed.

(** The conversion of a number written in [t]. *)
Lemma returns_int ds t :
  numeric ds → segment ds t →
  returns (short_numbers t) (int ds) (λ n, (0 ≤ n)%Z).
Proof.
  intros Hnum Hseg. destruct (int ds) as [n|e] eqn:E; simpl.
  - eapply int_nonneg, E.
  - split; [eapply int_raises, E|]. intros Hshort.
    destruct (int_segment ds t Hnum Hseg Hshort) as (n & Hn & _). congruence.
Qed.

(** *** Captures are pieces of the text searched *)

Lemma inside_step t p st st' : step p st st' → inside t st → inside t st'.
Proof.
  intros (c & s & Hrest & _ & ->) [[pre Hpre] Hcaps]. split; [|done].
  exists (pre ++ [c]). simpl. rewrite Hpre, Hrest. by rewrite <- app_assoc.
Qed.

Lemma iter_inside t n (P : mstate → mstate → Prop) :
  (∀ st st', P st st' → inside t st → inside t st') →
  ∀ st st', iter n P st st' → inside t st → inside t st'.
Proof.
  intros HP. induction n as [|n IH]; simpl; intros st st'.
  - by intros ->.
  - intros (mid & Hm & Hit) Hin. eapply IH; eauto.
Qed.

Lemma reach_inside t r : ∀ st st', reach fl r st st' → inside t st → inside t st'.
Proof.
  induction r as [| c | neg items | | | | | | | a IHa b IHb | a IHa b IHb
                  | greedy lo hi a IHa | n a IHa | positive a IHa];
    intros st st'; simpl;
    try (by apply inside_step);
    try (by intros [_ ->]).
  - by intros ->.
  - intros (mid & Ha & Hb) Hin. eauto.
  - intros [Ha|Hb]; eauto.
  - intros (n & _ & Hit). eapply iter_inside; eauto.
  - intros (mid & Ha & ->) Hin. destruct (IHa _ _ Ha Hin) as [Hpre Hcaps].
    split; [done|]. intros g s. simpl.
    destruct (n =? g)%nat; [|apply Hcaps].
    intros [= <-]. destruct Hin as [[pre ->] _].
    eapply segment_trans; [apply segment_take|]. exists pre, []. by rewrite app_nil_r.
  - destruct positive.
    + intros (mid & Ha & ->) Hin. destruct (IHa _ _ Ha Hin) as [_ Hcaps].
      split; [apply Hin | done].
    + by intros ->.
Qed.

Lemma try_at_within t pre r adv p pv s m st' :
  t = pre ++ s → try_at fl r adv p pv s = Some (m, st') →
  groups_within t m ∧ inside t st'.
Proof.
  intros Ht. unfold try_at. destruct (run fl r _ _) as [out|] eqn:E; [|discriminate].
  intros [= <- <-]. apply run_reach in E as (st' & Hr & Hk).
  destruct (adv && _); [discriminate|]. injection Hk as ->.
  assert (Hin : inside t out).
  { eapply reach_inside; [exact Hr|]. split; [by exists pre | done]. }
  split; [|done]. intros [|g] x; simpl.
  - intros [= <-]. eapply segment_trans; [apply segment_take|].
    exists pre, []. by rewrite app_nil_r.
  - apply Hin.
Qed.

Lemma scan_within t r :
  ∀ s pre adv p pv m st',
    t = pre ++ s → scan fl r adv p pv s = Some (m, st') →
    groups_within t m ∧ inside t st'.
Proof.
  induction s as [|c s IH]; intros pre adv p pv m st' Ht; simpl.
  - destruct (try_at fl r adv p pv []) as [[m0 st0]|] eqn:E; [|discriminate].
    intros [= <- <-]. eapply try_at_within; eauto.
  - destruct (try_at fl r adv p pv (c :: s)) as [[m0 st0]|] eqn:E.
    + intros [= <- <-]. eapply try_at_within; eauto.
    + apply (IH (pre ++ [c])). by rewrite <- app_assoc.
Qed.

Lemma search_within r s m : search fl r s = Some m → groups_within s m.
Proof.
  unfold search. destruct (scan fl r false 0 None s) as [[m0 st0]|] eqn:E; [|discriminate].
  intros [= <-]. by eapply (scan_within s r s []).
Qed.

Lemma finditer_from_within t r fuel :
  ∀ adv p pv s pre m,
    t = pre ++ s → m ∈ finditer_from fl fuel r adv p pv s → groups_within t m.
Proof.
  induction fuel as [|fuel IH]; intros adv p pv s pre m Ht; simpl;
    [by intros ?%elem_of_nil|].
  destruct (scan fl r adv p pv s) as [[m0 st0]|] eqn:E; [|by intros ?%elem_of_nil].
  destruct (scan_within t r s pre _ _ _ _ _ Ht E) as [Hm0 [[pre' Hpre'] _]].
  intros [->|Hin]%elem_of_cons; [done|]. eapply IH; eauto.
Qed.

Lemma finditer_within r s m : m ∈ finditer fl r s → groups_within s m.
Proof. by apply (finditer_from_within s r _ _ _ _ s []). Qed.

(** The number in group 1 of a match found in [s], a piece of [t]. *)
Lemma returns_number t s r m :
  numbered r = true → match_of fl r m → groups_within s m → segment s t →
  ∃ ds, group m 1 = Some ds ∧ numeric ds ∧
        returns (short_numbers t) (int ds) (λ n, (0 ≤ n)%Z).
Proof.
  intros Hnum Hm Hin Hseg. destruct (match_of_number r m Hnum Hm) as (ds & Hds & Hn).
  exists ds. split_and!; [done | done|].
  apply returns_int; [done|]. eapply segment_trans; [|exact Hseg]. by apply (Hin 1).
Qed.
End MatcherFacts.

(** ** Section headers and type ranges *)

Section TypeRanges.
Context `{Unicode}.


End TypeRanges.


(** ** Question segmentation *)

Section Segmentation.
Context `{Unicode}.

Lemma split_parts_length n s :
  ∀ ms last, length (split_parts n s last ms) = (n + 1) * length ms + 1.
Proof.
  induction ms as [|m ms IH]; intros last; simpl; [lia|].
  rewrite length_app, length_map, length_seq, IH. lia.
Qed.

(** A split has one part more than the matches and their groups. *)
Lemma split_length fl r s :
  length (split fl r s) = (ngroups r + 1) * length (finditer fl r s) + 1.
Proof. apply split_parts_length. Qed.

(** C2, amended.  The comparison is on the number of parts of the split, two
    per match plus one: the punctuated recognizer is used exactly when it
    matches 5 times or more, and with fewer matches the segmentation is the
    one of the recognizer without punctuation. *)
Theorem question_parts_threshold (main_text : list N) :
  question_parts main_text =
    if (5 <=? length (finditer no_flags question_pattern main_text))%nat
    then split no_flags question_pattern main_text
    else split no_flags question_pattern_nopunct main_text.
Proof.
  unfold question_parts. rewrite split_length.
  change (ngroups question_pattern) with 1.
  destruct (Nat.ltb_spec ((1 + 1) * length (finditer no_flags question_pattern main_text) + 1) 10),
    (Nat.leb_spec 5 (length (finditer no_flags question_pattern main_text)));
    first [reflexivity | lia].
Qed.
End Segmentation.

(** C2 as stated fails: with five punctuated questions the recognizer matches
    5 times, fewer than 10, and its split is kept all the same; with two
    questions the fallback takes over and finds no question at all. *)
Lemma question_parts_not_as_specified :
  length (@finditer exam_unicode no_flags question_pattern five_questions) = 5 ∧
  @question_parts exam_unicode five_questions
    = @split exam_unicode no_flags question_pattern five_questions ∧
  @question_parts exam_unicode five_questions
    ≠ @segmentation_as_specified exam_unicode five_questions ∧
  length (@finditer exam_unicode no_flags question_pattern two_questions) = 2 ∧
  @question_parts exam_unicode two_questions = [Some two_questions].
Proof.
  split_and!; [vm_compute; reflexivity | vm_compute; reflexivity | | vm_compute; reflexivity
               | vm_compute; reflexivity].
  vm_compute. discriminate.
Qed.

(** ** The concrete scenario *)

(** C1 as stated fails: the two-question document yields no question. *)
Lemma two_questions_not_parsed :
  ¬ ∃ q1 q2, @_parse_questions exam_unicode two_questions = Ok [q1; q2] ∧
             q_number q1 = Some 1%Z ∧ q_number q2 = Some 2%Z.
Proof. intros (q1 & q2 & Hp & _). vm_compute in Hp. discriminate. Qed.

(** C1, amended.  The two-question document yields an empty list: its
    punctuated split has 5 parts, fewer than 10, and the split without
    punctuation finds nothing.  The two expected questions are what the
    punctuated split gives, and they are returned, first and second, when the
    document goes on to five questions. *)
Theorem two_questions_scenario :
  @_parse_questions exam_unicode two_questions = Ok [] ∧
  length (@split exam_unicode no_flags question_pattern two_questions) = 5 ∧
  @questions_loop exam_unicode
    (drop 1 (@split exam_unicode no_flags question_pattern two_questions)) [] []
    = Ok [expected_q1; expected_q2] ∧
  ∃ q3 q4 q5,
    @_parse_questions exam_unicode five_questions = Ok [expected_q1; expected_q2; q3; q4; q5].
Proof.
  split_and!; try (vm_compute; reflexivity).
  do 3 eexists. vm_compute. reflexivity.
Qed.

(** ** The answer region *)

Section AnswerRegion.
Context `{Unicode}.

Lemma first_match_none fl patterns text :
  Forall (λ p, search fl p text = None) patterns → first_match fl patterns text = None.
Proof.
  induction 1 as [|p ps Hp _ IH]; simpl; [done|]. by rewrite Hp.
Qed.

(** C7, amended.  When no marker matches, the answer region is the text from
    index [len * 3 // 5] to the end: what follows the first three-fifths,
    that is the last two-fifths of the document. *)
Theorem answer_region_fallback (text : list N) :
  Forall (λ marker, search no_flags marker text = None) answer_markers →
  answer_region text = drop ((length text * 3) `div` 5) text ∧
  length (answer_region text) = length text - (length text * 3) `div` 5.
Proof.
  intros Hnone. unfold answer_region, marked_section.
  rewrite (first_match_none _ _ _ Hnone). by rewrite length_drop.
Qed.
End AnswerRegion.

(** Ten characters without marker: the region starts at index 6. *)
Lemma answer_region_fallback_witness :
  @answer_region exam_unicode no_marker_text
    = drop ((length no_marker_text * 3) `div` 5) no_marker_text ∧
  length (@answer_region exam_unicode no_marker_text)
    = length no_marker_text - (length no_marker_text * 3) `div` 5.
Proof.
  apply (@answer_region_fallback exam_unicode no_marker_text).
  unfold answer_markers.
  repeat (constructor; [vm_compute; reflexivity|]). constructor.
Defined.

(** C7 as stated fails: on ten characters without marker, the last
    three-fifths are six characters and the region has four. *)
Lemma answer_region_not_last_three_fifths :
  Forall (λ marker, @search exam_unicode no_flags marker no_marker_text = None) answer_markers ∧
  last_three_fifths no_marker_text = utf8 "efghij" ∧
  @answer_region exam_unicode no_marker_text = utf8 "ghij" ∧
  @answer_region exam_unicode no_marker_text ≠ last_three_fifths no_marker_text.
Proof.
  split_and!; [| vm_compute; reflexivity | vm_compute; reflexivity | vm_compute; discriminate].
  unfold answer_markers.
  repeat (constructor; [vm_compute; reflexivity|]). constructor.
Qed.

(** ** Case markers *)

Section CaseMarkers.
Context `{Unicode}.

(** C6, amended.  A case label that fails the look-ahead is not a case
    marker as soon as some case label of the section passes it.  (When none
    passes, the unfiltered labels are all kept.) *)
Theorem unconfirmed_label_dropped (case_section : list N) (m m' : rmatch) :
  m ∈ finditer no_flags case_pattern1 case_section →
  marker_confirmed case_section m = false →
  m' ∈ finditer no_flags case_pattern1 case_section →
  marker_confirmed case_section m' = true →
  m ∉ case_markers case_section.
Proof.
  intros Hm Hno Hm' Hyes. unfold case_markers.
  assert (Hin : m' ∈ filter (λ m, marker_confirmed case_section m)
                       (finditer no_flags case_pattern1 case_section)).
  { apply list_elem_of_filter. split; [by rewrite Hyes | done]. }
  destruct (filter _ _) as [|m0 ms] eqn:E; [by apply elem_of_nil in Hin|].
  rewrite <- E. intros [Hc _]%list_elem_of_filter. by rewrite Hno in Hc.
Qed.
End CaseMarkers.

(** In [mixed_case_section] the label inside the sentence is dropped. *)
Lemma unconfirmed_label_dropped_witness :
  label_in_sentence ∉ @case_markers exam_unicode mixed_case_section.
Proof.
  apply (@unconfirmed_label_dropped exam_unicode mixed_case_section
           label_in_sentence label_as_heading).
  - vm_compute. apply list_elem_of_here.
  - vm_compute. reflexivity.
  - vm_compute. apply list_elem_of_further, list_elem_of_here.
  - vm_compute. reflexivity.
Defined.

(** C6 as stated fails: the only case label of [unconfirmed_case_paper] is
    followed by running text, fails the look-ahead, and is the case marker all
    the same; the paper yields one case study from it. *)
Lemma unconfirmed_label_kept :
  ∃ m, m ∈ @finditer exam_unicode no_flags case_pattern1 unconfirmed_case_paper ∧
       @marker_confirmed exam_unicode unconfirmed_case_paper m = false ∧
       m ∈ @case_markers exam_unicode unconfirmed_case_paper ∧
       ∃ cs, @_parse_case_studies exam_unicode unconfirmed_case_paper 2020 (utf8 "机电实务")
               = Ok [cs] ∧ title cs = utf8 "案例（一）".
Proof.
  eexists. split_and!.
  - vm_compute. apply list_elem_of_here.
  - vm_compute. reflexivity.
  - vm_compute. apply list_elem_of_here.
  - eexists. split; vm_compute; reflexivity.
Qed.

(** ** Background of a case *)

(** C5 fails on the code.  In [short_background_case] the three methods give
    9, 14 and 17 characters, all under 50, and the case study is produced with
    the 9 characters found after the label: the labelled method returns its
    text without the length test of the other two. *)
Theorem short_labelled_background_accepted :
  (∃ m g, @background_labelled exam_unicode short_background_case = Some m ∧
          group m 1 = Some g ∧ length (@strip exam_unicode g) = 9) ∧
  (∃ b, @background_before_problem exam_unicode short_background_case = Some b ∧
        length b = 14) ∧
  length (@background_leading exam_unicode short_background_case) = 17 ∧
  (∃ cs, @_parse_single_case exam_unicode 1 (Some (utf8 "一")) short_background_case
           2020 (utf8 "机电实务") None = Ok (Some cs) ∧
         background cs = utf8 "甲公司承建某工程。") ∧
  (∃ cs, @_parse_case_studies exam_unicode short_background_paper 2020 (utf8 "机电实务")
           = Ok [cs] ∧
         length (background cs) = 9).
Proof.
  split_and!.
  - do 2 eexists. split_and!; vm_compute; reflexivity.
  - eexists. split; vm_compute; reflexivity.
  - vm_compute. reflexivity.
  - eexists. split; vm_compute; reflexivity.
  - eexists. split; vm_compute; reflexivity.
Qed.

(** ** The answer map *)

Section AnswerMap.
Context `{Unicode}.

Lemma letters_of_put n k v answers :
  letters_of n (put_answer k v answers) = if decide (k = n) then Some v else letters_of n answers.
Proof.
  unfold letters_of, put_answer. rewrite lookup_insert. by case_decide.
Qed.

Lemma absorb_cons e es answers :
  absorb (e :: es) answers = absorb es (put_answer e.1 e.2 answers).
Proof. done. Qed.

Lemma absorb_snoc es e answers :
  absorb (es ++ [e]) answers = put_answer e.1 e.2 (absorb es answers).
Proof. unfold absorb. by rewrite foldl_app. Qed.

(** After a list of entries, question [n] holds the letters of the last
    entry numbered [n], or what it held before when there is none. *)
Lemma letters_of_absorb n es answers :
  letters_of n (absorb es answers) =
    match last_capture n es with
    | Some v => Some v
    | None => letters_of n answers
    end.
Proof.
  induction es as [|e es IH] using rev_ind; [done|].
  rewrite absorb_snoc, letters_of_put. unfold last_capture in *.
  rewrite filter_app, filter_cons, filter_nil. simpl.
  case_decide as Hk.
  - by rewrite last_snoc.
  - by rewrite app_nil_r.
Qed.

(** [record_answer] never raises. *)
Lemma record_answer_eq num answer answers total :
  record_answer num answer (answers, total) =
    Ok (put_answer num answer answers,
        match answers !! num with None => S total | Some _ => total end).
Proof.
  unfold record_answer, store_answer, put_answer.
  destruct (answers !! num) as [info|] eqn:E; simpl.
  - by rewrite E.
  - rewrite lookup_insert_eq. simpl. by rewrite insert_insert_eq.
Qed.

(** The loop [for num_str, answer in matches] of the spaced layout, [f]
    being what turns a number into the key it is stored under: it stores
    every pair when every number is within the limit of [int], and raises
    otherwise. *)
Lemma spaced_loop_ok (f : Z → Z) (ps : list (list N * list N)) :
  Forall (λ p, numeric p.1) ps →
  ∀ answers total,
    returns (Forall (λ p, length p.1 ≤ int_max_str_digits) ps)
      (for_each ps
         (λ '(num_str, answer) st, let* num := int num_str in record_answer (f num) answer st)
         (answers, total))
      (λ st', ∃ total',
         st' = (absorb (map (λ p, (f (number_of p.1), p.2)) ps) answers, total') ∧
         total ≤ total' ∧ (ps ≠ [] → answers = ∅ → 0 < total')).
Proof.
  induction 1 as [|[num_str answer] ps Hnum _ IH]; intros answers total.
  - exists total. split_and!; [done | lia | done].
  - simpl in Hnum. cbn [for_each].
    destruct (decide (length num_str ≤ int_max_str_digits)) as [Hlen|Hlen].
    + destruct (int_numeric num_str Hnum Hlen) as (n & Hn & _).
      rewrite Hn. cbn [res_bind]. rewrite record_answer_eq. cbn [res_bind].
      eapply returns_mono; [| |apply IH].
      * by intros [_ ?]%Forall_cons.
      * intros st' _ (total' & -> & Hle & _). exists total'.
        cbn [map]. rewrite absorb_cons. cbn [fst snd].
        assert (number_of num_str = n) as -> by (unfold number_of; by rewrite Hn).
        split_and!; [done | destruct (answers !! _); lia |].
        intros _ ->. rewrite lookup_empty in Hle. lia.
    + rewrite int_too_long by lia. cbn [res_bind]. split; [done|].
      by intros [? _]%Forall_cons.
Qed.

(** The pairs of a sub-region: never an exception, and numbers made of
    digits of the section. *)
Lemma region_pairs_ok region_re pair_re answer_section :
  sets 1 region_re = true → numbered pair_re = true →
  ∃ ps, region_pairs region_re pair_re answer_section = Ok ps ∧
        Forall (λ p, numeric p.1 ∧ segment p.1 answer_section) ps.
Proof.
  intros Hset Hnum. unfold region_pairs.
  destruct (search dotall region_re answer_section) as [m|] eqn:Hs.
  - destruct (match_of_group dotall region_re 1 m Hset) as [txt Htxt];
      [eapply search_match_of, Hs | done |].
    rewrite Htxt. simpl. eexists. split; [done|].
    unfold findall2. apply Forall_map, Forall_forall. intros m' Hm'. simpl.
    destruct (match_of_number no_flags pair_re m' Hnum) as (ds & Hg & Hds);
      [eapply finditer_match_of, Hm'|].
    simpl in Hg. rewrite Hg. simpl. split; [done|].
    eapply segment_trans; [by apply (finditer_within no_flags pair_re txt m' Hm' 1)|].
    by apply (search_within dotall region_re answer_section m Hs 1).
  - exists []. split; [done | constructor].
Qed.

(** Numbers of a text whose numbers are short are within the limit. *)
Lemma pairs_short t (ps : list (list N * list N)) :
  Forall (λ p, numeric p.1 ∧ segment p.1 t) ps → short_numbers t →
  Forall (λ p, length p.1 ≤ int_max_str_digits) ps.
Proof.
  intros Hps Hshort. eapply Forall_impl; [exact Hps|].
  intros p [[_ Hds] Hseg]. pose proof (digit_run_bound _ _ Hseg Hds).
  unfold short_numbers in Hshort. simpl in *. lia.
Qed.

Lemma single_pass_ok answer_section answers total :
  ∃ ps,
    region_pairs single_region_re single_pair_re answer_section = Ok ps ∧
    Forall (λ p, numeric p.1 ∧ segment p.1 answer_section) ps ∧
    returns (Forall (λ p, length p.1 ≤ int_max_str_digits) ps)
      (single_pass answer_section (answers, total))
      (λ st', ∃ total',
         st' = (absorb (map (λ p, (number_of p.1, p.2)) ps) answers, total') ∧
         total ≤ total' ∧ (ps ≠ [] → answers = ∅ → 0 < total')).
Proof.
  destruct (region_pairs_ok single_region_re single_pair_re answer_section)
    as (ps & Hps & Hall); [done | done |].
  exists ps. split_and!; [done | done |].
  unfold single_pass. rewrite Hps. cbn [res_bind].
  apply (spaced_loop_ok (λ n, n)). eapply Forall_impl; [exact Hall|]. by intros p [? _].
Qed.

Lemma multi_pass_ok answer_section answers total :
  ∃ ps,
    region_pairs multi_region_re multi_pair_re answer_section = Ok ps ∧
    Forall (λ p, numeric p.1 ∧ segment p.1 answer_section) ps ∧
    returns (Forall (λ p, length p.1 ≤ int_max_str_digits) ps)
      (multi_pass answer_section (answers, total))
      (λ st', ∃ total',
         st' = (absorb (map (λ p, ((max_single answers + number_of p.1)%Z, p.2)) ps) answers,
                total') ∧
         total ≤ total' ∧ (ps ≠ [] → answers = ∅ → 0 < total')).
Proof.
  destruct (region_pairs_ok multi_region_re multi_pair_re answer_section)
    as (ps & Hps & Hall); [done | done |].
  exists ps. split_and!; [done | done |].
  unfold multi_pass. rewrite Hps. cbn [res_bind fst].
  apply (spaced_loop_ok (λ n, (max_single answers + n)%Z)).
  eapply Forall_impl; [exact Hall|]. by intros p [? _].
Qed.

(** [max_single] is 0 or a number holding a one-letter answer, and no number
    holding a one-letter answer exceeds it. *)
Lemma max_single_spec (answers : gmap Z answer_info) :
  (∀ k info, answers !! k = Some info → one_letter info = true → (k ≤ max_single answers)%Z) ∧
  (max_single answers = 0%Z ∨
   ∃ info, answers !! max_single answers = Some info ∧ one_letter info = true).
Proof.
  unfold max_single.
  apply (map_fold_weak_ind (λ r (m : gmap Z answer_info),
    (∀ k info, m !! k = Some info → one_letter info = true → (k ≤ r)%Z) ∧
    (r = 0%Z ∨ ∃ info, m !! r = Some info ∧ one_letter info = true))).
  - split; [|by left]. intros k info. by rewrite lookup_empty.
  - intros i x m r Hi [Hub Hatt]. destruct (one_letter x) eqn:Ex.
    + split.
      * intros k info. rewrite lookup_insert. case_decide as Hk.
        -- intros _ _. lia.
        -- intros Hm Hone. specialize (Hub _ _ Hm Hone). lia.
      * destruct (Z.max_spec r i) as [[Hlt ->]|[Hge ->]].
        -- right. exists x. by rewrite lookup_insert_eq.
        -- destruct Hatt as [->|(info & Hr & Hone)]; [by left|].
           right. exists info. rewrite lookup_insert_ne; [done|]. intros ->. congruence.
    + split.
      * intros k info. rewrite lookup_insert. case_decide as Hk.
        -- intros [= <-]. congruence.
        -- apply Hub.
      * destruct Hatt as [->|(info & Hr & Hone)]; [by left|].
        right. exists info. rewrite lookup_insert_ne; [done|]. intros ->. congruence.
Qed.

(** The answer region is the end of the text. *)
Lemma answer_region_segment text : segment (answer_region text) text.
Proof.
  unfold answer_region, marked_section.
  destruct (first_match no_flags answer_markers text) as [m|].
  - destruct (drop (m_start m) text) as [|c l] eqn:E; [apply segment_drop|].
    rewrite <- E. apply segment_drop.
  - apply segment_drop.
Qed.

(** The spaced layout as a whole, in a section of a text whose numbers are
    short: [found] is set as soon as one of the two sub-regions has a pair,
    and without any pair the answers stay empty. *)
Lemma try_extract_spaced_ok t answer_section :
  segment answer_section t →
  ∃ ps1 ps2,
    region_pairs single_region_re single_pair_re answer_section = Ok ps1 ∧
    region_pairs multi_region_re multi_pair_re answer_section = Ok ps2 ∧
    returns (short_numbers t) (_try_extract_spaced_answers answer_section ∅)
      (λ r, (ps1 ≠ [] ∨ ps2 ≠ [] → r.2 = true) ∧
            (ps1 = [] → ps2 = [] → r.2 = false ∧ r.1 = ∅)).
Proof.
  intros Hseg.
  destruct (single_pass_ok answer_section ∅ 0) as (ps1 & Hps1 & Hall1 & H1).
  destruct (region_pairs_ok multi_region_re multi_pair_re answer_section)
    as (ps2 & Hps2 & Hall2); [done | done |].
  exists ps1, ps2. split_and!; [done | done |].
  unfold _try_extract_spaced_answers.
  eapply returns_bind.
  - eapply returns_mono; [| |exact H1]; [|by intros a _ Ha; exact Ha].
    apply pairs_short. eapply Forall_impl; [exact Hall1|].
    intros p [? Hp]. split; [done|]. by eapply segment_trans.
  - intros [answers1 total1] Hsingle (total1' & [= -> ->] & _ & Hpos1).
    destruct (multi_pass_ok answer_section
                (absorb (map (λ p, (number_of p.1, p.2)) ps1) ∅) total1')
      as (ps2' & Hps2' & _ & H2).
    rewrite Hps2 in Hps2'. injection Hps2' as <-.
    eapply returns_bind.
    + eapply returns_mono; [| |exact H2]; [|by intros a _ Ha; exact Ha].
      apply pairs_short. eapply Forall_impl; [exact Hall2|].
      intros p [? Hp]. split; [done|]. by eapply segment_trans.
    + intros [answers2 total2] Hmulti (total2' & [= -> ->] & Hle2 & Hpos2).
      apply returns_ok. cbn [fst snd]. split.
      * intros Hsome. apply bool_decide_eq_true.
        destruct ps1 as [|p1 ps1]; [|specialize (Hpos1 ltac:(done) eq_refl); lia].
        destruct Hsome as [?|Hne]; [done|]. apply (Hpos2 Hne). done.
      * intros -> ->. split; [|done]. apply bool_decide_eq_false.
        unfold single_pass in Hsingle. rewrite Hps1 in Hsingle. simpl in Hsingle.
        injection Hsingle as <-.
        unfold multi_pass in Hmulti. rewrite Hps2 in Hmulti. simpl in Hmulti.
        injection Hmulti as <-. lia.
Qed.

(** C8.  When the spaced layout yields a pair in the single-choice or in
    the multi-choice sub-region, what [_extract_answers_section] returns is
    what [_try_extract_spaced_answers] leaves, and the latter returns true:
    the answer patterns and the analysis patterns are not run.  This is the
    outcome whenever no number of the text has more than
    [int_max_str_digits] digits; the only other outcome is the [ValueError]
    of a pair whose number is longer, which is then also what
    [_extract_answers_section] raises. *)
Theorem spaced_layout_authoritative (text : list N) :
  region_pairs single_region_re single_pair_re (answer_region text) ≠ Ok [] ∨
  region_pairs multi_region_re multi_pair_re (answer_region text) ≠ Ok [] →
  (short_numbers text →
   ∃ answers,
     _try_extract_spaced_answers (answer_region text) ∅ = Ok (answers, true) ∧
     _extract_answers_section text = Ok answers) ∧
  (∀ answers found,
     _try_extract_spaced_answers (answer_region text) ∅ = Ok (answers, found) →
     found = true ∧ _extract_answers_section text = Ok answers) ∧
  (∀ e, _try_extract_spaced_answers (answer_region text) ∅ = Raise e →
        e = ValueError ∧ _extract_answers_section text = Raise e).
Proof.
  intros Hsome.
  destruct (try_extract_spaced_ok text (answer_region text) (answer_region_segment text))
    as (ps1 & ps2 & Hps1 & Hps2 & Htry).
  assert (Hpairs : ps1 ≠ [] ∨ ps2 ≠ []).
  { rewrite Hps1, Hps2 in Hsome. destruct Hsome; [left | right]; congruence. }
  apply returns_spec in Htry as (Hok & Hval & Hraise).
  assert (Hfound : ∀ answers found,
            _try_extract_spaced_answers (answer_region text) ∅ = Ok (answers, found) →
            found = true ∧ _extract_answers_section text = Ok answers).
  { intros answers found Htry. destruct (Hval _ Htry) as [Hf _].
    specialize (Hf Hpairs). simpl in Hf. subst found. split; [done|].
    unfold _extract_answers_section. by rewrite Htry. }
  split_and!; [|done|].
  - intros Hshort. destruct (Hok Hshort) as ([answers found] & Htry & _).
    destruct (Hfound _ _ Htry) as [-> Hres]. eauto.
  - intros e Htry. destruct (Hraise e Htry) as [-> _]. split; [done|].
    unfold _extract_answers_section. by rewrite Htry.
Qed.
End AnswerMap.

(** ** The answer patterns *)

Section Cascade.
Context `{Unicode}.

Lemma absorb_app es1 es2 answers :
  absorb (es1 ++ es2) answers = absorb es2 (absorb es1 answers).
Proof. unfold absorb. by rewrite foldl_app. Qed.

(** Every answer pattern carries a number in group 1 and goes through
    group 2; so does the analysis pattern with two groups. *)
Lemma answer_patterns_numbered :
  Forall (λ p, numbered p = true ∧ sets 2 p = true) answer_patterns.
Proof. unfold answer_patterns. repeat (constructor; [by vm_compute|]). constructor. Qed.

Lemma analysis_patterns_numbered :
  Forall (λ p, ngroups p = 2 → numbered p = true ∧ sets 2 p = true) analysis_patterns.
Proof.
  unfold analysis_patterns. constructor; [by vm_compute|].
  constructor; [|constructor]. vm_compute. discriminate.
Qed.

Lemma groups_within_segment s t m : groups_within s m → segment s t → groups_within t m.
Proof. intros Hm Hseg g x Hg. eapply segment_trans; [by eapply Hm | done]. Qed.

(** The matches that [finditer] lists: matches of the pattern, made of
    pieces of the text. *)
Lemma finditer_matches fl r s t :
  segment s t →
  Forall (λ m, match_of fl r m ∧ groups_within t m) (finditer fl r s).
Proof.
  intros Hseg. apply Forall_forall. intros m Hm. split.
  - by eapply finditer_match_of.
  - eapply groups_within_segment; [by eapply finditer_within | done].
Qed.

(** One match of an answer pattern: its capture is stored when letters are
    left after cleaning, and nothing happens otherwise. *)
Lemma answer_step_eq t pattern m answers total :
  numbered pattern = true → sets 2 pattern = true →
  match_of multiline pattern m → groups_within t m →
  returns (short_numbers t) (answer_step m (answers, total))
    (λ st', ∃ total',
       st' = (absorb (filter (λ e, e.2 ≠ []) [capture_of m]) answers, total')).
Proof.
  intros Hnum H2 Hm Hin.
  destruct (returns_number multiline t t pattern m Hnum Hm Hin (segment_refl t))
    as (ds & Hg1 & _ & Hret).
  destruct (match_of_group _ _ 2 _ H2 Hm) as [g2 Hg2]; [done|].
  unfold answer_step, capture_of. rewrite Hg1, Hg2. cbn [need res_bind default].
  destruct (int ds) as [n|e] eqn:Hint; [|exact Hret]. cbn [res_bind]. unfold id.
  assert (number_of ds = n) as -> by (unfold number_of; by rewrite Hint).
  rewrite filter_cons, filter_nil. cbn [fst snd].
  destruct (clean_answer (strip g2)) as [|c answer] eqn:Hclean.
  - case_decide; [done|]. destruct (answers !! n); simpl; by exists total.
  - case_decide; [|done]. cbn [absorb foldl fst snd].
    pose proof (record_answer_eq n (c :: answer) answers total) as Hrec.
    unfold record_answer in Hrec. rewrite Hrec. simpl. by eexists.
Qed.

(** The matches of one answer pattern, one after the other. *)
Lemma answer_matches_ok t pattern ms :
  numbered pattern = true → sets 2 pattern = true →
  Forall (λ m, match_of multiline pattern m ∧ groups_within t m) ms →
  ∀ answers total,
    returns (short_numbers t) (for_each ms answer_step (answers, total))
      (λ st', ∃ total',
         st' = (absorb (filter (λ e, e.2 ≠ []) (capture_of <$> ms)) answers, total')).
Proof.
  intros Hnum H2. induction 1 as [|m ms [Hm Hin] _ IH]; intros answers total.
  - by exists total.
  - cbn [for_each]. eapply returns_bind; [by apply (answer_step_eq t pattern)|].
    intros st1 _ (t1 & ->).
    eapply returns_mono; [done| |apply IH].
    intros st2 _ (t2 & ->). exists t2. rewrite fmap_cons.
    change (capture_of m :: (capture_of <$> ms)) with ([capture_of m] ++ (capture_of <$> ms)).
    by rewrite filter_app, absorb_app.
Qed.

(** The loop over a list of answer patterns. *)
Lemma answer_patterns_ok t answer_section patterns :
  segment answer_section t →
  Forall (λ p, numbered p = true ∧ sets 2 p = true) patterns →
  ∀ answers total,
    returns (short_numbers t)
      (for_each patterns
         (λ pattern st, for_each (finditer multiline pattern answer_section) answer_step st)
         (answers, total))
      (λ st', ∃ total',
         st' = (absorb (filter (λ e, e.2 ≠ [])
                          (flat_map (λ pattern,
                             capture_of <$> finditer multiline pattern answer_section)
                             patterns))
                  answers, total')).
Proof.
  intros Hseg. induction 1 as [|p ps [Hnum H2] _ IH]; intros answers total.
  - by exists total.
  - cbn [for_each flat_map]. eapply returns_bind.
    + apply (answer_matches_ok t p); [done | done | by apply finditer_matches].
    + intros st1 _ (t1 & ->).
      eapply returns_mono; [done| |apply IH].
      intros st2 _ (t2 & ->). exists t2. by rewrite filter_app, absorb_app.
Qed.

Lemma same_answers_refl a : same_answers a a.
Proof. done. Qed.

Lemma same_answers_trans a b c : same_answers a b → same_answers b c → same_answers a c.
Proof. intros [Hd1 Hl1] [Hd2 Hl2]. split; [congruence|]. intros n. by rewrite Hl2. Qed.

Lemma analysis_step_ok t pattern m answers :
  (ngroups pattern = 2 → numbered pattern = true ∧ sets 2 pattern = true) →
  match_of multiline_dotall pattern m → groups_within t m →
  returns (short_numbers t) (analysis_step pattern m answers) (same_answers answers).
Proof.
  intros Hp Hm Hin. unfold analysis_step.
  destruct (Nat.eqb_spec (ngroups pattern) 2) as [Hn|_]; [|apply same_answers_refl].
  destruct (Hp Hn) as [Hnum H2].
  destruct (returns_number multiline_dotall t t pattern m Hnum Hm Hin (segment_refl t))
    as (ds & Hg1 & _ & Hret).
  destruct (match_of_group _ _ 2 _ H2 Hm) as [g2 Hg2]; [done|].
  rewrite Hg1, Hg2. cbn [need res_bind].
  destruct (int ds) as [n|e] eqn:Hint; [|exact Hret]. cbn [res_bind].
  destruct (answers !! n) as [info|] eqn:Hlook; [|apply same_answers_refl].
  unfold store_analysis. rewrite Hlook. cbn [need res_bind returns]. split.
  - apply dom_insert_lookup_L. by rewrite Hlook.
  - intros k. unfold letters_of. rewrite lookup_insert. case_decide as Hk; [|done].
    subst k. by rewrite Hlook.
Qed.

Lemma analysis_patterns_ok t answer_section patterns :
  segment answer_section t →
  Forall (λ p, ngroups p = 2 → numbered p = true ∧ sets 2 p = true) patterns →
  ∀ answers,
    returns (short_numbers t)
      (for_each patterns
         (λ pattern answers,
            for_each (finditer multiline_dotall pattern answer_section)
              (analysis_step pattern) answers)
         answers)
      (same_answers answers).
Proof.
  intros Hseg Hps answers.
  apply (returns_for_each _ (same_answers answers)); [|apply same_answers_refl].
  intros p a1 Hp Ha1. rewrite Forall_forall in Hps.
  apply (returns_for_each _ (same_answers answers)); [|done].
  intros m a2 Hm Ha2.
  eapply returns_mono; [done| |apply (analysis_step_ok t p m a2)].
  - intros a3 _ Ha3. eapply same_answers_trans; eauto.
  - by apply Hps.
  - by eapply finditer_match_of.
  - eapply groups_within_segment; [by eapply finditer_within | done].
Qed.

(** The two loops after the spaced layout: the numbers and letters they
    return are those of the captures stored in order. *)
Lemma pattern_cascade_ok t answer_section answers :
  segment answer_section t →
  returns (short_numbers t) (pattern_cascade answer_section answers)
    (λ answers',
       same_answers (absorb (cascade_captures answer_section) answers) answers').
Proof.
  intros Hseg. unfold pattern_cascade. eapply returns_bind.
  - apply (answer_patterns_ok t answer_section answer_patterns Hseg
             answer_patterns_numbered answers 0).
  - intros [answers1 total1] _ (total' & [= -> ->]).
    apply (analysis_patterns_ok t answer_section analysis_patterns Hseg
             analysis_patterns_numbered).
Qed.
End Cascade.

Section AnswerExtraction.
Context `{Unicode}.

Lemma letters_of_absorb_empty n es : letters_of n (absorb es ∅) = last_capture n es.
Proof.
  rewrite letters_of_absorb. destruct (last_capture n es); [done|].
  unfold letters_of. by rewrite lookup_empty.
Qed.

Lemma cascade_captures_nil answer_section :
  Forall (λ pattern, finditer multiline pattern answer_section = []) answer_patterns →
  cascade_captures answer_section = [].
Proof.
  unfold cascade_captures. generalize answer_patterns.
  induction 1 as [|p ps Hp _ IH]; [done|].
  cbn [flat_map]. by rewrite Hp, fmap_nil, app_nil_l.
Qed.

(** [_extract_answers_section] as a whole: the spaced layout, then the
    patterns when it found nothing. *)
Lemma extract_answers_ok text :
  ∃ ps1 ps2,
    region_pairs single_region_re single_pair_re (answer_region text) = Ok ps1 ∧
    region_pairs multi_region_re multi_pair_re (answer_region text) = Ok ps2 ∧
    returns (short_numbers text) (_extract_answers_section text)
      (λ answers,
         ps1 = [] → ps2 = [] →
         same_answers (absorb (cascade_captures (answer_region text)) ∅) answers).
Proof.
  pose proof (answer_region_segment text) as Hseg.
  destruct (try_extract_spaced_ok text (answer_region text) Hseg)
    as (ps1 & ps2 & Hps1 & Hps2 & Htry).
  exists ps1, ps2. split_and!; [done | done |].
  unfold _extract_answers_section. eapply returns_bind; [exact Htry|].
  intros [answers found] _ [Hfound Hnone]. simpl in Hfound, Hnone.
  destruct found.
  - apply returns_ok. intros -> ->. by destruct (Hnone eq_refl eq_refl).
  - eapply returns_mono; [done| |apply (pattern_cascade_ok text _ answers Hseg)].
    intros answers' _ Hsame -> ->. by destruct (Hnone eq_refl eq_refl) as [_ ->].
Qed.

(** C9.  [_extract_answers_section] returns an answer map for every text in
    which no number has more than [int_max_str_digits] digits: no group
    access or dictionary access in it raises, and no conversion of such a
    number.  The only exception it raises is the [ValueError] of a longer
    number.  When, in a text whose numbers are short, neither the spaced
    layout nor any of the answer patterns matches in the answer region, the
    map is empty. *)
Theorem extract_answers_raises_only_long_numbers (text : list N) :
  (short_numbers text → ∃ answers, _extract_answers_section text = Ok answers) ∧
  (∀ e, _extract_answers_section text = Raise e →
        e = ValueError ∧ ¬ short_numbers text) ∧
  (short_numbers text →
   region_pairs single_region_re single_pair_re (answer_region text) = Ok [] →
   region_pairs multi_region_re multi_pair_re (answer_region text) = Ok [] →
   Forall (λ pattern, finditer multiline pattern (answer_region text) = []) answer_patterns →
   _extract_answers_section text = Ok ∅).
Proof.
  destruct (extract_answers_ok text) as (ps1 & ps2 & Hps1 & Hps2 & Hret).
  apply returns_spec in Hret as (Hok & Hval & Hraise).
  split_and!; [|done|].
  - intros Hshort. destruct (Hok Hshort) as (answers & Heq & _). eauto.
  - intros Hshort H1 H2 Hpat. rewrite Hps1 in H1. rewrite Hps2 in H2.
    injection H1 as ->. injection H2 as ->.
    destruct (Hok Hshort) as (answers & Heq & Hsame).
    destruct (Hsame eq_refl eq_refl) as [Hdom _].
    rewrite (cascade_captures_nil _ Hpat) in Hdom. cbn [absorb foldl] in Hdom.
    rewrite dom_empty_L in Hdom. apply dom_empty_inv_L in Hdom. by subst.
Qed.

(** C10.  When the spaced layout finds nothing, the letters returned for a
    question are those of the last capture with its number among the
    captures of all seven patterns, taken pattern after pattern in the order
    of the list: every pattern contributes, and a capture of a later pattern
    replaces the capture of an earlier one for the same number.  A map is
    returned whenever no number of the text has more than
    [int_max_str_digits] digits, and nothing but the [ValueError] of a longer
    number is raised. *)
Theorem later_pattern_replaces (text : list N) :
  region_pairs single_region_re single_pair_re (answer_region text) = Ok [] →
  region_pairs multi_region_re multi_pair_re (answer_region text) = Ok [] →
  (short_numbers text → ∃ answers, _extract_answers_section text = Ok answers) ∧
  (∀ answers,
     _extract_answers_section text = Ok answers →
     (∀ n, letters_of n answers = last_capture n (cascade_captures (answer_region text))) ∧
     (∀ pattern m,
        pattern ∈ answer_patterns → m ∈ finditer multiline pattern (answer_region text) →
        (capture_of m).2 ≠ [] → is_Some (letters_of (capture_of m).1 answers))) ∧
  (∀ e, _extract_answers_section text = Raise e → e = ValueError).
Proof.
  intros H1 H2.
  destruct (extract_answers_ok text) as (ps1 & ps2 & Hps1 & Hps2 & Hret).
  rewrite Hps1 in H1. rewrite Hps2 in H2. injection H1 as ->. injection H2 as ->.
  apply returns_spec in Hret as (Hok & Hval & Hraise).
  split_and!.
  - intros Hshort. destruct (Hok Hshort) as (answers & Heq & _). eauto.
  - intros answers Heq. destruct (Hval _ Heq eq_refl eq_refl) as [_ Hlet].
    assert (Hlast : ∀ n, letters_of n answers
                         = last_capture n (cascade_captures (answer_region text))).
    { intros n. by rewrite Hlet, letters_of_absorb_empty. }
    split; [done|].
    intros pattern m Hp Hm Hne. rewrite Hlast. unfold last_capture.
    assert (Hin : capture_of m ∈ filter (λ e, e.1 = (capture_of m).1)
                                  (cascade_captures (answer_region text))).
    { apply list_elem_of_filter. split; [done|]. unfold cascade_captures.
      apply list_elem_of_filter. split; [done|].
      apply list_elem_of_In, in_flat_map. exists pattern.
      split; apply list_elem_of_In; [done|]. by apply list_elem_of_fmap_2. }
    destruct (filter _ _) as [|e es] using rev_ind; [by apply elem_of_nil in Hin|].
    rewrite last_snoc. by eexists.
  - intros e He. by destruct (Hraise e He).
Qed.
End AnswerExtraction.

(** A text without digit: nothing matches, the map is empty. *)
Lemma extract_answers_raises_only_long_numbers_witness :
  (∃ answers, @_extract_answers_section exam_unicode no_answer_text = Ok answers) ∧
  @_extract_answers_section exam_unicode no_answer_text = Ok ∅.
Proof.
  destruct (@extract_answers_raises_only_long_numbers exam_unicode no_answer_text)
    as (Hok & _ & Hempty).
  assert (Hshort : @short_numbers exam_unicode no_answer_text).
  { apply Nat.leb_le. vm_compute. reflexivity. }
  split; [exact (Hok Hshort)|]. apply (Hempty Hshort).
  - vm_compute. reflexivity.
  - vm_compute. reflexivity.
  - unfold answer_patterns. repeat (constructor; [vm_compute; reflexivity|]). constructor.
Defined.

(** An appendix whose first answer carries a number of 4301 digits: the
    conversion of the number raises, and so does the extraction. *)
Lemma extract_answers_raises :
  length long_number = 4301 ∧
  @int exam_unicode long_number = Raise ValueError ∧
  @_extract_answers_section exam_unicode long_number_appendix = Raise ValueError ∧
  ¬ ∃ answers, @_extract_answers_section exam_unicode long_number_appendix = Ok answers.
Proof.
  split_and!; [vm_compute; reflexivity .. |].
  intros [answers Hanswers].
  assert (Hraise : @_extract_answers_section exam_unicode long_number_appendix
                   = Raise ValueError) by (vm_compute; reflexivity).
  congruence.
Qed.

(** In [twice_answered] the first pattern captures A for question 1 and the
    second pattern captures B: B is returned. *)
Lemma later_pattern_replaces_witness :
  (@short_numbers exam_unicode twice_answered →
   ∃ answers, @_extract_answers_section exam_unicode twice_answered = Ok answers) ∧
  (∀ answers,
     @_extract_answers_section exam_unicode twice_answered = Ok answers →
     (∀ n, letters_of n answers
           = last_capture n (@cascade_captures exam_unicode
                               (@answer_region exam_unicode twice_answered))) ∧
     (∀ pattern m,
        pattern ∈ answer_patterns →
        m ∈ @finditer exam_unicode multiline pattern
              (@answer_region exam_unicode twice_answered) →
        (@capture_of exam_unicode m).2 ≠ [] →
        is_Some (letters_of (@capture_of exam_unicode m).1 answers))) ∧
  (∀ e, @_extract_answers_section exam_unicode twice_answered = Raise e → e = ValueError).
Proof.
  apply (@later_pattern_replaces exam_unicode twice_answered).
  - vm_compute. reflexivity.
  - vm_compute. reflexivity.
Defined.

Example twice_answered_captures :
  @cascade_captures exam_unicode (@answer_region exam_unicode twice_answered)
    = [(1%Z, utf8 "A"); (3%Z, utf8 "D"); (1%Z, utf8 "B"); (2%Z, utf8 "C")] ∧
  ∃ answers,
    @_extract_answers_section exam_unicode twice_answered = Ok answers ∧
    letters_of 1 answers = Some (utf8 "B") ∧
    letters_of 2 answers = Some (utf8 "C") ∧
    letters_of 3 answers = Some (utf8 "D").
Proof.
  split; [vm_compute; reflexivity|].
  eexists. split_and!; vm_compute; reflexivity.
Qed.

(** The spaced appendix has pairs in its single-choice sub-region. *)
Lemma spaced_layout_authoritative_witness :
  (@short_numbers exam_unicode spaced_appendix →
   ∃ answers,
     @_try_extract_spaced_answers exam_unicode (@answer_region exam_unicode spaced_appendix) ∅
       = Ok (answers, true) ∧
     @_extract_answers_section exam_unicode spaced_appendix = Ok answers) ∧
  (∀ answers found,
     @_try_extract_spaced_answers exam_unicode (@answer_region exam_unicode spaced_appendix) ∅
       = Ok (answers, found) →
     found = true ∧ @_extract_answers_section exam_unicode spaced_appendix = Ok answers) ∧
  (∀ e,
     @_try_extract_spaced_answers exam_unicode (@answer_region exam_unicode spaced_appendix) ∅
       = Raise e →
     e = ValueError ∧ @_extract_answers_section exam_unicode spaced_appendix = Raise e).
Proof.
  apply (@spaced_layout_authoritative exam_unicode spaced_appendix).
  left. vm_compute. discriminate.
Defined.

(** C3.  [max_single] is the largest number holding a one-letter answer (0
    when there is none); every pair of the multi-choice sub-region is stored
    under [max_single] plus its number, the last pair winning for a repeated
    number, and the other numbers keep their letters; the pass returns when
    every number of the sub-region is within the limit of [int], and raises
    nothing but [ValueError].  With 20 single-choice answers numbered 1 to 20
    and 10 multi-choice answers numbered 1 to 10, [max_single] is 20 and the
    multi-choice answers are under 21 to 30. *)
Theorem offset_correction :
  (∀ (U : Unicode) (answers : gmap Z answer_info),
     (∀ k info, answers !! k = Some info → one_letter info = true →
                (k ≤ max_single answers)%Z) ∧
     (max_single answers = 0%Z ∨
      ∃ info, answers !! max_single answers = Some info ∧ one_letter info = true)) ∧
  (∀ (U : Unicode) (answer_section : list N) (answers : gmap Z answer_info) (total : nat),
     ∃ ps,
       region_pairs multi_region_re multi_pair_re answer_section = Ok ps ∧
       (Forall (λ p, length p.1 ≤ int_max_str_digits) ps →
        ∃ answers' total', multi_pass answer_section (answers, total) = Ok (answers', total')) ∧
       (∀ answers' total',
          multi_pass answer_section (answers, total) = Ok (answers', total') →
          ∀ k, letters_of k answers' =
                 match last_capture k
                         (map (λ p, ((max_single answers + number_of p.1)%Z, p.2)) ps) with
                 | Some letters => Some letters
                 | None => letters_of k answers
                 end) ∧
       (∀ e, multi_pass answer_section (answers, total) = Raise e → e = ValueError)) ∧
  (∃ singles answers,
     @single_pass exam_unicode (@answer_region exam_unicode spaced_appendix) (∅, 0)
       = Ok (singles, 20) ∧
     max_single singles = 20%Z ∧
     @_extract_answers_section exam_unicode spaced_appendix = Ok answers ∧
     size answers = 30 ∧
     (λ n, letters_of n answers) <$> seqZ 1 20
       = (λ s, Some (utf8 s)) <$> ["D"; "B"; "A"; "D"; "C"; "A"; "A"; "C"; "C"; "B";
                                    "D"; "B"; "A"; "D"; "C"; "A"; "A"; "C"; "C"; "B"] ∧
     (λ n, letters_of n answers) <$> seqZ 21 10
       = (λ s, Some (utf8 s)) <$> ["ABCE"; "ACE"; "ABCD"; "AB"; "CD";
                                    "BCE"; "ADE"; "ABD"; "AC"; "DE"]).
Proof.
  split_and!.
  - intros U answers. apply max_single_spec.
  - intros U answer_section answers total.
    destruct (multi_pass_ok answer_section answers total) as (ps & Hps & _ & Hpass).
    exists ps. split; [done|].
    apply returns_spec in Hpass as (Hok & Hval & Hraise). split_and!.
    + intros Hshort. destruct (Hok Hshort) as ([answers' total'] & Heq & _). eauto.
    + intros answers' total' Heq k.
      destruct (Hval _ Heq) as (total'' & [= -> _] & _). apply letters_of_absorb.
    + intros e He. by destruct (Hraise e He).
  - do 2 eexists. split_and!; vm_compute; reflexivity.
Qed.

(** ** Shapes of groups *)

Section GroupShapes.
Context `{Unicode} (fl : flags).

Lemma iter_mono n (P Q : mstate → mstate → Prop) :
  (∀ st st', P st st' → Q st st') → ∀ st st', iter n P st st' → iter n Q st st'.
Proof.
  intros HPQ. induction n as [|n IH]; simpl; intros st st'; [done|].
  intros (mid & HP & Hit). eauto.
Qed.

Lemma unit_pred_reach u p st st' :
  unit_pred fl u = Some p → reach fl u st st' → step p st st'.
Proof. destruct u; simpl; try discriminate; by intros [= <-]. Qed.

(** What holds of the text of every body of group [g] holds of group [g]
    at the end of a match. *)
Lemma reach_group_shape g (shape : re → bool) (Q : list N → Prop) :
  (∀ a st mid, shape a = true → reach fl a st mid →
               Q (take (pos mid - pos st) (rest st))) →
  ∀ r, group_shape g shape r = true →
  ∀ st st', reach fl r st st' →
    (∀ s, assoc g (caps st) = Some s → Q s) →
    ∀ s, assoc g (caps st') = Some s → Q s.
Proof.
  intros Hshape.
  induction r as [| c | neg items | | | | | | | a IHa b IHb | a IHa b IHb
                  | greedy lo hi a IHa | n a IHa | positive a IHa];
    simpl; intros Hg st st';
    try (intros Hs; by rewrite (step_caps _ _ _ Hs));
    try (by intros [_ ->]).
  - by intros ->.
  - apply andb_true_iff in Hg as [Hga Hgb]. intros (mid & Ha & Hb) Hst. eauto.
  - apply andb_true_iff in Hg as [Hga Hgb]. intros [Ha|Hb]; eauto.
  - intros (n & _ & Hit) Hst.
    eapply (iter_preserves (λ st, ∀ s, assoc g (caps st) = Some s → Q s)); eauto.
  - intros (mid & Ha & ->) Hst s. simpl. destruct (n =? g)%nat eqn:E.
    + intros [= <-]. eauto.
    + intros Hs. exact (IHa Hg st mid Ha Hst s Hs).
  - destruct positive.
    + intros (mid & Ha & ->) Hst. simpl. eauto.
    + by intros ->.
Qed.

Lemma match_of_group_shape g (shape : re → bool) (Q : list N → Prop) r m :
  (∀ a st mid, shape a = true → reach fl a st mid →
               Q (take (pos mid - pos st) (rest st))) →
  group_shape g shape r = true → sets g r = true → g ≠ 0 →
  match_of fl r m → ∃ s, group m g = Some s ∧ Q s.
Proof.
  intros Hshape Hg Hsets Hne Hm.
  destruct (match_of_group fl r g m Hsets Hm Hne) as [s Hs].
  exists s. split; [done|].
  destruct Hm as (st0 & st' & H0 & Hr & Hc).
  destruct g as [|g]; [done|]. simpl in Hs. rewrite Hc in Hs.
  eapply (reach_group_shape (S g) shape Q Hshape r Hg st0 st' Hr); [|done].
  intros s'. by rewrite H0.
Qed.

(** A group that is a run of [u] holds one or more characters passing the
    test of [u]. *)
Lemma run_of_text u p a st mid :
  unit_pred fl u = Some p → run_of u a = true → reach fl a st mid →
  take (pos mid - pos st) (rest st) ≠ [] ∧
  Forall (λ c, p c = true) (take (pos mid - pos st) (rest st)).
Proof.
  intros Hu Hrun Hr.
  assert (Hit : ∃ n, 0 < n ∧ iter n (step p) st mid).
  { unfold run_of in Hrun. apply orb_true_iff in Hrun as [Heq|Hrep].
    - apply bool_decide_eq_true in Heq as ->. exists 1. split; [lia|].
      simpl. eauto using unit_pred_reach.
    - destruct a as [| | | | | | | | | | | g' [|lo'] hi' b | |]; try discriminate.
      apply bool_decide_eq_true in Hrep as ->. simpl in Hr.
      destruct Hr as (n & Hn & Hit). exists n. split; [lia|].
      eapply iter_mono; [|exact Hit]. intros ? ?. by apply unit_pred_reach. }
  destruct Hit as (n & Hn & Hit).
  destruct (iter_step _ _ _ _ Hit) as (ds & Hlen & Hall & Hrest & Hpos & _).
  rewrite Hrest, Hpos. replace (pos st + n - pos st) with (length ds) by lia.
  rewrite take_app_length. split; [|done]. destruct ds; simpl in *; [lia | done].
Qed.

(** A group that is exactly [u] holds one character passing its test. *)
Lemma unit_text u p a st mid :
  unit_pred fl u = Some p → bool_decide (a = u) = true → reach fl a st mid →
  ∃ c, take (pos mid - pos st) (rest st) = [c] ∧ p c = true.
Proof.
  intros Hu Heq Hr. apply bool_decide_eq_true in Heq as ->.
  apply (unit_pred_reach _ _ _ _ Hu) in Hr as (c & s & Hrest & Hp & ->). simpl.
  exists c. split; [|done]. rewrite Hrest.
  replace (S (pos st) - pos st) with 1 by lia. done.
Qed.
End GroupShapes.

(** ** Type ranges, whatever headers are found *)

Section MoreRanges.
Context `{Unicode}.

Lemma header_count_ok r text m :
  numbered r = true → search no_flags r text = Some m →
  returns (short_numbers text) (declared_count m) (λ n, (0 ≤ n)%Z).
Proof.
  intros Hnum Hs.
  destruct (returns_number no_flags text text r m Hnum)
    as (ds & Hg & _ & Hret);
    [by eapply search_match_of | by eapply search_within | apply segment_refl |].
  unfold declared_count. rewrite Hg. exact Hret.
Qed.

(** [_detect_question_type_ranges] on any text: the ranges of the headers
    found, one after the other from 1 on, each as long as its header
    announces. *)
Lemma detect_ranges_ok (text : list N) :
  returns (short_numbers text) (_detect_question_type_ranges text)
    (λ ranges, ∃ a b c : Z,
       announced single_header text = Ok a ∧ announced multi_header text = Ok b ∧
       announced case_header text = Ok c ∧ (0 ≤ a)%Z ∧ (0 ≤ b)%Z ∧ (0 ≤ c)%Z ∧
       ranges = range_if_found single_header text (SingleChoice, (1, a)%Z) ++
                range_if_found multi_header text (MultiChoice, (a + 1, a + b)%Z) ++
                range_if_found case_header text (CaseType, (a + b + 1, a + b + c)%Z) ∧
       ∀ n : Z, length (List.filter (covers n) ranges)
                = if bool_decide (1 ≤ n ≤ a + b + c)%Z then 1 else 0).
Proof.
  unfold _detect_question_type_ranges, announced, range_if_found.
  destruct (search no_flags single_header text) as [m1|] eqn:H1;
    [pose proof (header_count_ok single_header text m1 eq_refl H1) as R1;
     destruct (declared_count m1) as [a|e1]; [simpl in R1 | exact R1] |];
  (destruct (search no_flags multi_header text) as [m2|] eqn:H2;
    [pose proof (header_count_ok multi_header text m2 eq_refl H2) as R2;
     destruct (declared_count m2) as [b|e2]; [simpl in R2 | exact R2] |]);
  (destruct (search no_flags case_header text) as [m3|] eqn:H3;
    [pose proof (header_count_ok case_header text m3 eq_refl H3) as R3;
     destruct (declared_count m3) as [c|e3]; [simpl in R3 | exact R3] |]);
  unfold range_end; simpl;
  repeat match goal with
         | |- context [(?x =? 0)%Z] => destruct (Z.eqb_spec x 0)
         end.
  all: eexists _, _, _; split_and!; try reflexivity; try lia.
  all: try (repeat f_equal; lia).
  all: intros k; unfold covers; simpl;
       repeat match goal with
              | |- context [(?x <=? ?y)%Z] => destruct (Z.leb_spec x y)
              end; simpl; case_bool_decide; lia.
Qed.
End MoreRanges.

(** ** The question parser *)

Section QuestionParser.
Context `{Unicode}.

Lemma A_E_class c : in_class false [rng "A" "E"] c = true → c ∈ utf8 "ABCDE".
Proof.
  unfold in_class. simpl. rewrite orb_false_r.
  intros [Hlo Hhi]%andb_true_iff. apply N.leb_le in Hlo, Hhi.
  change (ch "A") with 65%N in Hlo. change (ch "E") with 69%N in Hhi.
  change (utf8 "ABCDE") with [65; 66; 67; 68; 69]%N.
  assert (c = 65 ∨ c = 66 ∨ c = 67 ∨ c = 68 ∨ c = 69)%N as Hc by lia.
  rewrite !elem_of_cons. tauto.
Qed.

(** Group 1 of a pattern where it is [[A-E]+]: letters A to E. *)
Lemma letters_group fl r m :
  group_shape 1 (run_of (Cls false [rng "A" "E"])) r = true → sets 1 r = true →
  match_of fl r m → ∃ s, group m 1 = Some s ∧ letters_A_E s.
Proof.
  intros Hshape Hsets Hm.
  destruct (match_of_group_shape fl 1 (run_of (Cls false [rng "A" "E"]))
              (λ s, s ≠ [] ∧ Forall (λ c, in_class false [rng "A" "E"] c = true) s) r m)
    as (s & Hs & Hne & Hall); try done.
  { intros a st mid Ha. by apply (run_of_text fl (Cls false [rng "A" "E"])). }
  exists s. split; [done|]. split; [done|].
  eapply Forall_impl; [exact Hall|]. apply A_E_class.
Qed.

(** Group 1 of a pattern where it is [[A-E]]: one letter A to E. *)
Lemma letter_group fl r m :
  group_shape 1 (λ a, bool_decide (a = Cls false [rng "A" "E"])) r = true → sets 1 r = true →
  match_of fl r m → ∃ k, group m 1 = Some k ∧ option_key k.
Proof.
  intros Hshape Hsets Hm.
  destruct (match_of_group_shape fl 1 (λ a, bool_decide (a = Cls false [rng "A" "E"]))
              (λ s, ∃ c, s = [c] ∧ in_class false [rng "A" "E"] c = true) r m)
    as (s & Hs & c & -> & Hc); try done.
  { intros a st mid Ha. by apply (unit_text fl (Cls false [rng "A" "E"])). }
  exists [c]. split; [done|]. exists c. split; [done | by apply A_E_class].
Qed.

Lemma first_match_search fl patterns text m :
  first_match fl patterns text = Some m →
  ∃ p, p ∈ patterns ∧ search fl p text = Some m.
Proof.
  induction patterns as [|p ps IH]; simpl; [discriminate|].
  destruct (search fl p text) as [m'|] eqn:E.
  - intros [= <-]. exists p. split; [apply list_elem_of_here | done].
  - intros (p' & Hin & Hs)%IH. exists p'. split; [by apply list_elem_of_further | done].
Qed.

Lemma split_head fl r s : ∃ p rest, split fl r s = Some p :: rest.
Proof. unfold split. destruct (finditer fl r s); simpl; eauto. Qed.

Lemma od_set_keys {K V} `{EqDecision K} (k : K) (v : V) d :
  (od_set k v d).*1 = if decide (k ∈ d.*1) then d.*1 else d.*1 ++ [k].
Proof.
  induction d as [|[k' v'] d IH]; simpl; [done|].
  change (list_fmap (K * V)%type K fst d) with (d.*1).
  destruct (decide (k' = k)) as [->|Hne]; simpl.
  - destruct (decide (k ∈ k :: d.*1)) as [_|Hnin]; [done|].
    destruct Hnin. apply list_elem_of_here.
  - change (list_fmap (K * V)%type K fst (od_set k v d)) with ((od_set k v d).*1).
    rewrite IH.
    destruct (decide (k ∈ d.*1)) as [Hin|Hnin], (decide (k ∈ k' :: d.*1)) as [Hin'|Hnin'];
      try done.
    + destruct Hnin'. by apply list_elem_of_further.
    + apply elem_of_cons in Hin' as [->|Hin']; done.
Qed.

Lemma od_set_keys_ok {K V} `{EqDecision K} (P : K → Prop) (k : K) (v : V) d :
  P k → Forall P d.*1 → NoDup d.*1 →
  Forall P (od_set k v d).*1 ∧ NoDup (od_set k v d).*1.
Proof.
  intros Hk Hall Hnd. rewrite od_set_keys. case_decide as Hin; [done|].
  split.
  - apply Forall_app. split; [done | by constructor].
  - apply NoDup_app. split_and!; [done | | apply NoDup_singleton].
    intros x Hx ->%list_elem_of_singleton. done.
Qed.

(** The option loop never raises, touches only the options, and gives each
    option a key that is one letter A to E. *)
Lemma options_loop_ok text ms :
  Forall (match_of no_flags option_pattern) ms →
  ∀ q, Forall option_key (q_options q).*1 → NoDup (q_options q).*1 →
  ∃ q', options_loop text ms q = Ok q' ∧
        q_number q' = q_number q ∧ q_type q' = q_type q ∧
        q_question q' = q_question q ∧ q_answer q' = q_answer q ∧
        q_analysis q' = q_analysis q ∧
        q_knowledge_points q' = q_knowledge_points q ∧
        q_difficulty q' = q_difficulty q ∧
        Forall option_key (q_options q').*1 ∧ NoDup (q_options q').*1.
Proof.
  induction 1 as [|m ms Hm _ IH]; intros q Hkeys Hnd.
  - exists q. by split_and!.
  - cbn [options_loop].
    destruct (letter_group no_flags option_pattern m eq_refl eq_refl Hm) as (k & -> & Hk).
    cbn [need res_bind].
    destruct (split_head no_flags option_cut_re
                (strip (slice text (m_end m)
                   match ms with m' :: _ => m_start m' | [] => length text end)))
      as (p & rest & ->).
    cbn [head need res_bind].
    destruct (od_set_keys_ok option_key k (strip p) (q_options q) Hk Hkeys Hnd) as [Hk' Hnd'].
    destruct (IH (set_option k (strip p) q) Hk' Hnd') as (q' & -> & Hf).
    exists q'. split; [done|]. exact Hf.
Qed.

Lemma extract_question_and_options_ok q text :
  Forall option_key (q_options q).*1 → NoDup (q_options q).*1 →
  ∃ q', _extract_question_and_options q text = Ok q' ∧
        q_number q' = q_number q ∧ q_type q' = q_type q ∧
        is_Some (q_question q') ∧ q_answer q' = q_answer q ∧
        q_analysis q' = q_analysis q ∧
        q_knowledge_points q' = q_knowledge_points q ∧
        q_difficulty q' = q_difficulty q ∧
        Forall option_key (q_options q').*1 ∧ NoDup (q_options q').*1.
Proof.
  intros Hkeys Hnd. unfold _extract_question_and_options.
  set (text' := sub no_flags type_tag_re [] text).
  destruct (finditer no_flags option_pattern text') as [|m ms] eqn:E.
  - eexists. split; [done|]. by split_and!.
  - destruct (options_loop_ok text' (m :: ms)) with
      (q := set_question (strip (take (m_start m) text')) q)
      as (q' & -> & Hn & Ht & Hq & Ha & Han & Hkp & Hd & Hk' & Hnd'); try done.
    { apply Forall_forall. intros m' Hm'. apply (finditer_match_of no_flags _ text').
      by rewrite E. }
    exists q'. split; [done|]. rewrite Hq. by split_and!.
Qed.

Lemma inline_answer_patterns_letters :
  Forall (λ p, group_shape 1 (run_of (Cls false [rng "A" "E"])) p = true ∧ sets 1 p = true)
    inline_answer_patterns.
Proof. unfold inline_answer_patterns. repeat (constructor; [by vm_compute|]). constructor. Qed.

(** The inline answer, when one is found, is made of letters A to E; the
    other fields are untouched. *)
Lemma extract_answer_ok q text :
  same_question q (_extract_answer q text) ∧
  q_analysis (_extract_answer q text) = q_analysis q ∧
  (q_answer (_extract_answer q text) = q_answer q ∨
   ∃ a, q_answer (_extract_answer q text) = Some a ∧ letters_A_E a).
Proof.
  unfold _extract_answer.
  destruct (first_match no_flags inline_answer_patterns text) as [m|] eqn:E.
  - split; [done|]. split; [done|]. right. simpl.
    apply first_match_search in E as (p & Hp & Hs).
    pose proof inline_answer_patterns_letters as Hall.
    rewrite Forall_forall in Hall. destruct (Hall p Hp) as [Hshape Hsets].
    apply (letters_group no_flags p m Hshape Hsets). eapply search_match_of, Hs.
  - split; [done|]. split; [done|]. by left.
Qed.

Lemma extract_analysis_ok q text :
  ∃ q', _extract_analysis q text = Ok q' ∧ same_question q q' ∧ q_answer q' = q_answer q.
Proof.
  unfold _extract_analysis.
  destruct (first_match dotall inline_analysis_patterns text) as [m|] eqn:E.
  - apply first_match_search in E as (p & Hp & Hs).
    assert (Hsets : sets 1 p = true).
    { revert Hp. unfold inline_analysis_patterns. rewrite !elem_of_cons.
      intros [->|[->|[->|Hnil]]]; [done | done | done | by apply elem_of_nil in Hnil]. }
    destruct (match_of_group dotall p 1 m Hsets) as [g ->]; [eapply search_match_of, Hs | done |].
    eexists. split; [done|]. done.
  - exists q. done.
Qed.

Lemma is_multi_choice_ok text : ∃ b, _is_multi_choice text = Ok b.
Proof.
  unfold _is_multi_choice.
  destruct (search no_flags answer_colon_re text) as [m|] eqn:E; [|eauto].
  destruct (match_of_group no_flags answer_colon_re 1 m eq_refl) as [g ->];
    [eapply search_match_of, E | done |]. simpl. eauto.
Qed.

(** One segment: never an exception once the number converts, and a
    well-formed question or [None]. *)
Lemma parse_single_question_ok ds n piece type_ranges :
  int ds = Ok n → (0 ≤ n)%Z →
  ∃ r, _parse_single_question (Some ds) (Some piece) type_ranges = Ok r ∧
       ∀ q, r = Some q → well_formed_question q ∧ typed_by_range type_ranges q.
Proof.
  intros Hint Hpos. unfold _parse_single_question. cbn [need res_bind].
  rewrite Hint. cbn [res_bind].
  assert (Htype : ∃ t,
    match type_by_range n type_ranges with
    | Some t => Ok t
    | None =>
        let* multi :=
          if contains (utf8 "（多选题）") piece || contains (utf8 "【多选题】") piece then Ok true
          else _is_multi_choice piece in
        if multi then Ok MultiChoice
        else if contains (utf8 "（案例题）") piece || contains (utf8 "【案例题】") piece
                || contains (utf8 "背景资料") piece
        then Ok CaseType
        else Ok SingleChoice
    end = Ok t ∧ ∀ t', type_by_range n type_ranges = Some t' → t = t').
  { destruct (type_by_range n type_ranges) as [t|].
    - exists t. split; [done|]. by intros t' [= ->].
    - assert (Hm : ∃ b, (if contains (utf8 "（多选题）") piece || contains (utf8 "【多选题】") piece
                         then Ok true else _is_multi_choice piece) = Ok b).
      { match goal with |- context [if ?c then _ else _] => destruct c end;
          [eauto | apply is_multi_choice_ok]. }
      destruct Hm as (b & ->). cbn [res_bind].
      destruct b; [exists MultiChoice; split; [done | discriminate]|].
      match goal with |- context [if ?c then _ else _] => destruct c end;
        eexists; (split; [done | discriminate]). }
  destruct Htype as (t & -> & Ht). cbn [res_bind].
  destruct (extract_question_and_options_ok (set_type t (set_number n new_question)) piece)
    as (q1 & -> & Hn1 & Ht1 & Hq1 & Ha1 & Han1 & Hkp1 & Hd1 & Hk1 & Hnd1);
    [constructor | constructor |].
  cbn [res_bind].
  destruct (extract_answer_ok q1 piece) as ((Hn2 & Ht2 & Hq2 & Ho2 & Hkp2 & Hd2) & Han2 & Ha2).
  destruct (extract_analysis_ok (_extract_answer q1 piece) piece)
    as (q3 & -> & (Hn3 & Ht3 & Hq3 & Ho3 & Hkp3 & Hd3) & Ha3).
  cbn [res_bind].
  destruct (q_question q3) as [[|c stem]|] eqn:Hstem; eexists; (split; [done|]);
    intros q [= <-].
  split.
  - split_and!.
    + exists n. split; [|done]. by rewrite Hn3, Hn2, Hn1.
    + rewrite Ht3, Ht2, Ht1. by eexists.
    + eauto.
    + by rewrite Ho3, Ho2.
    + by rewrite Ho3, Ho2.
    + intros a. rewrite Ha3. destruct Ha2 as [Heq|(a' & -> & Hl)].
      * rewrite Heq, Ha1. discriminate.
      * by intros [= <-].
    + by rewrite Hkp3, Hkp2, Hkp1.
    + by rewrite Hd3, Hd2, Hd1.
  - intros n' t'. rewrite Hn3, Hn2, Hn1. simpl. intros [= <-] Hr.
    rewrite Ht3, Ht2, Ht1. simpl. by rewrite (Ht _ Hr).
Qed.

Lemma split_parts_cons1 s last m ms :
  ∃ p, drop 1 (split_parts 1 s last (m :: ms))
       = group m 1 :: Some p :: drop 1 (split_parts 1 s (m_end m) ms).
Proof. simpl. destruct ms; simpl; eauto. Qed.

(** The loop over the parts of a split by a numbered pattern with one group. *)
Lemma questions_loop_ok t r s type_ranges :
  numbered r = true →
  ∀ ms last acc,
    Forall (λ m, match_of no_flags r m ∧ groups_within t m) ms →
    Forall (λ q, well_formed_question q ∧ typed_by_range type_ranges q) acc →
    returns (short_numbers t)
      (questions_loop (drop 1 (split_parts 1 s last ms)) type_ranges acc)
      (λ qs, Forall (λ q, well_formed_question q ∧ typed_by_range type_ranges q) qs ∧
             length qs ≤ length acc + length ms).
Proof.
  intros Hnum ms. induction ms as [|m ms IH]; intros last acc Hms Hacc.
  - simpl. split; [done | lia].
  - apply Forall_cons in Hms as [[Hm Hin] Hms].
    destruct (split_parts_cons1 s last m ms) as (p & ->).
    destruct (returns_number no_flags t t r m Hnum Hm Hin (segment_refl t))
      as (ds & -> & _ & Hret).
    cbn [questions_loop].
    unfold _parse_single_question at 1. cbn [need res_bind].
    destruct (int ds) as [n|e] eqn:Hint; [|exact Hret]. simpl in Hret.
    destruct (parse_single_question_ok ds n p type_ranges Hint Hret) as (res & Hres & Hq).
    unfold _parse_single_question in Hres at 1. cbn [need res_bind] in Hres.
    rewrite Hint in Hres. rewrite Hres. cbn [res_bind].
    eapply returns_mono; [done| |apply (IH (m_end m)); [done|]].
    + intros qs _ [Hqs Hlen]. split; [done|].
      destruct res; rewrite ?length_app in Hlen; simpl in *; lia.
    + destruct res as [q|]; [|done]. apply Forall_app. split; [done|].
      constructor; [|constructor]. by apply Hq.
Qed.

(** [_parse_questions] as a whole: the numbers it converts are those of the
    section headers, read in the text, and those of the questions, read in
    the main text. *)
Lemma parse_questions_ok text :
  returns (short_numbers text ∧ short_numbers (main_text_of text)) (_parse_questions text)
    (λ qs, ∃ type_ranges,
       _detect_question_type_ranges text = Ok type_ranges ∧
       Forall (λ q, well_formed_question q ∧ typed_by_range type_ranges q) qs ∧
       length qs ≤ length (finditer no_flags question_pattern (main_text_of text))
                   `max` length (finditer no_flags question_pattern_nopunct
                                   (main_text_of text))).
Proof.
  unfold _parse_questions. eapply returns_bind.
  - eapply returns_mono; [| |apply detect_ranges_ok]; [by intros [? _]|].
    intros ranges _ Hranges. exact Hranges.
  - intros ranges Hdetect _. unfold question_parts, split.
    change (ngroups question_pattern) with 1.
    change (ngroups question_pattern_nopunct) with 1.
    destruct (_ <? 10)%nat.
    + eapply returns_mono;
        [| |apply (questions_loop_ok (main_text_of text) question_pattern_nopunct
                     (main_text_of text) ranges eq_refl
                     (finditer no_flags question_pattern_nopunct (main_text_of text)) 0 [])];
        [by intros [_ ?] | | apply finditer_matches, segment_refl | constructor].
      intros qs _ [Hqs Hlen]. exists ranges. split_and!; [done | done | simpl in Hlen; lia].
    + eapply returns_mono;
        [| |apply (questions_loop_ok (main_text_of text) question_pattern
                     (main_text_of text) ranges eq_refl
                     (finditer no_flags question_pattern (main_text_of text)) 0 [])];
        [by intros [_ ?] | | apply finditer_matches, segment_refl | constructor].
      intros qs _ [Hqs Hlen]. exists ranges. split_and!; [done | done | simpl in Hlen; lia].
Qed.

End QuestionParser.

(** ** The answer map is well formed *)

Section AnswerMapInvariant.
Context `{Unicode}.

Lemma for_each_invariant {A S} (I : S → Prop) (xs : list A) (body : A → S → res S) :
  (∀ x s s', x ∈ xs → I s → body x s = Ok s' → I s') →
  ∀ s s', I s → for_each xs body s = Ok s' → I s'.
Proof.
  induction xs as [|x xs IH]; intros Hbody s s' Hs; simpl.
  - by intros [= <-].
  - intros (s1 & H1 & H2)%res_bind_ok.
    apply (IH (λ y t t' Hy, Hbody y t t' (list_elem_of_further _ _ _ Hy)) s1 s'); [|done].
    eapply Hbody; [apply list_elem_of_here | exact Hs | exact H1].
Qed.

Lemma put_answer_wf num answer answers :
  (0 ≤ num)%Z → letters_A_E answer → well_formed_answers answers →
  well_formed_answers (put_answer num answer answers).
Proof.
  intros Hnum Hl Hwf n info. unfold put_answer. rewrite lookup_insert.
  case_decide as Hn; [|apply Hwf]. subst n. intros [= <-]. simpl.
  split_and!; [done | eauto |].
  intros an. destruct (answers !! num) as [old|] eqn:E; [|discriminate]. simpl.
  by apply (Hwf num old E).
Qed.

Lemma record_answer_wf num answer st st' :
  (0 ≤ num)%Z → letters_A_E answer → well_formed_answers st.1 →
  record_answer num answer st = Ok st' → well_formed_answers st'.1.
Proof.
  destruct st as [answers total]. intros Hnum Hl Hwf. rewrite record_answer_eq.
  intros [= <-]. by apply put_answer_wf.
Qed.

Lemma max_single_nonneg (answers : gmap Z answer_info) : (0 ≤ max_single answers)%Z.
Proof.
  unfold max_single.
  apply (map_fold_weak_ind (λ r (_ : gmap Z answer_info), (0 ≤ r)%Z)); [done|].
  intros i x m r _ Hr. destruct (one_letter x); lia.
Qed.

(** Group 2 of the pairs of the spaced layout: letters A to E. *)
Lemma pair_letters pair_re text :
  group_shape 2 (run_of (Cls false [rng "A" "E"])) pair_re = true → sets 2 pair_re = true →
  Forall (λ p, letters_A_E p.2) (findall2 no_flags pair_re text).
Proof.
  intros Hshape Hsets. unfold findall2. apply Forall_map, Forall_forall. intros m Hm.
  apply finditer_match_of in Hm.
  destruct (match_of_group_shape no_flags 2 (run_of (Cls false [rng "A" "E"]))
              (λ s, s ≠ [] ∧ Forall (λ c, in_class false [rng "A" "E"] c = true) s) pair_re m)
    as (s & Hs & Hne & Hall); try done.
  { intros a st mid Ha. by apply (run_of_text no_flags (Cls false [rng "A" "E"])). }
  simpl in *. rewrite Hs. simpl. split; [done|].
  eapply Forall_impl; [exact Hall|]. apply A_E_class.
Qed.

Lemma spaced_loop_wf (f : Z → Z) (ps : list (list N * list N)) st st' :
  (∀ n, (0 ≤ n)%Z → (0 ≤ f n)%Z) →
  Forall (λ p, letters_A_E p.2) ps →
  well_formed_answers st.1 →
  for_each ps
    (λ '(num_str, answer) st, let* num := int num_str in record_answer (f num) answer st) st
  = Ok st' →
  well_formed_answers st'.1.
Proof.
  intros Hf Hps Hwf Hrun.
  eapply (for_each_invariant (λ st, well_formed_answers st.1)); [|exact Hwf|exact Hrun].
  intros [num_str answer] s s' Hin Hs (num & Hint & Hrec)%res_bind_ok.
  rewrite Forall_forall in Hps.
  eapply record_answer_wf; [|apply (Hps _ Hin)|exact Hs|exact Hrec].
  apply Hf. eapply int_nonneg, Hint.
Qed.

Lemma region_pairs_letters region_re pair_re answer_section ps :
  group_shape 2 (run_of (Cls false [rng "A" "E"])) pair_re = true → sets 2 pair_re = true →
  region_pairs region_re pair_re answer_section = Ok ps →
  Forall (λ p, letters_A_E p.2) ps.
Proof.
  intros Hshape Hsets. unfold region_pairs.
  destruct (search dotall region_re answer_section) as [m|]; [|by intros [= <-]].
  intros (txt & _ & [= <-])%res_bind_ok. by apply pair_letters.
Qed.

Lemma try_extract_spaced_wf answer_section answers found :
  _try_extract_spaced_answers answer_section ∅ = Ok (answers, found) →
  well_formed_answers answers.
Proof.
  unfold _try_extract_spaced_answers.
  intros (st1 & H1 & ([answers2 total2] & H2 & [= <- _])%res_bind_ok)%res_bind_ok.
  unfold single_pass in H1. apply res_bind_ok in H1 as (ps1 & Hps1 & H1).
  unfold multi_pass in H2. apply res_bind_ok in H2 as (ps2 & Hps2 & H2).
  assert (Hwf1 : well_formed_answers st1.1).
  { eapply (spaced_loop_wf (λ n, n)); [done | | | exact H1].
    - by eapply region_pairs_letters, Hps1.
    - intros n info. simpl. by rewrite lookup_empty. }
  change answers2 with ((answers2, total2).1).
  eapply (spaced_loop_wf (λ n, (max_single st1.1 + n)%Z)); [| | exact Hwf1 | exact H2].
  - intros n Hn. pose proof (max_single_nonneg st1.1). lia.
  - by eapply region_pairs_letters, Hps2.
Qed.

Lemma clean_answer_letters s : Forall (λ c, c ∈ utf8 "ABCDE") (clean_answer s).
Proof.
  unfold clean_answer. apply Forall_forall. intros c Hc.
  by apply list_elem_of_filter in Hc as [Hc _].
Qed.

Lemma answer_step_wf m st st' :
  well_formed_answers st.1 → answer_step m st = Ok st' → well_formed_answers st'.1.
Proof.
  destruct st as [answers total]. unfold answer_step. simpl. intros Hwf.
  intros (g1 & _ & (num & Hint & (g2 & _ & Hstep)%res_bind_ok)%res_bind_ok)%res_bind_ok.
  pose proof (int_nonneg _ _ Hint) as Hnum.
  pose proof (clean_answer_letters (strip g2)) as Hcl.
  destruct (clean_answer (strip g2)) as [|c answer] eqn:Hclean.
  - destruct (answers !! num); injection Hstep as <-; done.
  - pose proof (record_answer_eq num (c :: answer) answers total) as Hrec.
    unfold record_answer in Hrec. rewrite Hrec in Hstep. injection Hstep as <-.
    simpl. by apply put_answer_wf.
Qed.

Lemma analysis_step_wf pattern m answers answers' :
  well_formed_answers answers → analysis_step pattern m answers = Ok answers' →
  well_formed_answers answers'.
Proof.
  intros Hwf. unfold analysis_step.
  destruct (ngroups pattern =? 2)%nat; [|by intros [= <-]].
  intros (g1 & _ & (num & Hint & (g2 & _ & Hstep)%res_bind_ok)%res_bind_ok)%res_bind_ok.
  destruct (answers !! num) as [info|] eqn:E; [|by injection Hstep as <-].
  unfold store_analysis in Hstep. rewrite E in Hstep. simpl in Hstep. injection Hstep as <-.
  intros n info'. rewrite lookup_insert. case_decide as Hn; [|apply Hwf].
  subst n. intros [= <-]. simpl. destruct (Hwf num info E) as (Hnum & Ha & _).
  split_and!; [done | done |]. intros an [= <-]. rewrite length_take. lia.
Qed.

Lemma pattern_cascade_wf answer_section answers answers' :
  well_formed_answers answers → pattern_cascade answer_section answers = Ok answers' →
  well_formed_answers answers'.
Proof.
  intros Hwf. unfold pattern_cascade.
  intros ([answers1 total1] & H1 & H2)%res_bind_ok.
  assert (Hwf1 : well_formed_answers answers1).
  { change answers1 with ((answers1, total1).1).
    eapply (for_each_invariant (λ st, well_formed_answers st.1)); [| |exact H1]; [|exact Hwf].
    intros pattern s s' _ Hs Hrun.
    eapply (for_each_invariant (λ st, well_formed_answers st.1)); [|exact Hs|exact Hrun].
    intros m t t' _. apply answer_step_wf. }
  eapply (for_each_invariant well_formed_answers); [|exact Hwf1|exact H2].
  intros pattern s s' _ Hs Hrun.
  eapply (for_each_invariant well_formed_answers); [|exact Hs|exact Hrun].
  intros m t t' _ Ht. by apply analysis_step_wf.
Qed.

(** The map that [_extract_answers_section] returns is well formed. *)
Lemma extract_answers_wf text answers :
  _extract_answers_section text = Ok answers → well_formed_answers answers.
Proof.
  unfold _extract_answers_section.
  intros ([answers1 found] & Htry & Hrest)%res_bind_ok.
  pose proof (try_extract_spaced_wf _ _ _ Htry) as Hwf.
  destruct found; [by injection Hrest as <-|].
  by eapply pattern_cascade_wf.
Qed.

Lemma extract_answers_returns text :
  returns (short_numbers text) (_extract_answers_section text) well_formed_answers.
Proof.
  destruct (extract_answers_ok text) as (ps1 & ps2 & _ & _ & Hret).
  eapply returns_mono; [done| |exact Hret].
  intros answers Heq _. by eapply extract_answers_wf.
Qed.
End AnswerMapInvariant.

(** ** Questions with a separate answer appendix *)

Section SeparateAnswers.
Context `{Unicode}.

Lemma attach_answer_from answers q : answered_from answers q (attach_answer answers q).
Proof.
  unfold answered_from, attach_answer.
  destruct (q_number q) as [n|] eqn:Hn; simpl; [|done].
  destruct (answers !! n) as [info|] eqn:E; simpl; [|done].
  split; [|done]. unfold same_question. simpl. by rewrite Hn.
Qed.

Lemma answered_from_wf answers q q' :
  well_formed_answers answers → well_formed_question q → answered_from answers q q' →
  well_formed_question q'.
Proof.
  intros Hwf (Hn & Ht & Hq & Hk & Hnd & Ha & Hkp & Hd)
    [(En & Et & Eq & Eo & Ekp & Ed) Hfrom].
  unfold well_formed_question. rewrite En, Et, Eq, Eo, Ekp, Ed.
  split_and!; try done.
  intros a Hq'. destruct (q_number q) as [n|]; simpl in Hfrom.
  - destruct (answers !! n) as [info|] eqn:E.
    + destruct Hfrom as [Hans _]. rewrite Hans in Hq'.
      destruct (Hwf n info E) as (_ & (a' & Ha' & Hl) & _). congruence.
    + destruct Hfrom as [Hans _]. apply Ha. congruence.
  - destruct Hfrom as [Hans _]. apply Ha. congruence.
Qed.

Lemma separate_answers_ok text :
  returns (short_numbers text ∧ short_numbers (main_text_of text))
    (_parse_questions_with_separate_answers text)
    (λ qs', ∃ qs answers,
       _parse_questions text = Ok qs ∧ _extract_answers_section text = Ok answers ∧
       Forall2 (answered_from answers) qs qs' ∧ Forall well_formed_question qs').
Proof.
  unfold _parse_questions_with_separate_answers.
  eapply returns_bind; [apply parse_questions_ok|].
  intros qs Hqs (ranges & _ & Hwf & _).
  eapply returns_bind.
  - eapply returns_mono; [| |apply extract_answers_returns]; [by intros [? _]|].
    intros answers _ Hwfa. exact Hwfa.
  - intros answers Hans Hwfa. apply returns_ok.
    exists qs, answers. split_and!; try done.
    + clear. induction qs as [|q qs IH]; simpl; constructor; [apply attach_answer_from | done].
    + apply Forall_map. eapply Forall_impl; [exact Hwf|].
      intros q [Hq _]. simpl. eapply answered_from_wf; eauto using attach_answer_from.
Qed.
End SeparateAnswers.

(** ** The case parser *)

Section CaseParserFacts.
Context `{Unicode}.

Lemma numeral_value c :
  in_class false (oneof "一二三四五六七八九十") c = true →
  ∃ v, od_get [c] chinese_to_arabic = Some v ∧ (1 ≤ v ≤ 10)%Z.
Proof.
  unfold in_class.
  let l := eval vm_compute in (oneof "一二三四五六七八九十") in
    change (oneof "一二三四五六七八九十") with l.
  cbn [existsb citem_test xorb].
  repeat match goal with
         | |- context [(c =? ?d)%N] => destruct (N.eqb_spec c d) as [->|?]
         end; simpl; try discriminate; intros _;
    (eexists; split; [vm_compute; reflexivity | lia]).
Qed.

Lemma chinese_to_arabic_range k v :
  od_get k chinese_to_arabic = Some v → (1 ≤ v ≤ 10)%Z.
Proof.
  unfold chinese_to_arabic. cbn [od_get].
  repeat case_decide; intros [= <-]; lia.
Qed.

(** Group 1 of a case marker is one numeral, of value 1 to 10. *)
Lemma case_marker_numeral p m :
  p ∈ case_patterns → match_of no_flags p m →
  ∃ c v, group m 1 = Some [c] ∧ od_get [c] chinese_to_arabic = Some v ∧ (1 ≤ v ≤ 10)%Z.
Proof.
  intros Hp Hm.
  assert (Hshape : group_shape 1 (λ a, bool_decide (a = numeral)) p = true ∧ sets 1 p = true).
  { revert Hp. unfold case_patterns. rewrite !elem_of_cons.
    intros [->|[->|[->|[->|Hnil]]]]; [by vm_compute.. | by apply elem_of_nil in Hnil]. }
  destruct Hshape as [Hshape Hsets].
  destruct (match_of_group_shape no_flags 1 (λ a, bool_decide (a = numeral))
              (λ s, ∃ c, s = [c] ∧ in_class false (oneof "一二三四五六七八九十") c = true) p m)
    as (s & Hs & c & -> & Hc); try done.
  { intros a st mid Ha. by apply (unit_text no_flags numeral). }
  destruct (numeral_value c Hc) as (v & Hv & Hrange). eauto.
Qed.

Lemma case_markers_match case_section m :
  m ∈ case_markers case_section → ∃ p, p ∈ case_patterns ∧ match_of no_flags p m.
Proof.
  unfold case_markers, case_patterns.
  set (all1 := finditer no_flags case_pattern1 case_section).
  assert (H1 : ∀ x, x ∈ all1 → match_of no_flags case_pattern1 x)
    by (intros x; apply finditer_match_of).
  assert (Hf : ∀ x, x ∈ filter (λ m, marker_confirmed case_section m) all1 →
                    match_of no_flags case_pattern1 x).
  { intros x [_ Hx]%list_elem_of_filter. by apply H1. }
  destruct (filter _ all1) as [|f fs].
  - destruct all1 as [|a1 as1].
    + destruct (finditer no_flags case_pattern2 case_section) as [|a2 as2] eqn:E2.
      * destruct (finditer no_flags case_pattern3 case_section) as [|a3 as3] eqn:E3.
        -- intros Hm%finditer_match_of. exists case_pattern4. split; [rewrite !elem_of_cons; auto 10 | done].
        -- intros Hm. exists case_pattern3. split; [rewrite !elem_of_cons; auto 10|].
           apply (finditer_match_of no_flags _ case_section). by rewrite E3.
      * intros Hm. exists case_pattern2. split; [rewrite !elem_of_cons; auto 10|].
        apply (finditer_match_of no_flags _ case_section). by rewrite E2.
    + intros Hm. exists case_pattern1. split; [rewrite !elem_of_cons; auto 10 | by apply H1].
  - intros Hm. exists case_pattern1. split; [rewrite !elem_of_cons; auto 10 | by apply Hf].
Qed.

Lemma score_numerals_wf score_val case_nums score_info :
  (0 ≤ score_val)%Z →
  (∀ k v, score_info !! k = Some v → (1 ≤ k ≤ 10)%Z ∧ (0 ≤ v)%Z) →
  ∀ k v, score_numerals score_val case_nums score_info !! k = Some v →
         (1 ≤ k ≤ 10)%Z ∧ (0 ≤ v)%Z.
Proof.
  intros Hval. unfold score_numerals. revert score_info.
  induction case_nums as [|cn cns IH]; intros score_info Hinfo; cbn [foldl]; [exact Hinfo|].
  apply IH. destruct (od_get cn chinese_to_arabic) as [num|] eqn:E; [|done].
  destruct (num =? 0)%Z; [done|].
  intros k v. rewrite lookup_insert. case_decide as Hk; [|apply Hinfo].
  subst k. intros [= <-]. split; [|done]. by apply chinese_to_arabic_range in E.
Qed.

(** [_extract_score_info] gives scores that are not negative to case
    numbers from 1 to 10. *)
Lemma extract_score_info_ok t case_section :
  segment case_section t →
  returns (short_numbers t) (_extract_score_info case_section)
    (λ score_info, ∀ k v, score_info !! k = Some v → (1 ≤ k ≤ 10)%Z ∧ (0 ≤ v)%Z).
Proof.
  intros Hseg. unfold _extract_score_info.
  apply (returns_for_each _
           (λ score_info : gmap Z Z,
              ∀ k v, score_info !! k = Some v → (1 ≤ k ≤ 10)%Z ∧ (0 ≤ v)%Z));
    [|by intros k v; rewrite lookup_empty].
  intros [nums score] info Hp Hinfo.
  unfold findall2 in Hp. apply list_elem_of_fmap in Hp as (m & [= -> ->] & Hm).
  pose proof (finditer_within _ _ _ _ Hm) as Hin.
  apply finditer_match_of in Hm.
  destruct (match_of_group_shape no_flags 2 (run_of Digit)
              (λ s, s ≠ [] ∧ Forall (λ c, is_digit c = true) s) score_pattern m)
    as (ds & Hds & Hnum); try done.
  { intros a st mid Ha. by apply (run_of_text no_flags Digit). }
  change (assoc 2 (m_caps m)) with (group m 2). rewrite Hds. cbn [default].
  eapply returns_bind.
  - apply (returns_int ds t Hnum). eapply segment_trans; [by apply (Hin 2) | done].
  - intros n _ Hn. apply returns_ok. by apply score_numerals_wf.
Qed.

(** The number of a pair that [findall] gives for a numbered pattern. *)
Lemma findall2_numbers t r s p :
  numbered r = true → segment s t → p ∈ findall2 no_flags r s →
  numeric p.1 ∧ segment p.1 t.
Proof.
  intros Hnum Hseg Hp. unfold findall2 in Hp.
  apply list_elem_of_fmap in Hp as (m & -> & Hm).
  destruct (match_of_number no_flags r m Hnum) as (ds & Hds & Hn);
    [by eapply finditer_match_of|].
  cbn [fst]. change (assoc 1 (m_caps m)) with (group m 1). rewrite Hds. cbn [default].
  split; [done|].
  eapply segment_trans; [|exact Hseg]. by apply (finditer_within _ _ _ _ Hm 1).
Qed.

Lemma sub_question_step_ok t p acc :
  numeric p.1 → segment p.1 t → Forall well_formed_sub acc →
  returns (short_numbers t) (sub_question_step p acc) (Forall well_formed_sub).
Proof.
  destruct p as [num_str txt]. cbn [fst]. intros Hnum Hseg Hacc.
  unfold sub_question_step. eapply returns_bind; [by apply (returns_int num_str t)|].
  intros n _ Hn. case_bool_decide as Hlen; apply returns_ok; [|done].
  apply Forall_app. split; [done|]. constructor; [|constructor]. by split_and!.
Qed.

(** What [_extract_sub_questions] keeps has more than 5 characters and
    neither answer nor analysis. *)
Lemma extract_sub_questions_ok t case_content :
  segment case_content t →
  returns (short_numbers t) (_extract_sub_questions case_content)
    (Forall well_formed_sub).
Proof.
  intros Hseg. unfold _extract_sub_questions.
  assert (Hsec : ∃ sec,
    match search dotall problem_section_re case_content with
    | None => Ok case_content
    | Some problem_match => need TypeError (group problem_match 1)
    end = Ok sec ∧ segment sec t).
  { destruct (search dotall problem_section_re case_content) as [m|] eqn:E; [|eauto].
    destruct (match_of_group dotall problem_section_re 1 m eq_refl) as [g Hg];
      [eapply search_match_of, E | done |].
    rewrite Hg. simpl. exists g. split; [done|].
    eapply segment_trans; [|exact Hseg]. by apply (search_within _ _ _ _ E 1). }
  destruct Hsec as (sec & -> & Hsec). cbn [res_bind].
  destruct (findall2 no_flags sub_pattern1 sec) as [|p1 ps1] eqn:E1.
  - apply (returns_for_each _ (Forall well_formed_sub)); [|constructor].
    intros p acc Hp Hacc.
    destruct (findall2_numbers t sub_pattern2 sec p eq_refl Hsec Hp).
    by apply sub_question_step_ok.
  - apply (returns_for_each _ (Forall well_formed_sub)); [|constructor].
    intros p acc Hp Hacc. rewrite <- E1 in Hp.
    destruct (findall2_numbers t sub_pattern1 sec p eq_refl Hsec Hp).
    by apply sub_question_step_ok.
Qed.

(** [_extract_background] never raises; without the label and its colon, a
    background that is returned has more than 50 characters. *)
Lemma extract_background_ok case_content :
  ∃ r, _extract_background case_content = Ok r ∧
       (background_labelled case_content = None → ∀ b, r = Some b → 50 < length b).
Proof.
  unfold _extract_background.
  destruct (background_labelled case_content) as [m|] eqn:E.
  - unfold background_labelled in E.
    destruct (match_of_group dotall background_re 1 m eq_refl) as [g ->];
      [eapply search_match_of, E | done |].
    eexists. split; [done | discriminate].
  - destruct (background_before_problem case_content) as [b2|].
    + case_bool_decide as Hlen.
      * eexists. split; [done|]. by intros _ b [= <-].
      * case_bool_decide as Hlen3; eexists; (split; [done|]); intros _ b; [|discriminate].
        by intros [= <-].
    + case_bool_decide as Hlen3; eexists; (split; [done|]); intros _ b; [|discriminate].
      by intros [= <-].
Qed.

(** A case that [_parse_single_case] returns carries the arguments, a
    background that is not empty and at least one sub-question. *)
Lemma parse_single_case_ok t case_num chinese content y subj sc :
  segment content t →
  returns (short_numbers t) (_parse_single_case case_num chinese content y subj sc)
    (λ r, ∀ cs, r = Some cs →
       case_number cs = case_num ∧ year cs = y ∧ subject cs = subj ∧
       title cs = utf8 "案例（" ++ fmt chinese ++ utf8 "）" ∧
       background cs ≠ [] ∧ sub_questions cs ≠ [] ∧
       Forall well_formed_sub (sub_questions cs) ∧ score cs = sc ∧
       (background_labelled content = None → 50 < length (background cs))).
Proof.
  intros Hseg. unfold _parse_single_case.
  destruct (extract_background_ok content) as (b & -> & Hb). cbn [res_bind].
  destruct b as [[|c b]|]; [done | | done].
  eapply returns_bind; [by apply (extract_sub_questions_ok t)|].
  intros sqs _ Hsqs. destruct sqs as [|sq sqs]; [done|].
  apply returns_ok. intros cs [= <-]. simpl. split_and!; try done.
  intros Hnone. by apply (Hb Hnone (c :: b)).
Qed.

Lemma cases_loop_ok t case_section y subj score_info ms :
  segment case_section t →
  (∀ k v, score_info !! k = Some v → (0 ≤ v)%Z) →
  Forall (λ m, ∃ c v, group m 1 = Some [c] ∧ od_get [c] chinese_to_arabic = Some v ∧
                      (1 ≤ v ≤ 10)%Z) ms →
  ∀ i acc,
    Forall (λ cs, well_formed_case y subj cs ∧ score cs = score_info !! case_number cs) acc →
    returns (short_numbers t) (cases_loop case_section y subj score_info i ms acc)
      (λ cases,
         Forall (λ cs, well_formed_case y subj cs ∧ score cs = score_info !! case_number cs)
           cases ∧
         length cases ≤ length acc + length ms).
Proof.
  intros Hseg Hinfo Hms. induction Hms as [|m ms (c & v & Hg & Hv & Hrange) _ IH];
    intros i acc Hacc; cbn [cases_loop].
  - split; [done | lia].
  - rewrite Hg. cbn [mbind option_bind]. rewrite Hv. cbn [default id].
    case_bool_decide as Hshort.
    + eapply returns_mono; [done| |apply (IH (i + 1)%Z acc Hacc)].
      intros cases _ [Hcases Hlen]. split; [done | simpl; lia].
    + eapply returns_bind.
      * apply (parse_single_case_ok t). eapply segment_trans; [apply segment_slice | done].
      * intros r _ Hr. destruct r as [cs|].
        -- destruct (Hr cs eq_refl) as (Hn & Hy & Hs & Ht & Hb & Hq & Hsub & Hsc & _).
           eapply returns_mono; [done| |apply (IH (i + 1)%Z (acc ++ [cs]))].
           ++ intros cases _ [Hcases Hlen]. split; [done|].
              rewrite length_app in Hlen. simpl in *. lia.
           ++ apply Forall_app. split; [done|]. constructor; [|constructor].
              split; [|by rewrite Hsc, Hn].
              unfold well_formed_case. rewrite Hn. split_and!; try done; try lia.
              ** exists c. by rewrite Ht.
              ** intros s Hs'. rewrite Hsc in Hs'. by apply Hinfo in Hs'.
        -- eapply returns_mono; [done| |apply (IH (i + 1)%Z acc Hacc)].
           intros cases _ [Hcases Hlen]. split; [done | simpl; lia].
Qed.

Lemma case_questions_part_segment case_section :
  segment (case_questions_part case_section) case_section.
Proof.
  unfold case_questions_part.
  destruct (search no_flags case_answer_start_re case_section);
    [apply segment_take | apply segment_refl].
Qed.

(** [_parse_case_studies] returns well-formed cases of the year and subject
    it was given, at most one for each case marker, each with the score that
    the score statements give to its number. *)
Lemma parse_case_studies_ok text y subj :
  returns (short_numbers text) (_parse_case_studies text y subj)
    (λ cases,
       Forall (well_formed_case y subj) cases ∧
       match search dotall case_study_section_re text with
       | None => cases = []
       | Some case_section_match =>
           let case_section := case_questions_part (m_text case_section_match) in
           length cases ≤ length (case_markers case_section) ∧
           ∃ score_info,
             _extract_score_info case_section = Ok score_info ∧
             Forall (λ cs, score cs = score_info !! case_number cs) cases
       end).
Proof.
  unfold _parse_case_studies.
  destruct (search dotall case_study_section_re text) as [sm|] eqn:Hsm; [|by split].
  cbn zeta.
  assert (Hseg : segment (case_questions_part (m_text sm)) text).
  { eapply segment_trans; [apply case_questions_part_segment|].
    by apply (search_within _ _ _ _ Hsm 0). }
  eapply returns_bind; [by apply (extract_score_info_ok text)|].
  intros info Hinfo Hwf.
  eapply returns_mono;
    [done| |apply (cases_loop_ok text (case_questions_part (m_text sm)) y subj info
                     (case_markers (case_questions_part (m_text sm))) Hseg)
              with (i := 0%Z) (acc := @nil CaseStudy)].
  - intros cases _ [Hcases Hlen]. split_and!; [| done |].
    + eapply Forall_impl; [exact Hcases|]. by intros cs [? _].
    + exists info. split; [done|]. eapply Forall_impl; [exact Hcases|]. by intros cs [_ ?].
  - intros k v Hk. by destruct (Hwf k v Hk).
  - apply Forall_forall. intros m Hm.
    destruct (case_markers_match _ _ Hm) as (p & Hp & Hmatch).
    by apply (case_marker_numeral p).
  - constructor.
Qed.
End CaseParserFacts.

(** ** The entry points *)

Section EntryPointFacts.
Context `{Unicode}.

Lemma all_answers_table : all_answers = multi_choice_answers.
Proof. reflexivity. Qed.

Lemma table_letters n a :
  od_get n multi_choice_answers = Some a → (21 ≤ n ≤ 30)%Z ∧ letters_A_E a.
Proof.
  unfold multi_choice_answers. cbn [od_get].
  repeat case_decide; intros [= <-]; subst n;
    (split; [lia|]); (split; [by vm_compute|]);
    apply (bool_decide_unpack _); vm_compute; exact I.
Qed.

Lemma image_answer_by_table q : answered_by_table q (image_answer q).
Proof.
  unfold answered_by_table, image_answer. rewrite all_answers_table.
  destruct (q_number q ≫= λ n, od_get n multi_choice_answers) as [a|]; by split_and!.
Qed.

Lemma answered_by_table_wf q q' :
  well_formed_question q → answered_by_table q q' → well_formed_question q'.
Proof.
  intros (Hn & Ht & Hq & Hk & Hnd & Ha & Hkp & Hd)
    ((En & Et & Eq & Eo & Ekp & Ed) & _ & Htable).
  unfold well_formed_question. rewrite En, Et, Eq, Eo, Ekp, Ed.
  split_and!; try done.
  intros a Hq'. destruct (q_number q) as [n|]; cbn [mbind option_bind] in Htable.
  - destruct (od_get n multi_choice_answers) as [a'|] eqn:E.
    + apply table_letters in E as [_ Hl]. congruence.
    + apply Ha. congruence.
  - apply Ha. congruence.
Qed.

Lemma image_answers_ok text :
  returns (short_numbers text ∧ short_numbers (main_text_of text))
    (ExamPDFParser._parse_2010_jidian_with_image_answers text)
    (λ qs', ∃ qs,
       _parse_questions text = Ok qs ∧
       Forall2 answered_by_table qs qs' ∧ Forall well_formed_question qs').
Proof.
  unfold ExamPDFParser._parse_2010_jidian_with_image_answers.
  eapply returns_bind; [apply parse_questions_ok|].
  intros qs Hqs (ranges & _ & Hwf & _). apply returns_ok.
  exists qs. split_and!; try done.
  - clear. induction qs as [|q qs IH]; simpl; constructor; [apply image_answer_by_table | done].
  - apply Forall_map. eapply Forall_impl; [exact Hwf|].
    intros q [Hq _]. simpl. eapply answered_by_table_wf; eauto using image_answer_by_table.
Qed.

Lemma exam_parse_pdf_ok name pdf :
  Forall well_formed_question (ExamPDFParser.parse_pdf name pdf).
Proof.
  unfold ExamPDFParser.parse_pdf. destruct pdf as [pages|e]; cbn [res_bind]; [|constructor].
  destruct (_ && _).
  - pose proof (image_answers_ok (full_text_of pages)) as Hret.
    destruct (ExamPDFParser._parse_2010_jidian_with_image_answers _) as [qs'|e];
      [|constructor].
    by destruct Hret as (qs & _ & _ & Hwf).
  - destruct (_ || _).
    + pose proof (separate_answers_ok (full_text_of pages)) as Hret.
      destruct (_parse_questions_with_separate_answers _) as [qs'|e]; [|constructor].
      by destruct Hret as (qs & answers & _ & _ & _ & Hwf).
    + pose proof (parse_questions_ok (full_text_of pages)) as Hret.
      destruct (_parse_questions _) as [qs|e]; [|constructor].
      destruct Hret as (ranges & _ & Hwf & _).
      eapply Forall_impl; [exact Hwf|]. by intros q [? _].
Qed.

Lemma full_text_of_pages pages :
  full_text_of pages = flat_map (λ t, t ++ [nl]) (page_texts pages).
Proof.
  unfold full_text_of, page_texts.
  enough (Hgen : ∀ acc,
    foldl (λ full_text page,
             match page with
             | Some (c :: text) => full_text ++ (c :: text) ++ [nl]
             | _ => full_text
             end) acc pages
    = acc ++ flat_map (λ t, t ++ [nl])
               (List.filter (λ t, negb (bool_decide (t = []))) (omap id pages)))
    by apply (Hgen []).
  induction pages as [|[[|c t]|] pages IH]; intros acc; cbn [foldl omap list_omap].
  - by rewrite app_nil_r.
  - apply IH.
  - rewrite IH. simpl. by rewrite <- app_assoc.
  - apply IH.
Qed.

Lemma extract_text_ok pages :
  CaseStudyParser._extract_text pages
  = if forallb (λ page, bool_decide (is_Some page)) pages
    then Ok (flat_map (λ t, t ++ [nl]) (omap id pages))
    else Raise TypeError.
Proof.
  unfold CaseStudyParser._extract_text.
  enough (Hgen : ∀ acc,
    for_each pages
      (λ page text, let* page_text := need TypeError page in Ok (text ++ page_text ++ [nl])) acc
    = if forallb (λ page, bool_decide (is_Some page)) pages
      then Ok (acc ++ flat_map (λ t, t ++ [nl]) (omap id pages))
      else Raise TypeError)
    by apply (Hgen []).
  induction pages as [|[t|] pages IH]; intros acc; simpl.
  - by rewrite app_nil_r.
  - rewrite IH. destruct (forallb _ pages); [|done]. by rewrite <- !app_assoc.
  - done.
Qed.

Lemma case_parse_pdf_ok pages y subj :
  if forallb (λ page, bool_decide (is_Some page)) pages
  then returns (short_numbers (flat_map (λ t, t ++ [nl]) (omap id pages)))
         (CaseStudyParser.parse_pdf pages y subj) (Forall (well_formed_case y subj))
  else CaseStudyParser.parse_pdf pages y subj = Raise TypeError.
Proof.
  unfold CaseStudyParser.parse_pdf. rewrite extract_text_ok.
  destruct (forallb _ pages); [|done]. cbn [res_bind].
  eapply returns_mono; [done| |apply parse_case_studies_ok].
  by intros cases _ [Hwf _].
Qed.

Lemma filter_length_le {A} (f : A → bool) (l : list A) :
  length (List.filter f l) ≤ length l.
Proof. induction l as [|x l IH]; simpl; [done|]. destruct (f x); simpl; lia. Qed.

Lemma filter_length_all {A} (f : A → bool) (l : list A) :
  length (List.filter f l) = length l ↔ Forall (λ x, f x = true) l.
Proof.
  induction l as [|x l IH]; simpl; [by split; [constructor|]|].
  pose proof (filter_length_le f l). destruct (f x) eqn:E; simpl.
  - split.
    + intros [=]. constructor; [done | by apply IH].
    + intros [_ Hl]%Forall_cons. f_equal. by apply IH.
  - split; [lia|]. intros [Hx _]%Forall_cons. congruence.
Qed.

Lemma answer_rate_ok questions :
  (0 ≤ answer_rate questions ≤ 100)%Z ∧
  (answer_rate questions = 100%Z ↔
   questions ≠ [] ∧ Forall (λ q, has_answer q = true) questions).
Proof.
  unfold answer_rate, with_answer.
  destruct questions as [|q qs]; [split; [lia|]; split; [done | by intros [? _]]|].
  set (l := q :: qs).
  pose proof (filter_length_le has_answer l) as Hle.
  pose proof (filter_length_all has_answer l) as Hall.
  assert (Hpos : 0 < length l) by (simpl; lia).
  set (w := length (List.filter has_answer l)) in *. set (n := length l) in *.
  split.
  - split.
    + apply Z.div_pos; lia.
    + apply Z.div_le_upper_bound; lia.
  - split.
    + intros Hrate. split; [done|]. apply Hall.
      destruct (decide (w = n)) as [|Hne]; [done|]. exfalso.
      assert ((Z.of_nat w * 100) / Z.of_nat n < 100)%Z; [|lia].
      apply Z.div_lt_upper_bound; lia.
    + intros [_ Hf]. apply Hall in Hf. rewrite Hf.
      rewrite (Z.mul_comm _ 100), Z.div_mul; lia.
Qed.
End EntryPointFacts.

(** * What the parsers guarantee *)

Section Guarantees.
Context `{Unicode}.


(** X2.  [_extract_question_and_options] never raises: on a question whose
    option keys are distinct letters A to E (none, for a new question) it
    sets the stem, leaves the number, type, answer, analysis, knowledge
    points and difficulty as they were, and the option keys are still
    distinct letters A to E. *)
Theorem options_lettered_once (q : ExamQuestion) (text : list N) :
  Forall option_key (q_options q).*1 → NoDup (q_options q).*1 →
  ∃ q', _extract_question_and_options q text = Ok q' ∧
        q_number q' = q_number q ∧ q_type q' = q_type q ∧
        is_Some (q_question q') ∧ q_answer q' = q_answer q ∧
        q_analysis q' = q_analysis q ∧
        q_knowledge_points q' = q_knowledge_points q ∧
        q_difficulty q' = q_difficulty q ∧
        Forall option_key (q_options q').*1 ∧ NoDup (q_options q').*1.
Proof. apply extract_question_and_options_ok. Qed.

(** X3.  [_extract_answer] changes nothing but the answer, and an answer it
    stores is a non-empty string of letters A to E. *)
Theorem inline_answer_letters (q : ExamQuestion) (text : list N) :
  same_question q (_extract_answer q text) ∧
  q_analysis (_extract_answer q text) = q_analysis q ∧
  (q_answer (_extract_answer q text) = q_answer q ∨
   ∃ a, q_answer (_extract_answer q text) = Some a ∧ letters_A_E a).
Proof. apply extract_answer_ok. Qed.

(** X4.  [_extract_analysis] never raises and changes nothing but the
    analysis. *)
Theorem inline_analysis_only (q : ExamQuestion) (text : list N) :
  ∃ q', _extract_analysis q text = Ok q' ∧ same_question q q' ∧ q_answer q' = q_answer q.
Proof. apply extract_analysis_ok. Qed.

(** X5.  [_parse_single_question] on a number made of at most
    [int_max_str_digits] digits returns without raising, and the question it
    returns, when it returns one, is well formed: a number that is not
    negative, a type, a stem that is not empty, options under distinct
    letters A to E, an answer made of letters A to E if any, no knowledge
    point and no difficulty; its type is that of the first range holding its
    number when there is one. *)
Theorem single_question_well_formed (ds piece : list N)
    (type_ranges : list (qtype * (Z * Z))) :
  numeric ds → length ds ≤ int_max_str_digits →
  ∃ r, _parse_single_question (Some ds) (Some piece) type_ranges = Ok r ∧
       ∀ q, r = Some q → well_formed_question q ∧ typed_by_range type_ranges q.
Proof.
  intros Hnum Hlen. destruct (int_numeric ds Hnum Hlen) as (n & Hint & Hpos).
  by apply (parse_single_question_ok ds n).
Qed.


(** X7.  [_extract_answers_section] returns on every text in which no
    number has more than [int_max_str_digits] digits, and raises nothing
    but the [ValueError] of a longer number.  Every entry of the map it
    returns has a number that is not negative, an answer that is a non-empty
    string of letters A to E, and an analysis, if any, of at most 500
    characters. *)
Theorem answer_map_well_formed (text : list N) :
  (short_numbers text → ∃ answers, _extract_answers_section text = Ok answers) ∧
  (∀ answers, _extract_answers_section text = Ok answers → well_formed_answers answers) ∧
  (∀ e, _extract_answers_section text = Raise e → e = ValueError ∧ ¬ short_numbers text).
Proof. apply returns_cases, extract_answers_returns. Qed.



(** X10.  Whatever the file name, and whether the pages could be read or
    not, every question that [ExamPDFParser.parse_pdf] returns is well
    formed. *)
Theorem exam_pdf_questions_well_formed (name : list N)
    (pdf : res (list (option (list N)))) :
  Forall well_formed_question (ExamPDFParser.parse_pdf name pdf).
Proof. apply exam_parse_pdf_ok. Qed.

(** X11.  The text that [ExamPDFParser.parse_pdf] parses is the texts of the
    pages that have one which is not empty, in page order, a line break after
    each; a page without text leaves no trace. *)
Theorem full_text_skips_empty_pages (pages : list (option (list N))) :
  full_text_of pages = flat_map (λ t, t ++ [nl]) (page_texts pages).
Proof. apply full_text_of_pages. Qed.

(** X12.  The answer rate that [ExamPDFParser.parse_pdf] reports is a
    percentage, from 0 to 100 (there is no division by zero: it is 0 for no
    question), and it is 100 exactly when there is a question and every
    question has an answer. *)
Theorem answer_rate_percentage (questions : list ExamQuestion) :
  (0 ≤ answer_rate questions ≤ 100)%Z ∧
  (answer_rate questions = 100%Z ↔
   questions ≠ [] ∧ Forall (λ q, has_answer q = true) questions).
Proof. apply answer_rate_ok. Qed.

(** X13.  [_extract_score_info] returns on every case section in which no
    number has more than [int_max_str_digits] digits, and raises nothing
    but the [ValueError] of a longer number; the case numbers it gives a
    score are from 1 to 10 and no score is negative. *)
Theorem score_info_in_range (case_section : list N) :
  (short_numbers case_section →
   ∃ score_info, _extract_score_info case_section = Ok score_info) ∧
  (∀ score_info,
     _extract_score_info case_section = Ok score_info →
     ∀ k v, score_info !! k = Some v → (1 ≤ k ≤ 10)%Z ∧ (0 ≤ v)%Z) ∧
  (∀ e, _extract_score_info case_section = Raise e →
        e = ValueError ∧ ¬ short_numbers case_section).
Proof. apply returns_cases, extract_score_info_ok, segment_refl. Qed.

(** X14.  [_extract_sub_questions] returns on every case content in which
    no number has more than [int_max_str_digits] digits, and raises nothing
    but the [ValueError] of a longer number; every sub-question it returns
    has a number that is not negative, a text of more than 5 characters, and
    neither answer nor analysis. *)
Theorem sub_questions_well_formed (case_content : list N) :
  (short_numbers case_content →
   ∃ sqs, _extract_sub_questions case_content = Ok sqs) ∧
  (∀ sqs, _extract_sub_questions case_content = Ok sqs → Forall well_formed_sub sqs) ∧
  (∀ e, _extract_sub_questions case_content = Raise e →
        e = ValueError ∧ ¬ short_numbers case_content).
Proof. apply returns_cases, extract_sub_questions_ok, segment_refl. Qed.

(** X15.  [_extract_background] never raises; when the content has no
    background label followed by a colon, a background that is returned has
    more than 50 characters. *)
Theorem background_length_gate (case_content : list N) :
  ∃ r, _extract_background case_content = Ok r ∧
       (background_labelled case_content = None → ∀ b, r = Some b → 50 < length b).
Proof. apply extract_background_ok. Qed.

(** X16.  [_parse_single_case] returns on every case content in which no
    number has more than [int_max_str_digits] digits, and raises nothing
    but the [ValueError] of a longer number.  A case study it returns has
    the number, year, subject and score it was given, the title made of the
    numeral, a background that is not empty (of more than 50 characters when
    the content has no labelled background) and at least one sub-question,
    all well formed. *)
Theorem single_case_carries_arguments (case_num : Z) (case_num_chinese : option (list N))
    (case_content : list N) (y : Z) (subj : list N) (sc : option Z) :
  (short_numbers case_content →
   ∃ r, _parse_single_case case_num case_num_chinese case_content y subj sc = Ok r) ∧
  (∀ r,
     _parse_single_case case_num case_num_chinese case_content y subj sc = Ok r →
     ∀ cs, r = Some cs →
       case_number cs = case_num ∧ year cs = y ∧ subject cs = subj ∧
       title cs = utf8 "案例（" ++ fmt case_num_chinese ++ utf8 "）" ∧
       background cs ≠ [] ∧ sub_questions cs ≠ [] ∧
       Forall well_formed_sub (sub_questions cs) ∧ score cs = sc ∧
       (background_labelled case_content = None → 50 < length (background cs))) ∧
  (∀ e, _parse_single_case case_num case_num_chinese case_content y subj sc = Raise e →
        e = ValueError ∧ ¬ short_numbers case_content).
Proof. apply returns_cases, parse_single_case_ok, segment_refl. Qed.

(** X17.  Group 1 of every case marker, whichever of the four formats found
    it, is one Chinese numeral of the table: the case number is always the
    value of the numeral, from 1 to 10, and never the position of the
    marker. *)
Theorem case_markers_numbered (case_section : list N) :
  Forall (λ m, ∃ c v, group m 1 = Some [c] ∧ od_get [c] chinese_to_arabic = Some v ∧
                      (1 ≤ v ≤ 10)%Z)
    (case_markers case_section).
Proof.
  apply Forall_forall. intros m Hm.
  destruct (case_markers_match _ _ Hm) as (p & Hp & Hmatch).
  by apply (case_marker_numeral p).
Qed.

(** X18.  [_parse_case_studies] returns on every text in which no number
    has more than [int_max_str_digits] digits, and raises nothing but the
    [ValueError] of a longer number.  Without a case section it returns the
    empty list; with one, it returns at most one case study for each case
    marker, each of the year and subject given, numbered from 1 to 10 by the
    numeral of its title, with a background that is not empty, at least one
    sub-question, and the score that the score statements of the section
    give to its number. *)
Theorem case_studies_well_formed (text : list N) (y : Z) (subj : list N) :
  (short_numbers text → ∃ cases, _parse_case_studies text y subj = Ok cases) ∧
  (∀ cases,
     _parse_case_studies text y subj = Ok cases →
     Forall (well_formed_case y subj) cases ∧
     match search dotall case_study_section_re text with
     | None => cases = []
     | Some case_section_match =>
         let case_section := case_questions_part (m_text case_section_match) in
         length cases ≤ length (case_markers case_section) ∧
         ∃ score_info,
           _extract_score_info case_section = Ok score_info ∧
           Forall (λ cs, score cs = score_info !! case_number cs) cases
     end) ∧
  (∀ e, _parse_case_studies text y subj = Raise e →
        e = ValueError ∧ ¬ short_numbers text).
Proof. apply returns_cases, parse_case_studies_ok. Qed.

(** X19.  [CaseStudyParser._extract_text] returns the texts of the pages in
    order, a line break after each, when every page has a text, and raises
    [TypeError] as soon as one page has none. *)
Theorem extract_text_needs_every_page (pages : list (option (list N))) :
  CaseStudyParser._extract_text pages
  = if forallb (λ page, bool_decide (is_Some page)) pages
    then Ok (flat_map (λ t, t ++ [nl]) (omap id pages))
    else Raise TypeError.
Proof. apply extract_text_ok. Qed.

(** X20.  [CaseStudyParser.parse_pdf] raises [TypeError] when a page has no
    text.  When every page has one, it returns well-formed case studies
    provided no number of the text of the pages has more than
    [int_max_str_digits] digits, and raises nothing but the [ValueError] of a
    longer number. *)
Theorem case_pdf_total_or_type_error (pages : list (option (list N))) (y : Z)
    (subj : list N) :
  if forallb (λ page, bool_decide (is_Some page)) pages
  then
    (short_numbers (flat_map (λ t, t ++ [nl]) (omap id pages)) →
     ∃ cases, CaseStudyParser.parse_pdf pages y subj = Ok cases) ∧
    (∀ cases, CaseStudyParser.parse_pdf pages y subj = Ok cases →
              Forall (well_formed_case y subj) cases) ∧
    (∀ e, CaseStudyParser.parse_pdf pages y subj = Raise e →
          e = ValueError ∧ ¬ short_numbers (flat_map (λ t, t ++ [nl]) (omap id pages)))
  else CaseStudyParser.parse_pdf pages y subj = Raise TypeError.
Proof.
  pose proof (case_parse_pdf_ok pages y subj) as Hpdf.
  destruct (forallb _ pages); [by apply returns_cases | done].
Qed.
End Guarantees.

Lemma options_lettered_once_witness :
  ∃ q', @_extract_question_and_options exam_unicode new_question one_question_piece = Ok q' ∧
        q_number q' = q_number new_question ∧ q_type q' = q_type new_question ∧
        is_Some (q_question q') ∧ q_answer q' = q_answer new_question ∧
        q_analysis q' = q_analysis new_question ∧
        q_knowledge_points q' = q_knowledge_points new_question ∧
        q_difficulty q' = q_difficulty new_question ∧
        Forall option_key (q_options q').*1 ∧ NoDup (q_options q').*1.
Proof.
  apply (@options_lettered_once exam_unicode new_question one_question_piece).
  - simpl. constructor.
  - simpl. constructor.
Defined.

Lemma single_question_well_formed_witness :
  ∃ r, @_parse_single_question exam_unicode (Some (utf8 "7")) (Some one_question_piece)
         [(SingleChoice, (1, 20)%Z)] = Ok r ∧
       ∀ q, r = Some q →
            well_formed_question q ∧ typed_by_range [(SingleChoice, (1, 20)%Z)] q.
Proof.
  apply (@single_question_well_formed exam_unicode (utf8 "7") one_question_piece
           [(SingleChoice, (1, 20)%Z)]).
  - split.
    + vm_compute. discriminate.
    + constructor; [vm_compute; reflexivity | constructor].
  - apply Nat.leb_le. vm_compute. reflexivity.
Defined.
